(** * Placeholder expansion engine of Raycast-File-AI (src/utils/placeholders.ts)

    A shallow embedding of the directive table and of [bulkApply], together
    with the JavaScript facilities the code relies on (regular expressions,
    [String.prototype.replace], [parseInt], property order of objects).

    Strings are sequences of 8-bit code units ([string] of the Standard
    Library); the templates, keys and values of the engine are ASCII in
    practice, and the regular expressions of the table only name ASCII
    characters. *)

From Stdlib Require Import String Ascii List ZArith Lia Bool.
From stdpp Require Import gmap strings.
Import ListNotations.
Local Open Scope string_scope.

(** ** JavaScript strings *)

Module JSString.

Definition code (c : ascii) : N := N_of_ascii c.

Fixpoint rev_append (s acc : string) : string :=
  match s with
  | EmptyString => acc
  | String c s' => rev_append s' (String c acc)
  end.

Definition rev (s : string) : string := rev_append s EmptyString.

(** [take n s] is [s.slice(0, n)]. *)
Fixpoint take (n : nat) (s : string) : string :=
  match n, s with
  | S n', String c s' => String c (take n' s')
  | _, _ => EmptyString
  end.

Fixpoint drop (n : nat) (s : string) : string :=
  match n, s with
  | S n', String _ s' => drop n' s'
  | _, _ => s
  end.

(** [s.startsWith(p)] *)
Fixpoint startsWith (p s : string) : bool :=
  match p, s with
  | EmptyString, _ => true
  | String a p', String b s' => if Ascii.eqb a b then startsWith p' s' else false
  | String _ _, EmptyString => false
  end.

(** [s.endsWith(p)] *)
Definition endsWith (s p : string) : bool := startsWith (rev p) (rev s).

(** [s.includes(p)] *)
Fixpoint includes (p s : string) : bool :=
  startsWith p s ||
  match s with
  | EmptyString => false
  | String _ s' => includes p s'
  end.

Definition is_upper (c : ascii) : bool :=
  let n := code c in
  ((65 <=? n) && (n <=? 90) || (192 <=? n) && (n <=? 222) && negb (n =? 215))%N.

Definition lower_char (c : ascii) : ascii :=
  if is_upper c then ascii_of_N (code c + 32) else c.

(** [s.toLowerCase()] on 8-bit code units. *)
Fixpoint toLowerCase (s : string) : string :=
  match s with
  | EmptyString => EmptyString
  | String c s' => String (lower_char c) (toLowerCase s')
  end.

(** White space and line terminators of ECMAScript within 8 bits:
    TAB, LF, VT, FF, CR, SP and NBSP. *)
Definition is_space (c : ascii) : bool :=
  let n := code c in
  ((9 <=? n) && (n <=? 13) || (n =? 32) || (n =? 160))%N.

Definition is_line_terminator (c : ascii) : bool :=
  let n := code c in ((n =? 10) || (n =? 13))%N.

Definition is_digit (c : ascii) : bool :=
  let n := code c in ((48 <=? n) && (n <=? 57))%N.

Definition is_word (c : ascii) : bool :=
  let n := code c in
  ((48 <=? n) && (n <=? 57) || (65 <=? n) && (n <=? 90)
   || (97 <=? n) && (n <=? 122) || (n =? 95))%N.

Fixpoint trimStart (s : string) : string :=
  match s with
  | String c s' => if is_space c then trimStart s' else s
  | EmptyString => EmptyString
  end.

(** [s.trim()] *)
Definition trim (s : string) : string := rev (trimStart (rev (trimStart s))).

(** [s.split(sep)] for a separator of one code unit. *)
Fixpoint split_aux (sep : ascii) (s acc : string) : list string :=
  match s with
  | EmptyString => [rev acc]
  | String c s' =>
      if Ascii.eqb c sep then rev acc :: split_aux sep s' EmptyString
      else split_aux sep s' (String c acc)
  end.

Definition split (sep : ascii) (s : string) : list string :=
  split_aux sep s EmptyString.

(** [xs.join(sep)] *)
Definition join (sep : string) (xs : list string) : string := String.concat sep xs.

End JSString.

(** ** Regular expressions

    The abstract syntax and the backtracking matcher follow the ECMAScript
    specification (22.2.2, non-unicode mode without flags other than [g]):
    continuation-passing matchers, a direction for lookbehind, the
    empty-check of [RepeatMatcher] and the reset of the captures of a
    repeated subterm at each iteration. *)

Module RegExp.

Import JSString.

Inductive ClassEscape : Type :=
| Digit | NotDigit | Space | NotSpace | Word | NotWord.

Inductive ClassItem : Type :=
| CChar (c : ascii)
| CRange (lo hi : ascii)
| CEsc (e : ClassEscape).

Inductive Regex : Type :=
| Empty
| Char (c : ascii)
| Dot
| Class (negated : bool) (items : list ClassItem)
| Seq (r1 r2 : Regex)
| Alt (r1 r2 : Regex)
| Repeat (min : nat) (max : option nat) (greedy : bool) (r : Regex)
| Group (i : nat) (r : Regex)
| Look (ahead negated : bool) (r : Regex)
| Bol
| Eol
| WordBoundary (negated : bool)
| Backref (i : nat).

Definition escape_matches (e : ClassEscape) (c : ascii) : bool :=
  match e with
  | Digit => is_digit c
  | NotDigit => negb (is_digit c)
  | Space => is_space c
  | NotSpace => negb (is_space c)
  | Word => is_word c
  | NotWord => negb (is_word c)
  end.

Definition item_matches (it : ClassItem) (c : ascii) : bool :=
  match it with
  | CChar a => Ascii.eqb a c
  | CRange lo hi => ((code lo <=? code c) && (code c <=? code hi))%N
  | CEsc e => escape_matches e c
  end.

Definition class_matches (negated : bool) (items : list ClassItem) (c : ascii) : bool :=
  xorb negated (existsb (fun it => item_matches it c) items).

(** The state of a match: the text before the current position (nearest
    character first), the text after it, and the captures by group
    number (index 0 is unused until the match is complete). *)
Record MatchState : Type := mkState {
  before : string;
  after : string;
  captures : list (option string)
}.

Definition Cont : Type := MatchState -> option MatchState.

(** The capturing groups inside a subterm (parenIndex / parenCount). *)
Fixpoint groups (r : Regex) : list nat :=
  match r with
  | Seq r1 r2 | Alt r1 r2 => groups r1 ++ groups r2
  | Repeat _ _ _ r1 | Look _ _ r1 => groups r1
  | Group i r1 => i :: groups r1
  | _ => []
  end.

Definition clear_captures (gs : list nat) (x : MatchState) : MatchState :=
  mkState (before x) (after x)
          (fold_left (fun caps i => <[i := None]> caps) gs (captures x)).

Definition set_capture (i : nat) (s : string) (x : MatchState) : MatchState :=
  mkState (before x) (after x) (<[i := Some s]> (captures x)).

Definition same_position (x y : MatchState) : bool :=
  Nat.eqb (String.length (after x)) (String.length (after y)).

(** One character in the direction of the match. *)
Definition step_char (forward : bool) (p : ascii -> bool) (x : MatchState) (k : Cont)
  : option MatchState :=
  if forward then
    match after x with
    | String c rest => if p c then k (mkState (String c (before x)) rest (captures x)) else None
    | EmptyString => None
    end
  else
    match before x with
    | String c rest => if p c then k (mkState rest (String c (after x)) (captures x)) else None
    | EmptyString => None
    end.

(** A literal string in the direction of the match (backreferences). *)
Fixpoint step_string (forward : bool) (s : string) (x : MatchState) (k : Cont)
  : option MatchState :=
  match s with
  | EmptyString => k x
  | String c s' => step_char forward (Ascii.eqb c) x (fun y => step_string forward s' y k)
  end.

Definition captured (forward : bool) (x y : MatchState) : string :=
  if forward
  then take (String.length (after x) - String.length (after y)) (after x)
  else take (String.length (after y) - String.length (after x)) (after y).

Definition head_is (p : ascii -> bool) (s : string) : bool :=
  match s with
  | String c _ => p c
  | EmptyString => false
  end.

Definition pred_max (mx : option nat) : option nat :=
  match mx with
  | Some n => Some (Nat.pred n)
  | None => None
  end.

(** RepeatMatcher: [body] matches the repeated subterm once, [gs] are
    the groups inside it.  Every iteration that is not forced by [mn]
    must move the position, so that the length of the input bounds their
    number: [fuel] starts above that bound and never runs out. *)
Section RepeatMatcher.

Variable body : MatchState -> Cont -> option MatchState.
Variable gs : list nat.
Variable greedy : bool.
Variable k : Cont.

Fixpoint repeat (fuel mn : nat) (mx : option nat) (x : MatchState) {struct fuel}
  : option MatchState :=
  match fuel with
  | O => None
  | S fuel' =>
      match mx with
      | Some O => k x
      | _ =>
          let d := fun y =>
            if Nat.eqb mn 0 && same_position x y then None
            else repeat fuel' (Nat.pred mn) (pred_max mx) y in
          let xr := clear_captures gs x in
          if negb (Nat.eqb mn 0) then body xr d
          else if greedy then
            match body xr d with
            | Some z => Some z
            | None => k x
            end
          else
            match k x with
            | Some z => Some z
            | None => body xr d
            end
      end
  end.

End RepeatMatcher.

Fixpoint m (r : Regex) (forward : bool) (x : MatchState) (k : Cont) {struct r}
  : option MatchState :=
  match r with
  | Empty => k x
  | Char c => step_char forward (Ascii.eqb c) x k
  | Dot => step_char forward (fun c => negb (is_line_terminator c)) x k
  | Class negated items => step_char forward (class_matches negated items) x k
  | Seq r1 r2 =>
      if forward then m r1 forward x (fun y => m r2 forward y k)
      else m r2 forward x (fun y => m r1 forward y k)
  | Alt r1 r2 =>
      match m r1 forward x k with
      | Some z => Some z
      | None => m r2 forward x k
      end
  | Repeat mn mx greedy r1 =>
      repeat (m r1 forward) (groups r1) greedy k
             (S (mn + String.length (before x) + String.length (after x))) mn mx x
  | Group i r1 =>
      m r1 forward x (fun y => k (set_capture i (captured forward x y) y))
  | Look ahead negated r1 =>
      match m r1 ahead x Some with
      | Some y => if negated then None else k (mkState (before x) (after x) (captures y))
      | None => if negated then k x else None
      end
  | Bol => match before x with EmptyString => k x | _ => None end
  | Eol => match after x with EmptyString => k x | _ => None end
  | WordBoundary negated =>
      if xorb negated (xorb (head_is is_word (before x)) (head_is is_word (after x)))
      then k x else None
  | Backref i =>
      match captures x !! i with
      | Some (Some s) => step_string forward (if forward then s else rev s) x k
      | _ => k x
      end
  end.

(** The result of [RegExp.prototype.exec]: where the match starts, the
    matched text, what follows it, and the captures ([groups !! 0] is the
    match itself). *)
Record MatchResult : Type := mkResult {
  prefix_rev : string;
  matched : string;
  suffix : string;
  result_groups : list (option string)
}.

Definition finish (bef aft : string) (y : MatchState) : MatchResult :=
  let whole := take (String.length aft - String.length (after y)) aft in
  mkResult bef whole (after y) (<[0 := Some whole]> (captures y)).

(** Leftmost match at or after the position between [bef] and [aft]. *)
Fixpoint search (r : Regex) (ngroups : nat) (bef aft : string) {struct aft}
  : option MatchResult :=
  match m r true (mkState bef aft (replicate (S ngroups) None)) Some with
  | Some y => Some (finish bef aft y)
  | None =>
      match aft with
      | EmptyString => None
      | String c aft' => search r ngroups (String c bef) aft'
      end
  end.


(** *** Parsing a pattern ([new RegExp(source)])

    The pattern grammar of ECMAScript with the Annex B extensions that the
    table relies on: a brace that does not open a quantifier, and a
    closing brace or bracket, are ordinary characters.  Named groups,
    legacy octal escapes and escapes of code units above 255 are outside
    the modelled fragment: such a source is reported as not compiling. *)

Definition hex_value (c : ascii) : option nat :=
  let n := N.to_nat (code c) in
  if is_digit c then Some (n - 48)
  else if ((97 <=? code c) && (code c <=? 102))%N then Some (n - 87)
  else if ((65 <=? code c) && (code c <=? 70))%N then Some (n - 55)
  else None.

Fixpoint parse_digits (s : string) (acc : nat) : nat * string :=
  match s with
  | String c s' =>
      if is_digit c then parse_digits s' (10 * acc + (N.to_nat (code c) - 48))
      else (acc, s)
  | EmptyString => (acc, s)
  end.

(** [{n}], [{n,}] or [{n,m}] at the head of [s] (after the brace). *)
Definition parse_braces (s : string) : option (nat * option nat * string) :=
  if head_is is_digit s then
    let '(lo, s1) := parse_digits s 0 in
    match s1 with
    | String "}" s2 => Some (lo, Some lo, s2)
    | String "," (String "}" s2) => Some (lo, None, s2)
    | String "," s2 =>
        if head_is is_digit s2 then
          let '(hi, s3) := parse_digits s2 0 in
          match s3 with
          | String "}" s4 => Some (lo, Some hi, s4)
          | _ => None
          end
        else None
    | _ => None
    end
  else None.

Inductive Quantifier : Type :=
| NoQuantifier
| BadQuantifier
| Quantified (min : nat) (max : option nat) (greedy : bool) (rest : string).

Definition lazy_suffix (mn : nat) (mx : option nat) (s : string) : Quantifier :=
  match s with
  | String "?" s' => Quantified mn mx false s'
  | _ => Quantified mn mx true s
  end.

Definition parse_quantifier (s : string) : Quantifier :=
  match s with
  | String "*" s' => lazy_suffix 0 None s'
  | String "+" s' => lazy_suffix 1 None s'
  | String "?" s' => lazy_suffix 0 (Some 1) s'
  | String "{" s' =>
      match parse_braces s' with
      | Some (lo, Some hi, s'') =>
          if Nat.ltb hi lo then BadQuantifier else lazy_suffix lo (Some hi) s''
      | Some (lo, None, s'') => lazy_suffix lo None s''
      | None => NoQuantifier
      end
  | _ => NoQuantifier
  end.

(** The character escapes shared by atoms and classes (after the
    backslash): the character and the rest of the pattern. *)
Definition parse_char_escape (s : string) : option (ascii * string) :=
  match s with
  | EmptyString => None
  | String c s' =>
      if Ascii.eqb c "t" then Some (ascii_of_nat 9, s')
      else if Ascii.eqb c "n" then Some (ascii_of_nat 10, s')
      else if Ascii.eqb c "v" then Some (ascii_of_nat 11, s')
      else if Ascii.eqb c "f" then Some (ascii_of_nat 12, s')
      else if Ascii.eqb c "r" then Some (ascii_of_nat 13, s')
      else if Ascii.eqb c "0" then
        if head_is is_digit s' then None else Some (ascii_of_nat 0, s')
      else if is_digit c then None
      else if Ascii.eqb c "c" then
        match s' with
        | String l s'' =>
            if is_word l && negb (is_digit l) && negb (Ascii.eqb l "_")
            then Some (ascii_of_nat (N.to_nat (code l) mod 32), s'')
            else None
        | EmptyString => None
        end
      else if Ascii.eqb c "x" then
        match s' with
        | String h1 (String h2 s'') =>
            match hex_value h1, hex_value h2 with
            | Some a, Some b => Some (ascii_of_nat (16 * a + b), s'')
            | _, _ => Some (c, s')
            end
        | _ => Some (c, s')
        end
      else if Ascii.eqb c "u" then
        match s' with
        | String h1 (String h2 (String h3 (String h4 s''))) =>
            match hex_value h1, hex_value h2, hex_value h3, hex_value h4 with
            | Some 0, Some 0, Some a, Some b => Some (ascii_of_nat (16 * a + b), s'')
            | Some _, Some _, Some _, Some _ => None
            | _, _, _, _ => Some (c, s')
            end
        | _ => Some (c, s')
        end
      else Some (c, s')
  end.

Definition class_escape_of (c : ascii) : option ClassEscape :=
  if Ascii.eqb c "d" then Some Digit
  else if Ascii.eqb c "D" then Some NotDigit
  else if Ascii.eqb c "s" then Some Space
  else if Ascii.eqb c "S" then Some NotSpace
  else if Ascii.eqb c "w" then Some Word
  else if Ascii.eqb c "W" then Some NotWord
  else None.

(** One atom of a character class. *)
Definition parse_class_atom (s : string) : option (ClassItem * string) :=
  match s with
  | EmptyString => None
  | String "\" EmptyString => None
  | String "\" (String c s' as e) =>
      match class_escape_of c with
      | Some k => Some (CEsc k, s')
      | None =>
          if Ascii.eqb c "b" then Some (CChar (ascii_of_nat 8), s')
          else match parse_char_escape e with
               | Some (a, s'') => Some (CChar a, s'')
               | None => None
               end
      end
  | String c s' => Some (CChar c, s')
  end.

(** The items of a class up to its closing bracket. *)
Fixpoint parse_class_items (fuel : nat) (s : string) : option (list ClassItem * string) :=
  match fuel with
  | O => None
  | S fuel' =>
      match s with
      | EmptyString => None
      | String "]" s' => Some ([], s')
      | _ =>
          match parse_class_atom s with
          | None => None
          | Some (a, s1) =>
              match s1 with
              | String "-" (String "]" s2) => Some ([a; CChar "-"], s2)
              | String "-" s2 =>
                  match parse_class_atom s2 with
                  | None => None
                  | Some (b, s3) =>
                      match a, b with
                      | CChar lo, CChar hi =>
                          if (code hi <? code lo)%N then None
                          else match parse_class_items fuel' s3 with
                               | Some (items, s4) => Some (CRange lo hi :: items, s4)
                               | None => None
                               end
                      | _, _ =>
                          match parse_class_items fuel' s3 with
                          | Some (items, s4) => Some (a :: CChar "-" :: b :: items, s4)
                          | None => None
                          end
                      end
                  end
              | _ =>
                  match parse_class_items fuel' s1 with
                  | Some (items, s2) => Some (a :: items, s2)
                  | None => None
                  end
              end
          end
      end
  end.

Definition parse_class (s : string) : option (Regex * string) :=
  let '(negated, s1) :=
    match s with
    | String "^" s' => (true, s')
    | _ => (false, s)
    end in
  match parse_class_items (S (String.length s1)) s1 with
  | Some (items, s2) => Some (Class negated items, s2)
  | None => None
  end.

(** The number of capturing groups of a pattern, needed before parsing to
    tell a backreference from an escape. *)
Fixpoint count_groups (in_class : bool) (s : string) : nat :=
  match s with
  | EmptyString => 0
  | String "\" (String _ s') => count_groups in_class s'
  | String "[" s' => count_groups true s'
  | String "]" s' => count_groups false s'
  | String "(" s' =>
      (if in_class || head_is (Ascii.eqb "?") s' then 0 else 1) + count_groups in_class s'
  | String _ s' => count_groups in_class s'
  end.

Definition mkSeq (r1 r2 : Regex) : Regex :=
  match r1, r2 with
  | Empty, _ => r2
  | _, Empty => r1
  | _, _ => Seq r1 r2
  end.

(** An atom followed by its quantifier, if any. *)
Definition quantify (quantifiable : bool) (r : Regex) (s : string) (n : nat)
  : option (Regex * string * nat) :=
  match parse_quantifier s with
  | NoQuantifier => Some (r, s, n)
  | BadQuantifier => None
  | Quantified mn mx greedy rest =>
      if quantifiable then Some (Repeat mn mx greedy r, rest, n) else None
  end.

Fixpoint parse_disjunction (fuel total : nat) (s : string) (n : nat) {struct fuel}
  : option (Regex * string * nat) :=
  match fuel with
  | O => None
  | S fuel' =>
      match parse_alternative fuel' total s n with
      | Some (r1, String "|" s1, n1) =>
          match parse_disjunction fuel' total s1 n1 with
          | Some (r2, s2, n2) => Some (Alt r1 r2, s2, n2)
          | None => None
          end
      | other => other
      end
  end

with parse_alternative (fuel total : nat) (s : string) (n : nat) {struct fuel}
  : option (Regex * string * nat) :=
  match fuel with
  | O => None
  | S fuel' =>
      match s with
      | EmptyString | String "|" _ | String ")" _ => Some (Empty, s, n)
      | _ =>
          match parse_term fuel' total s n with
          | Some (t, s1, n1) =>
              match parse_alternative fuel' total s1 n1 with
              | Some (r, s2, n2) => Some (mkSeq t r, s2, n2)
              | None => None
              end
          | None => None
          end
      end
  end

with parse_term (fuel total : nat) (s : string) (n : nat) {struct fuel}
  : option (Regex * string * nat) :=
  match fuel with
  | O => None
  | S fuel' =>
      let group (inner : string) (n0 : nat) (wrap : Regex -> Regex) (quantifiable : bool) :=
        match parse_disjunction fuel' total inner n0 with
        | Some (r, String ")" s1, n1) => quantify quantifiable (wrap r) s1 n1
        | _ => None
        end in
      match s with
      | EmptyString => None
      | String "^" s' => quantify false Bol s' n
      | String "$" s' => quantify false Eol s' n
      | String "." s' => quantify true Dot s' n
      | String "[" s' =>
          match parse_class s' with
          | Some (r, s1) => quantify true r s1 n
          | None => None
          end
      | String "(" (String "?" (String ":" s')) => group s' n (fun r => r) true
      | String "(" (String "?" (String "=" s')) => group s' n (Look true false) true
      | String "(" (String "?" (String "!" s')) => group s' n (Look true true) true
      | String "(" (String "?" (String "<" (String "=" s'))) => group s' n (Look false false) false
      | String "(" (String "?" (String "<" (String "!" s'))) => group s' n (Look false true) false
      | String "(" (String "?" _) => None
      | String "(" s' => group s' (S n) (Group n) true
      | String "\" EmptyString => None
      | String "\" (String c s' as e) =>
          match class_escape_of c with
          | Some k => quantify true (Class false [CEsc k]) s' n
          | None =>
              if Ascii.eqb c "b" then quantify false (WordBoundary false) s' n
              else if Ascii.eqb c "B" then quantify false (WordBoundary true) s' n
              else if is_digit c && negb (Ascii.eqb c "0") then
                let '(i, s1) := parse_digits e 0 in
                if Nat.leb i total then quantify true (Backref i) s1 n else None
              else match parse_char_escape e with
                   | Some (a, s1) => quantify true (Char a) s1 n
                   | None => None
                   end
          end
      | String "*" _ | String "+" _ | String "?" _ => None
      | String "{" s' =>
          match parse_braces s' with
          | Some _ => None
          | None => quantify true (Char "{") s' n
          end
      | String c s' => quantify true (Char c) s' n
      end
  end.

(** A compiled regular expression. *)
Record t : Type := mkRegExp {
  ast : Regex;
  ngroups : nat
}.

(** [new RegExp(source)]; [None] stands for the SyntaxError. *)
Definition compile (source : string) : option t :=
  match parse_disjunction (3 * String.length source + 4) (count_groups false source) source 1 with
  | Some (r, EmptyString, n) => Some (mkRegExp r (Nat.pred n))
  | _ => None
  end.

Definition exec (re : t) (s : string) : option MatchResult :=
  search (ast re) (ngroups re) EmptyString s.

(** [str.match(re)] is only consulted for its truthiness by the engine
    ([null] when nothing matches, with or without the [g] flag). *)
Definition test (re : t) (s : string) : bool :=
  match exec re s with
  | Some _ => true
  | None => false
  end.

Definition group (r : MatchResult) (i : nat) : option string :=
  match result_groups r !! i with
  | Some g => g
  | None => None
  end.

(** GetSubstitution: the replacement text for one match, with the dollar
    patterns of [String.prototype.replace] expanded. *)
Fixpoint substitution (ng : nat) (r : MatchResult) (template : string) : string :=
  let capture i lit :=
    if Nat.leb 1 i && Nat.leb i ng
    then match group r i with Some c => c | None => EmptyString end
    else lit in
  match template with
  | EmptyString => EmptyString
  | String "$" (String c rest as tail) =>
      if Ascii.eqb c "$" then String "$" (substitution ng r rest)
      else if Ascii.eqb c "&" then matched r +:+ substitution ng r rest
      else if Ascii.eqb c "`" then rev (prefix_rev r) +:+ substitution ng r rest
      else if Ascii.eqb c "'" then suffix r +:+ substitution ng r rest
      else if is_digit c then
        let d1 := N.to_nat (code c) - 48 in
        match rest with
        | String c2 rest2 =>
            let d2 := N.to_nat (code c2) - 48 in
            if is_digit c2 && Nat.leb (10 * d1 + d2) ng && Nat.leb 1 (10 * d1 + d2)
            then capture (10 * d1 + d2) EmptyString +:+ substitution ng r rest2
            else capture d1 (String "$" (String c EmptyString)) +:+ substitution ng r rest
        | EmptyString => capture d1 (String "$" (String c EmptyString))
        end
      else String "$" (substitution ng r tail)
  | String c rest => String c (substitution ng r rest)
  end.

(** [str.replace(re, replacement)] without the [g] flag: the first match. *)
Definition replace_first (re : t) (replacement s : string) : string :=
  match exec re s with
  | None => s
  | Some r => rev (prefix_rev r) +:+ substitution (ngroups re) r replacement +:+ suffix r
  end.

(** [str.replace(re, replacement)] with the [g] flag: every match, found
    from [lastIndex] on; after an empty match [lastIndex] moves one code
    unit further, which is carried over in [pending]. *)
Fixpoint replace_loop (fuel : nat) (re : t) (replacement : string)
    (bef aft pending : string) : string :=
  match fuel with
  | O => pending +:+ aft
  | S fuel' =>
      match search (ast re) (ngroups re) bef aft with
      | None => pending +:+ aft
      | Some r =>
          let skipped := take (String.length (prefix_rev r) - String.length bef) aft in
          let out := pending +:+ skipped +:+ substitution (ngroups re) r replacement in
          match matched r with
          | EmptyString =>
              match suffix r with
              | EmptyString => out
              | String c rest =>
                  out +:+ replace_loop fuel' re replacement
                            (String c (prefix_rev r)) rest (String c EmptyString)
              end
          | _ =>
              out +:+ replace_loop fuel' re replacement
                        (rev_append (matched r) (prefix_rev r)) (suffix r) EmptyString
          end
      end
  end.

Definition replace_all (re : t) (replacement s : string) : string :=
  replace_loop (S (String.length s)) re replacement EmptyString s EmptyString.

End RegExp.

(** ** JavaScript objects and numbers *)

Module JSObject.

Import JSString.

(** An object used as a dictionary: its own properties in the order
    [Object.entries] and [for ... in] visit them. *)
Definition t (V : Type) : Type := list (string * V).

Fixpoint all_digits (s : string) : bool :=
  match s with
  | EmptyString => true
  | String c s' => is_digit c && all_digits s'
  end.

(** The array index a property key denotes, if it is one (a canonical
    numeric string below 2^32 - 1); such keys are visited first, in
    ascending order. *)
Definition array_index (k : string) : option N :=
  match k with
  | EmptyString => None
  | String c rest =>
      if all_digits k && (negb (Ascii.eqb c "0") || String.eqb rest EmptyString)
      then let n := N.of_nat (fst (RegExp.parse_digits k 0)) in
           if (n <? 4294967295)%N then Some n else None
      else None
  end.

Fixpoint get {V} (k : string) (o : t V) : option V :=
  match o with
  | [] => None
  | (k', v) :: o' => if String.eqb k' k then Some v else get k o'
  end.

(** [k in o] *)
Definition has {V} (k : string) (o : t V) : bool :=
  match get k o with
  | Some _ => true
  | None => false
  end.

Fixpoint update {V} (k : string) (v : V) (o : t V) : t V :=
  match o with
  | [] => []
  | (k', v') :: o' =>
      if String.eqb k' k then (k', v) :: o' else (k', v') :: update k v o'
  end.

(** Where a new property goes: an array index before the first key that
    is no index or a larger one, any other key at the end. *)
Fixpoint insert_new {V} (k : string) (v : V) (o : t V) : t V :=
  match o with
  | [] => [(k, v)]
  | (k', v') :: o' =>
      match array_index k, array_index k' with
      | Some i, Some j =>
          if (i <? j)%N then (k, v) :: o else (k', v') :: insert_new k v o'
      | Some _, None => (k, v) :: o
      | None, _ => (k', v') :: insert_new k v o'
      end
  end.

(** [o[k] = v] *)
Definition set {V} (k : string) (v : V) (o : t V) : t V :=
  if has k o then update k v o else insert_new k v o.

(** [o[k] = v] by assignment: [__proto__] names the accessor that the
    object inherits, and assigning to it adds no property to the object. *)
Definition assign {V} (k : string) (v : V) (o : t V) : t V :=
  if String.eqb k "__proto__" then o else set k v o.

(** [{ ...o1, ...o2 }] *)
Definition spread {V} (o1 o2 : t V) : t V :=
  fold_left (fun acc kv => set (fst kv) (snd kv) acc) o2 (fold_left (fun acc kv => set (fst kv) (snd kv) acc) o1 []).

(** An object literal with the given properties in source order. *)
Definition literal {V} (props : list (string * V)) : t V :=
  fold_left (fun acc kv => set (fst kv) (snd kv) acc) props [].

End JSObject.

Module JSNumber.

Import JSString.

(** The numbers the counters take: integers, and NaN from [parseInt].
    The numbers of JavaScript are doubles; [Int z] stands for the double
    of the value [z], which is that value when [z] is a safe integer. *)
Inductive t : Type :=
| NaN
| Int (z : Z).

(** The integers that a double holds exactly, as it does their successor,
    their predecessor and their decimal notation: those below 2^53 in
    absolute value. *)
Definition safe_integer (z : Z) : Prop := (Z.abs z < 2 ^ 53)%Z.

Fixpoint digits_value (radix : N) (s : string) (acc : N) (seen : bool) : option N :=
  match s with
  | String c s' =>
      match RegExp.hex_value c with
      | Some d =>
          if (N.of_nat d <? radix)%N
          then digits_value radix s' (radix * acc + N.of_nat d)%N true
          else if seen then Some acc else None
      | None => if seen then Some acc else None
      end
  | EmptyString => if seen then Some acc else None
  end.

(** [parseInt(s)] without a radix. *)
Definition parseInt (s : string) : t :=
  let s1 := trimStart s in
  let '(negative, s2) :=
    match s1 with
    | String "-" s' => (true, s')
    | String "+" s' => (false, s')
    | _ => (false, s1)
    end in
  let '(radix, s3) :=
    match s2 with
    | String "0" (String "x" s') | String "0" (String "X" s') => (16%N, s')
    | _ => (10%N, s2)
    end in
  match digits_value radix s3 0 false with
  | Some n => Int (if negative then - Z.of_N n else Z.of_N n)
  | None => NaN
  end.

Definition add (a : t) (z : Z) : t :=
  match a with
  | NaN => NaN
  | Int x => Int (x + z)
  end.

Fixpoint digits_of (fuel : nat) (n : N) (acc : string) : string :=
  match fuel with
  | O => acc
  | S fuel' =>
      let acc' := String (ascii_of_N (48 + n mod 10)) acc in
      if (n <? 10)%N then acc' else digits_of fuel' (n / 10) acc'
  end.

(** [n.toString()] for NaN and for integers in decimal notation. *)
Definition toString (a : t) : string :=
  match a with
  | NaN => "NaN"
  | Int z =>
      let n := Z.abs_N z in
      let ds := digits_of (S (N.to_nat (N.log2 n))) n EmptyString in
      if (z <? 0)%Z then String "-" ds else ds
  end.

End JSNumber.

(** ** The world the engine runs in

    Durable storage, the random source and the effects on the outside that
    the modelled directives have.  [events] records the calls that leave
    the engine (and each call of a directive's [apply], with the context it
    is given), so that statements about what was run, and with what, can be
    made. *)

Definition Context : Type := JSObject.t string.

Record PersistentVariable : Type := mkVar {
  var_name : string;
  var_value : string;
  var_initialValue : string
}.

Inductive Event : Type :=
| Applied (name : string) (context : option Context)
| AddedFileToSelection (file : string)
| Executed (script shell : string)
| RanJSInActiveTab (script appName : string).

Record World : Type := mkWorld {
  localStorage : gmap string string;
  persistentVariables : list PersistentVariable;
  usedUUIDs : option (list string);
  drawn : nat;
  events : list Event
}.

(** ** Computations: state, exceptions and loops that may run on *)

Inductive Outcome (A : Type) : Type :=
| Returned (a : A) (w : World)
| Threw (error : string) (w : World)
| Diverged.

Arguments Returned {A} a w.
Arguments Threw {A} error w.
Arguments Diverged {A}.

Definition M (A : Type) : Type := World -> Outcome A.

Definition ret {A} (a : A) : M A := fun w => Returned a w.

Definition bind {A B} (c : M A) (f : A -> M B) : M B :=
  fun w =>
    match c w with
    | Returned a w' => f a w'
    | Threw e w' => Threw e w'
    | Diverged => Diverged
    end.

Definition throw {A} (e : string) : M A := fun w => Threw e w.

(** [try { body } catch (e) { handler }] *)
Definition try_catch {A} (body handler : M A) : M A :=
  fun w =>
    match body w with
    | Threw _ w' => handler w'
    | other => other
    end.

Definition get_world : M World := fun w => Returned w w.
Definition put_world (w : World) : M unit := fun _ => Returned tt w.
Definition emit (e : Event) : M unit :=
  fun w => Returned tt (mkWorld (localStorage w) (persistentVariables w) (usedUUIDs w)
                                (drawn w) (events w ++ [e])).

Declare Scope js_scope.
Delimit Scope js_scope with js.
Notation "'let*' x := c 'in' k" := (bind c (fun x => k))
  (at level 10, x name, c at level 100, k at level 200) : js_scope.
Notation "'run' c 'in' k" := (bind c (fun _ => k))
  (at level 10, c at level 100, k at level 200) : js_scope.
Local Open Scope js_scope.

(** [for (const x of xs) body], with the loop state passed along. *)
Fixpoint for_of {A S} (xs : list A) (body : A -> S -> M S) (s : S) : M S :=
  match xs with
  | [] => ret s
  | x :: xs' => let* s' := body x s in for_of xs' body s'
  end.

(** [while (cond) body]; the body says whether it ends in [break]. *)
Fixpoint while {S} (fuel : nat) (cond : S -> M bool) (body : S -> M (S * bool)) (s : S)
  : M S :=
  match fuel with
  | O => fun _ => Diverged
  | S fuel' =>
      let* b := cond s in
      if b then
        let* r := body s in
        if snd r then ret (fst r) else while fuel' cond body (fst r)
      else ret s
  end.

(** ** What the engine takes from its surroundings

    The settings and preferences, the lists of [../data/file-extensions],
    [filterString], and the services directives call: each answers with a
    value or throws ([None]). *)

Record CustomPlaceholder : Type := mkCustom {
  custom_name : string;
  custom_value : string
}.

Record Env : Type := mkEnv {
  processPlaceholders : bool;
  allowCustomPlaceholders : bool;
  useUserShellEnvironment : bool;
  usePlaceholderStatistics : bool;
  imageFileExtensions : list string;
  videoFileExtensions : list string;
  audioFileExtensions : list string;
  filterString : string -> string;
  randomUUID : nat -> string;
  execSync : string -> string -> option string;
  frontmostApplicationName : option string;
  runJSInActiveTab : string -> string -> option string;
  (** the parsed contents of the custom placeholder files, in the order
      they are read; [None] for a file that is not valid JSON *)
  customPlaceholderFiles : list (option (JSObject.t CustomPlaceholder))
}.

(** A service that answers or throws. *)
Definition call {A} (answer : option A) (error : string) : M A :=
  match answer with
  | Some a => ret a
  | None => throw error
  end.

(** [x || ""] for a string that may be undefined. *)
Definition or_empty (x : option string) : string :=
  match x with
  | Some s => s
  | None => EmptyString
  end.

(** [!x] for a string that may be undefined. *)
Definition falsy (x : option string) : bool :=
  match x with
  | Some (String _ _) => false
  | _ => true
  end.

(** A regular expression literal of the source. *)
Definition never : RegExp.t := RegExp.mkRegExp (RegExp.Class false []) 0.

Definition regex (source : string) : RegExp.t :=
  match RegExp.compile source with
  | Some re => re
  | None => never
  end.

(** [new RegExp(source)], which throws on a malformed pattern. *)
Definition new_RegExp (source : string) : M RegExp.t :=
  call (RegExp.compile source) "SyntaxError".

(** [str.match(re)?.[i]] for a regular expression without the [g] flag. *)
Definition match_group (re : RegExp.t) (str : string) (i : nat) : option string :=
  match RegExp.exec re str with
  | Some r => RegExp.group r i
  | None => None
  end.

Definition dq : string := String (ascii_of_nat 34) EmptyString.

(** ** Persistent variables and counters

    Modelled from the spec: [getStorage] and [setStorage] of
    [./storage-utils] (not part of the sources at hand), as the durable
    key/value collaborator of the specification: [getStorage] yields what
    [setStorage] last stored under the key, an empty list for the
    persistent variables when nothing was stored. *)

Module Store.

Definition getVariables : M (list PersistentVariable) :=
  fun w => Returned (persistentVariables w) w.

Definition setVariables (vars : list PersistentVariable) : M unit :=
  fun w => Returned tt (mkWorld (localStorage w) vars (usedUUIDs w) (drawn w) (events w)).

Definition getUsedUUIDs : M (option (list string)) :=
  fun w => Returned (usedUUIDs w) w.

Definition setUsedUUIDs (ids : list string) : M unit :=
  fun w => Returned tt (mkWorld (localStorage w) (persistentVariables w) (Some ids)
                                (drawn w) (events w)).

(** [LocalStorage.getItem] and [LocalStorage.setItem] of the Raycast API. *)
Definition getItem (key : string) : M (option string) :=
  fun w => Returned (localStorage w !! key) w.

Definition setItem (key value : string) : M unit :=
  fun w => Returned tt (mkWorld (<[key := value]> (localStorage w)) (persistentVariables w)
                                (usedUUIDs w) (drawn w) (events w)).

Definition named (name : string) (v : PersistentVariable) : bool :=
  String.eqb (var_name v) name.

(** [vars.splice(vars.indexOf(variable), 1)] for the variable that
    [vars.find] returned: the first one of that name goes. *)
Fixpoint remove_first (name : string) (vars : list PersistentVariable)
  : list PersistentVariable :=
  match vars with
  | [] => []
  | v :: vars' => if named name v then vars' else v :: remove_first name vars'
  end.

Definition getPersistentVariable (name : string) : M string :=
  let* vars := getVariables in
  match find (named name) vars with
  | Some variable => ret (var_value variable)
  | None => ret EmptyString
  end.

Definition setPersistentVariable (name value : string) : M unit :=
  let* vars := getVariables in
  match find (named name) vars with
  | Some variable =>
      setVariables (remove_first name vars
                    ++ [mkVar (var_name variable) value (var_initialValue variable)])
  | None => setVariables (vars ++ [mkVar name value value])
  end.

Definition resetPersistentVariable (name : string) : M string :=
  let* vars := getVariables in
  match find (named name) vars with
  | Some variable =>
      run setVariables (remove_first name vars
                        ++ [mkVar (var_name variable) (var_initialValue variable)
                                  (var_initialValue variable)]) in
      ret (var_initialValue variable)
  | None => ret EmptyString
  end.

Definition deletePersistentVariable (name : string) : M unit :=
  let* vars := getVariables in
  match find (named name) vars with
  | Some _ => setVariables (remove_first name vars)
  | None => ret tt
  end.

End Store.

(** ** Directive descriptors

    The fields the engine reads; [fn], [example], [description] and
    [hintRepresentation] play no part in expansion.  [apply] is given the
    text under expansion and the context, which is absent when a directive
    is applied from outside the engine. *)

Record Placeholder : Type := mkPlaceholder {
  name : string;
  aliases : option (list string);
  result_keys : option (list string);
  dependencies : option (list string);
  constant : bool;
  apply : string -> option Context -> M (JSObject.t string)
}.

Definition PlaceholderList : Type := JSObject.t Placeholder.

(** [context[key]] where the context may be absent. *)
Definition lookup (context : option Context) (key : string) : option string :=
  match context with
  | Some c => JSObject.get key c
  | None => None
  end.

(** [context && key in context] *)
Definition present (context : option Context) (key : string) : bool :=
  match context with
  | Some c => JSObject.has key c
  | None => false
  end.

(** ** The directive table

    The directives of [placeholders] that this development covers, each
    under its key and in the order of the table.  The collaborators and
    the bound on the iterations of a loop are those of the enclosing
    section. *)

Section Directives.

Variable env : Env.
Variable fuel : nat.

Definition obj (props : list (string * string)) : JSObject.t string :=
  JSObject.literal props.

(** The two branches of a flow-control directive, after its name. *)
Definition branches : string :=
  ":(([^{]|{(?!{)|{{[\s\S]*?}})*?)(:(([^{]|{(?!{)|{{[\s\S]*?}})*?))?}}".

(** [{{reset [a-zA-Z0-9_]+}}] *)
Definition reset : Placeholder := {|
  name := "reset";
  aliases := None;
  result_keys := None;
  dependencies := None;
  constant := false;
  apply := fun str context =>
    match RegExp.exec (regex "{{reset ([a-zA-Z0-9_]+)}}") str with
    | Some matches =>
        let key := or_empty (RegExp.group matches 1) in
        let* initialValue := Store.resetPersistentVariable key in
        run Store.setPersistentVariable key initialValue in
        ret (obj [("result", "")])
    | None => ret (obj [("result", "")])
    end
|}.

(** [{{get [a-zA-Z0-9_]+}}] *)
Definition get : Placeholder := {|
  name := "get";
  aliases := None;
  result_keys := None;
  dependencies := None;
  constant := false;
  apply := fun str context =>
    match RegExp.exec (regex "{{get ([a-zA-Z0-9_]+)}}") str with
    | Some matches =>
        let key := or_empty (RegExp.group matches 1) in
        let* value := Store.getPersistentVariable key in
        ret (obj [("result", value)])
    | None => ret (obj [("result", "")])
    end
|}.

(** [{{delete [a-zA-Z0-9_]+}}] *)
Definition delete : Placeholder := {|
  name := "delete";
  aliases := None;
  result_keys := None;
  dependencies := None;
  constant := false;
  apply := fun str context =>
    match RegExp.exec (regex "{{delete ([a-zA-Z0-9_]+)}}") str with
    | Some matches =>
        let key := or_empty (RegExp.group matches 1) in
        run Store.deletePersistentVariable key in
        ret (obj [("result", "")])
    | None => ret (obj [("result", "")])
    end
|}.

(** [{{vars}}] *)
Definition vars : Placeholder := {|
  name := "vars";
  aliases := None;
  result_keys := Some ["vars"];
  dependencies := None;
  constant := true;
  apply := fun str context =>
    let* vars := Store.getVariables in
    let varNames := JSString.join ", " (map var_name vars) in
    ret (obj [("result", varNames); ("vars", varNames)])
|}.

(** [{{selectedFiles}}] *)
Definition selectedFiles : Placeholder := {|
  name := "selectedFiles";
  aliases := Some ["{{selectedFile}}"; "{{files}}"];
  result_keys := Some ["selectedFiles"];
  dependencies := None;
  constant := true;
  apply := fun str context =>
    if negb (present context "selectedFiles")
    then ret (obj [("result", ""); ("selectedFiles", "")])
    else
      let files := or_empty (lookup context "selectedFiles") in
      ret (obj [("result", files); ("selectedFiles", files)])
|}.

Definition getFrontmostApplicationName : M string :=
  call (frontmostApplicationName env) "getFrontmostApplication".

(** [{{currentAppName}}] *)
Definition currentAppName : Placeholder := {|
  name := "currentAppName";
  aliases := Some ["{{currentApp}}"; "{{currentApplication}}"; "{{currentApplicationName}}"];
  result_keys := Some ["currentAppName"];
  dependencies := None;
  constant := true;
  apply := fun str context =>
    try_catch
      (let* app := getFrontmostApplicationName in
       ret (obj [("result", app); ("currentAppName", app)]))
      (ret (obj [("result", ""); ("currentAppName", "")]))
|}.

(** [crypto.randomUUID()] *)
Definition draw : M string :=
  fun w => Returned (randomUUID env (drawn w))
                    (mkWorld (localStorage w) (persistentVariables w) (usedUUIDs w)
                             (S (drawn w)) (events w)).

Definition includes (x : string) (xs : list string) : bool :=
  existsb (String.eqb x) xs.

(** [{{uuid}}] *)
Definition uuid : Placeholder := {|
  name := "uuid";
  aliases := Some ["{{UUID}}"];
  result_keys := None;
  dependencies := None;
  constant := false;
  apply := fun str context =>
    let* first := draw in
    let* used := Store.getUsedUUIDs in
    let* newUUID :=
      match used with
      | Some ids =>
          let* fresh := while fuel (fun id => ret (includes id ids))
                              (fun _ => let* id := draw in ret (id, false)) first in
          run Store.setUsedUUIDs (ids ++ [fresh]) in
          ret fresh
      | None =>
          run Store.setUsedUUIDs [first] in
          ret first
      end in
    ret (obj [("result", newUUID); ("uuid", newUUID)])
|}.

(** [files.some((file) => file.toLowerCase().endsWith(ext))] over the
    comma-separated paths. *)
Definition some_file_ends_with (selected : string) (exts : list string) : bool :=
  existsb (fun file => existsb (fun ext => JSString.endsWith (JSString.toLowerCase file) ext) exts)
          (JSString.split "," selected).

(** The body shared by the flow-control directives: [pattern] is the
    source of the expression that picks the branches, [early] and [late]
    the names of the field returned besides [result] when there is no
    selection and when there is one. *)
Definition flow_control (pattern early late : string) (exts : list string)
    (str : string) (context : option Context) : M (JSObject.t string) :=
  match context with
  | None => ret (obj [("result", ""); (early, "")])
  | Some _ =>
      if falsy (lookup context "selectedFiles") then ret (obj [("result", ""); (early, "")])
      else
        let* re := new_RegExp pattern in
        let onSuccess := or_empty (match_group re str 1) in
        let onFailure := or_empty (match_group re str 4) in
        if negb (some_file_ends_with (or_empty (lookup context "selectedFiles")) exts)
        then ret (obj [("result", onFailure); (late, onFailure)])
        else ret (obj [("result", onSuccess); (late, onSuccess)])
  end.

Definition flow (name : string) (keys : list string) (pattern early late : string)
    (exts : list string) : Placeholder := {|
  name := name;
  aliases := None;
  result_keys := Some keys;
  dependencies := None;
  constant := true;
  apply := flow_control pattern early late exts
|}.

(** The directives made from [imageFileExtensions], [videoFileExtensions]
    and [audioFileExtensions], one per extension. *)
Definition ext_key (ext : string) : string := "{{" +:+ ext +:+ branches.

Definition image_ext (ext : string) : string * Placeholder :=
  (ext_key ext,
   flow ("image:" +:+ ext) ["image:" +:+ ext] (ext_key ext)
        ("image:" +:+ ext) ("image:" +:+ ext) [ext]).

Definition video_ext (ext : string) : string * Placeholder :=
  (ext_key ext,
   flow ("video:" +:+ ext) ["video:" +:+ ext] (ext_key ext)
        ("video:" +:+ ext) ("image:" +:+ ext) [ext]).

Definition audio_ext (ext : string) : string * Placeholder :=
  (ext_key ext,
   flow ("audio:" +:+ ext) ["audio:" +:+ ext] (ext_key ext)
        ("audio:" +:+ ext) ("image:" +:+ ext) [ext]).

(** [{{images:...}}], [{{videos:...}}], [{{audio:...}}] and [{{(pdf|PDF):...}}] *)
Definition contentForImages : Placeholder :=
  flow "contentForImages" ["contentForImages"] ("{{images" +:+ branches)
       "contentForImages" "contentForImages" (imageFileExtensions env).

Definition contentForVideos : Placeholder :=
  flow "contentForVideos" ["contentForVideos"] ("{{videos" +:+ branches)
       "contentForVideos" "contentForVideos" (videoFileExtensions env).

Definition contentForAudio : Placeholder :=
  flow "contentForAudio" ["contentForAudio"] ("{{audio" +:+ branches)
       "contentForAudio" "contentForAudio" (audioFileExtensions env).

Definition contentForPDFs : Placeholder :=
  flow "contentForPDFs" ["contentForPDFs"] ("{{pdf" +:+ branches)
       "image:pdf" "image:pdf" ["pdf"].

(** The counters: [increment] and [decrement] share their body but for
    the name looked for. *)
Definition counter (directive : string) (str : string) : M (JSObject.t string) :=
  let name := match_group (regex ("(?<=(" +:+ directive +:+ ":))[\s\S]*?(?=}})")) str 0 in
  let identifier :=
    "id-" +:+ match name with Some n => n | None => "undefined" end in
  let* item := Store.getItem identifier in
  let value :=
    JSNumber.add (JSNumber.parseInt (if falsy item then "0" else or_empty item)) 1 in
  run Store.setItem identifier (JSNumber.toString value) in
  ret (obj [("result", JSNumber.toString value)]).

(** [{{increment:[\s\S]*?}}] *)
Definition increment : Placeholder := {|
  name := "increment";
  aliases := None;
  result_keys := None;
  dependencies := None;
  constant := false;
  apply := fun str context => counter "increment" str
|}.

(** [{{decrement:[\s\S]*?}}] *)
Definition decrement : Placeholder := {|
  name := "decrement";
  aliases := None;
  result_keys := None;
  dependencies := None;
  constant := false;
  apply := fun str context => counter "decrement" str
|}.

(** The focused-element directive, with its optional browser argument *)
Definition focusedElement_key : string :=
  "{{focusedElement( browser=" +:+ dq +:+ "(.*?)" +:+ dq +:+ ")?}}".

Definition element_alias (name : string) : string :=
  "{{" +:+ name +:+ "( browser=" +:+ dq +:+ "(.*?)" +:+ dq +:+ ")?}}".

Definition focusedElement : Placeholder := {|
  name := "focusedElement";
  aliases := Some (map element_alias
                     ["activeElement"; "selectedElement"; "focusedElementText";
                      "activeElementText"; "selectedElementText"]);
  result_keys := None;
  dependencies := Some ["currentAppName"];
  constant := false;
  apply := fun str context =>
    try_catch
      (let browser :=
         match_group (regex ("(focusedElement|activeElement|selectedElement)( browser="
                             +:+ dq +:+ ")(.*?)(" +:+ dq +:+ ")?")) str 3 in
       let* appName :=
         if negb (falsy browser) then ret (or_empty browser)
         else if negb (falsy (lookup context "currentAppName"))
              then ret (or_empty (lookup context "currentAppName"))
              else getFrontmostApplicationName in
       let js := "document.activeElement.innerText" in
       run emit (RanJSInActiveTab js appName) in
       let* elementText := call (runJSInActiveTab env js appName) "runJSInActiveTab" in
       ret (obj [("result", elementText)]))
      (ret (obj [("result", "")]))
|}.

(** [{{selectFile:[\s\S]*?}}] *)
Definition selectFile : Placeholder := {|
  name := "selectFile";
  aliases := None;
  result_keys := None;
  dependencies := None;
  constant := false;
  apply := fun str context =>
    let file := match_group (regex "(?<=(selectFiles:))[\s\S]*?(?=}})") str 0 in
    if falsy file then ret (obj [("result", "")])
    else
      run emit (AddedFileToSelection (or_empty file)) in
      ret (obj [("result", "")])
|}.

(** The shell directive, [{{shell ...:...}}]: the shell it names, or
    [/bin/zsh], and the script handed to [execSync]. *)
Definition shell_bin (str : string) : string :=
  match match_group (regex "(?<=shell)( .*)?(?=:(.|[ \n\r\s])*?}})") str 0 with
  | Some b => if falsy (Some (JSString.trim b)) then "/bin/zsh" else JSString.trim b
  | None => "/bin/zsh"
  end.

Definition shell_script (str : string) : string :=
  let bin := shell_bin str in
  let pathScript :=
    if useUserShellEnvironment env
    then "export PATH=$(" +:+ bin +:+ " -ilc " +:+ dq +:+ "echo -n \$PATH" +:+ dq +:+ ") &&"
    else "" in
  pathScript +:+
  match match_group (regex "(?<=shell( .*)?:)(.|[ \n\r\s])*?(?=}})") str 0 with
  | Some body => body
  | None => "undefined"
  end.

Definition shell : Placeholder := {|
  name := "shell";
  aliases := None;
  result_keys := None;
  dependencies := None;
  constant := false;
  apply := fun str context =>
    try_catch
      (let bin := shell_bin str in
       let script := shell_script str in
       if falsy (Some script) then ret (obj [("result", ""); ("shell", "")])
       else
         run emit (Executed script bin) in
         let* out := call (execSync env script bin) "execSync" in
         let res := filterString env out in
         ret (obj [("result", res); ("shell", res)]))
      (ret (obj [("result", ""); ("shell", "")]))
|}.

(** [{{set [a-zA-Z0-9_]+:[\s\S]*?}}] *)
Definition setPersistentVariable : Placeholder := {|
  name := "setPersistentVariable";
  aliases := None;
  result_keys := None;
  dependencies := None;
  constant := false;
  apply := fun str context =>
    match RegExp.exec (regex "{{set ([a-zA-Z0-9_]+):([\s\S]*?)}}") str with
    | Some matches =>
        let key := or_empty (RegExp.group matches 1) in
        let value := or_empty (RegExp.group matches 2) in
        run Store.setPersistentVariable key value in
        ret (obj [("result", "")])
    | None => ret (obj [("result", "")])
    end
|}.

Definition placeholders : PlaceholderList :=
  JSObject.literal
    ([ ("{{reset [a-zA-Z0-9_]+}}", reset);
       ("{{get [a-zA-Z0-9_]+}}", get);
       ("{{delete [a-zA-Z0-9_]+}}", delete);
       ("{{vars}}", vars);
       ("{{selectedFiles}}", selectedFiles);
       ("{{currentAppName}}", currentAppName);
       ("{{uuid}}", uuid) ]
     ++ map image_ext (imageFileExtensions env)
     ++ [ ("{{images" +:+ branches, contentForImages) ]
     ++ map video_ext (videoFileExtensions env)
     ++ [ ("{{videos" +:+ branches, contentForVideos) ]
     ++ map audio_ext (audioFileExtensions env)
     ++ [ ("{{audio" +:+ branches, contentForAudio);
          ("{{(pdf|PDF)" +:+ branches, contentForPDFs);
          ("{{increment:[\s\S]*?}}", increment);
          ("{{decrement:[\s\S]*?}}", decrement);
          (focusedElement_key, focusedElement);
          ("{{selectFile:[\s\S]*?}}", selectFile);
          ("{{shell( .*)?:(.|[ \n\r\s])*?}}", shell);
          ("{{set [a-zA-Z0-9_]+:[\s\S]*?}}", setPersistentVariable) ]).

End Directives.

(** ** Custom placeholders *)

Section Custom.

(** [s.replaceAll(pattern, replacement)] for a pattern given as a string;
    the replacement is expanded as by [replace], without captures. *)
Fixpoint replaceAll_loop (fuel : nat) (pattern replacement bef aft : string) : string :=
  match fuel with
  | O => aft
  | S fuel' =>
      if JSString.startsWith pattern aft then
        let rest := JSString.drop (String.length pattern) aft in
        let r := RegExp.mkResult bef pattern rest [Some pattern] in
        let out := RegExp.substitution 0 r replacement in
        match pattern, aft with
        | EmptyString, String c aft' =>
            out +:+ String c (replaceAll_loop fuel' pattern replacement (String c bef) aft')
        | EmptyString, EmptyString => out
        | _, _ =>
            out +:+ replaceAll_loop fuel' pattern replacement
                      (JSString.rev_append pattern bef) rest
        end
      else
        match aft with
        | String c aft' => String c (replaceAll_loop fuel' pattern replacement (String c bef) aft')
        | EmptyString => EmptyString
        end
  end.

Definition replaceAll (pattern replacement s : string) : string :=
  replaceAll_loop (S (String.length s)) pattern replacement EmptyString s.

(** [(match || []).forEach((m, index) => value = value.replaceAll(...))] *)
Fixpoint fill_groups (groups : list (option string)) (index : nat) (value : string) : string :=
  match groups with
  | [] => value
  | m :: groups' =>
      let text :=
        match m with
        | Some g => replaceAll "\" "\\" g
        | None => EmptyString
        end in
      fill_groups groups' (S index)
        (replaceAll ("$" +:+ JSNumber.toString (JSNumber.Int (Z.of_nat index))) text value)
  end.

(** The directive made of one entry of a custom placeholder file. *)
Definition custom (key : string) (placeholder : CustomPlaceholder) : Placeholder := {|
  name := custom_name placeholder;
  aliases := None;
  result_keys := Some [custom_name placeholder];
  dependencies := None;
  constant := true;
  apply := fun str context =>
    let* re := new_RegExp key in
    let groups :=
      match RegExp.exec re str with
      | Some r => RegExp.result_groups r
      | None => []
      end in
    let value := fill_groups groups 0 (custom_value placeholder) in
    ret (JSObject.assign (custom_name placeholder) value (JSObject.literal [("result", value)]))
|}.

(** The entries of one file whose keys compile, each assigned to its
    key. *)
Definition newPlaceholders (data : JSObject.t CustomPlaceholder) : PlaceholderList :=
  fold_left
    (fun acc kp =>
       match RegExp.compile (fst kp) with
       | Some _ => JSObject.assign (fst kp) (custom (fst kp) (snd kp)) acc
       | None => acc
       end)
    data [].

Definition loadCustomPlaceholders (env : Env) : PlaceholderList :=
  fold_left
    (fun acc file =>
       match file with
       | Some data => JSObject.spread acc (newPlaceholders data)
       | None => acc
       end)
    (customPlaceholderFiles env) [].

End Custom.

(** ** The expansion engine *)

Section Engine.

Variable env : Env.
(** the table of built-in directives *)
Variable placeholders : PlaceholderList.
Variable fuel : nat.

(** What [bulkApply] appends to a key before replacing its matches. *)
Definition lookahead : string := "(?=(}}|[\s\S]|$))".

(** The usage counter of a directive, kept as a persistent variable. *)
Definition count_use (name : string) : M unit :=
  if usePlaceholderStatistics env then
    let* currentCountString := Store.getPersistentVariable (name +:+ "_count") in
    let currentCount :=
      match currentCountString with
      | EmptyString => JSNumber.Int 0
      | _ => JSNumber.parseInt currentCountString
      end in
    Store.setPersistentVariable (name +:+ "_count")
      (JSNumber.toString (JSNumber.add currentCount 1))
  else ret tt.

Definition named (n : string) (entry : string * Placeholder) : bool :=
  String.eqb (name (snd entry)) n.

(** The substitutions that are already in the context. *)
Definition seed (allPlaceholders : PlaceholderList) (entry : string * string)
    (subbedStr : string) : M string :=
  let '(contextKey, value) := entry in
  match find (named contextKey) allPlaceholders with
  | Some keyHolder =>
      if negb (String.eqb contextKey "input" && String.eqb value "") then
        let* re := new_RegExp (fst keyHolder +:+ lookahead) in
        if RegExp.test re subbedStr then
          run count_use contextKey in
          ret (RegExp.replace_all re value subbedStr)
        else ret subbedStr
      else ret subbedStr
  | None => ret subbedStr
  end.

(** [xs.filter((x) => subbedStr.match(new RegExp(x, "g")))] *)
Fixpoint matching (xs : list string) (subbedStr : string) : M (list string) :=
  match xs with
  | [] => ret []
  | x :: xs' =>
      let* re := new_RegExp x in
      let* rest := matching xs' subbedStr in
      ret (if RegExp.test re subbedStr then x :: rest else rest)
  end.

(** The keys of the directives named as dependencies. *)
Definition dependency_keys (allPlaceholders : PlaceholderList) (names : option (list string))
  : list string :=
  match names with
  | Some ns =>
      fold_left
        (fun acc dependencyName =>
           match find (named dependencyName) allPlaceholders with
           | Some dependency => (acc ++ [fst dependency])%list
           | None => acc
           end)
        ns []
  | None => []
  end.

(** The result keys that are not in the context yet. *)
Definition missing_keys (result : Context) (keys : option (list string))
  : option (list string) :=
  match keys with
  | Some ks =>
      Some (List.filter
              (fun key =>
                 negb (JSObject.has key result)
                 || (String.eqb (or_empty (JSObject.get key result)) "" && String.eqb key "input"))
              ks)
  | None => None
  end.

(** [result_keys.splice(result_keys.indexOf(key), 1)] *)
Fixpoint splice_out (key : string) (keys : list string) : list string :=
  match keys with
  | [] => []
  | k :: keys' => if String.eqb k key then keys' else k :: splice_out key keys'
  end.

(** The state of the loops: the text, the context, and the result keys
    still missing for the directive at hand. *)
Definition LoopState : Type := string * Context * option (list string).

(** [for (const [key, value] of Object.entries(intermediateResult))] *)
Definition merge (intermediateResult : JSObject.t string) (result : Context)
    (result_keys : option (list string)) : Context * option (list string) :=
  fold_left
    (fun acc kv =>
       (JSObject.set (fst kv) (snd kv) (fst acc),
        match snd acc with
        | Some ks => Some (splice_out (fst kv) ks)
        | None => None
        end))
    intermediateResult (result, result_keys).

(** One turn of the inner loop: apply the directive and substitute. *)
Definition substitute (placeholder : Placeholder) (newKey : string) (st : LoopState)
  : M (LoopState * bool) :=
  let '(subbedStr, result, result_keys) := st in
  run emit (Applied (name placeholder) (Some result)) in
  let* intermediateResult := apply placeholder subbedStr (Some result) in
  run count_use (name placeholder) in
  let* re := new_RegExp (newKey +:+ lookahead) in
  let replacement :=
    match JSObject.get "result" intermediateResult with
    | Some r => r
    | None => "undefined"
    end in
  let subbedStr' :=
    if constant placeholder
    then RegExp.replace_all re replacement subbedStr
    else RegExp.replace_first re replacement subbedStr in
  let '(result', result_keys') := merge intermediateResult result result_keys in
  ret (subbedStr', result', result_keys', constant placeholder).

Definition still_matches (newKey : string) (st : LoopState) : M bool :=
  let* re := new_RegExp newKey in
  ret (RegExp.test re (fst (fst st))).

(** The body of the loop over the table. *)
Definition expand (allPlaceholders : PlaceholderList) (entry : string * Placeholder)
    (st : string * Context) : M (string * Context) :=
  let '(key, placeholder) := entry in
  let '(subbedStr, result) := st in
  let* aliasesToCheck :=
    matching (match aliases placeholder with Some a => a | None => [] end) subbedStr in
  let* re := new_RegExp key in
  let keysToCheck :=
    if RegExp.test re subbedStr then (aliasesToCheck ++ [key])%list else aliasesToCheck in
  match keysToCheck with
  | [] => ret st
  | _ =>
      let result_keys := missing_keys result (result_keys placeholder) in
      match result_keys with
      | Some [] => ret st
      | _ =>
          let keysToCheck :=
            (keysToCheck ++ dependency_keys allPlaceholders (dependencies placeholder))%list in
          let* final :=
            for_of keysToCheck
              (fun newKey => while fuel (still_matches newKey) (substitute placeholder newKey))
              (subbedStr, result, result_keys) in
          ret (fst final)
      end
  end.

(** [{ ...customPlaceholders, ...placeholders }] *)
Definition sortedPlaceholders : PlaceholderList :=
  let customPlaceholders :=
    if allowCustomPlaceholders env then loadCustomPlaceholders env else [] in
  JSObject.spread customPlaceholders placeholders.

Definition bulkApply (str : string) (context : option Context) : M string :=
  if negb (processPlaceholders env) then ret str
  else
    let allPlaceholders := sortedPlaceholders in
    let result : Context :=
      JSObject.spread (match context with Some c => c | None => [] end) [] in
    let* subbedStr :=
      match context with
      | Some _ => for_of result (seed allPlaceholders) str
      | None => ret str
      end in
    let* final := for_of allPlaceholders (expand allPlaceholders) (subbedStr, result) in
    ret (fst final).

End Engine.

(** * Properties *)

Arguments RegExp.compile : simpl never.
Arguments RegExp.exec : simpl never.
Arguments RegExp.test : simpl never.
Arguments RegExp.search : simpl never.
Arguments RegExp.replace_first : simpl never.
Arguments RegExp.replace_all : simpl never.
Arguments regex : simpl never.
Arguments String.append : simpl nomatch.

(** ** Objects *)

Module JSObjectFacts.

Import JSObject.

Section Facts.

Context {V : Type}.
Implicit Types (o : JSObject.t V) (k : string) (v : V).

Lemma get_update k k' v o :
  has k' o = true ->
  get k (update k' v o) = if String.eqb k' k then Some v else get k o.
Proof.
  unfold has. induction o as [|[k0 v0] o IH]; simpl; [discriminate|].
  destruct (String.eqb_spec k0 k') as [->|Hne]; simpl.
  - intros _. destruct (String.eqb_spec k' k); reflexivity.
  - intros H. rewrite (IH H).
    destruct (String.eqb_spec k0 k) as [->|]; [|reflexivity].
    destruct (String.eqb_spec k' k) as [->|]; [contradiction|reflexivity].
Qed.

Lemma get_insert_new k k' v o :
  has k' o = false ->
  get k (insert_new k' v o) = if String.eqb k' k then Some v else get k o.
Proof.
  unfold has. induction o as [|[k0 v0] o IH]; simpl.
  - intros _. reflexivity.
  - destruct (String.eqb_spec k0 k') as [->|Hne]; [discriminate|].
    intros H. specialize (IH H).
    assert (Hhead : get k ((k', v) :: (k0, v0) :: o)
                    = if String.eqb k' k then Some v else get k ((k0, v0) :: o))
      by reflexivity.
    assert (Htail : get k ((k0, v0) :: insert_new k' v o)
                    = if String.eqb k' k then Some v else get k ((k0, v0) :: o)).
    { simpl. rewrite IH.
      destruct (String.eqb_spec k0 k) as [->|]; [|reflexivity].
      destruct (String.eqb_spec k' k) as [->|]; [contradiction|reflexivity]. }
    destruct (array_index k'), (array_index k0); try assumption.
    destruct (_ <? _)%N; assumption.
Qed.

Lemma get_set k k' v o :
  get k (set k' v o) = if String.eqb k' k then Some v else get k o.
Proof.
  unfold set. destruct (has k' o) eqn:H.
  - apply get_update, H.
  - apply get_insert_new, H.
Qed.

(** The value last given to [k] by a list of assignments. *)
Fixpoint assigned k (props : list (string * V)) : option V :=
  match props with
  | [] => None
  | kv :: props' =>
      match assigned k props' with
      | Some v => Some v
      | None => if String.eqb (fst kv) k then Some (snd kv) else None
      end
  end.

Lemma get_assign k props o :
  get k (fold_left (fun acc kv => set (fst kv) (snd kv) acc) props o)
  = match assigned k props with
    | Some v => Some v
    | None => get k o
    end.
Proof.
  revert o. induction props as [|kv props IH]; intros o; simpl; [reflexivity|].
  rewrite IH, get_set. destruct (assigned k props); [reflexivity|].
  destruct (String.eqb (fst kv) k); reflexivity.
Qed.

Lemma get_literal k props : get k (literal props) = assigned k props.
Proof. unfold literal. rewrite get_assign. destruct (assigned k props); reflexivity. Qed.

Lemma get_spread k o1 o2 :
  get k (spread o1 o2)
  = match assigned k o2 with
    | Some v => Some v
    | None => assigned k o1
    end.
Proof.
  unfold spread. rewrite !get_assign. simpl.
  destruct (assigned k o2); [reflexivity|]. destruct (assigned k o1); reflexivity.
Qed.

(** Objects have each key once. *)
Definition wf o : Prop := NoDup (map fst o).

Lemma has_false_not_in k o : has k o = false -> ~ In k (map fst o).
Proof.
  unfold has. induction o as [|[k0 v0] o IH]; simpl; [tauto|].
  destruct (String.eqb_spec k0 k) as [->|Hne]; [discriminate|].
  intros H [Heq|Hin]; [contradiction|]. exact (IH H Hin).
Qed.

Lemma keys_update k v o : map fst (update k v o) = map fst o.
Proof.
  induction o as [|[k0 v0] o IH]; simpl; [reflexivity|].
  destruct (String.eqb k0 k); simpl; [reflexivity|]. now rewrite IH.
Qed.

Lemma keys_insert_new k v o : Permutation (map fst (insert_new k v o)) (k :: map fst o).
Proof.
  induction o as [|[k0 v0] o IH]; simpl; [reflexivity|].
  assert (Htail : Permutation (k0 :: map fst (insert_new k v o)) (k :: k0 :: map fst o)).
  { rewrite IH. apply perm_swap. }
  destruct (array_index k), (array_index k0); simpl; try exact Htail; try reflexivity.
  destruct (_ <? _)%N; simpl; [reflexivity|exact Htail].
Qed.

Lemma wf_set k v o : wf o -> wf (set k v o).
Proof.
  unfold wf, set. intros Hwf. destruct (has k o) eqn:H.
  - now rewrite keys_update.
  - rewrite keys_insert_new. apply NoDup_cons. split; [|exact Hwf].
    intros Hin. apply (has_false_not_in _ _ H).
    apply list_elem_of_In. exact Hin.
Qed.

Lemma wf_assign props o :
  wf o -> wf (fold_left (fun acc kv => set (fst kv) (snd kv) acc) props o).
Proof.
  revert o. induction props as [|kv props IH]; intros o Hwf; simpl; [exact Hwf|].
  apply IH, wf_set, Hwf.
Qed.

Lemma wf_literal props : wf (literal props).
Proof. apply wf_assign. constructor. Qed.

Lemma assigned_not_in k o : ~ In k (map fst o) -> assigned k o = None.
Proof.
  induction o as [|[k0 v0] o IH]; simpl; [reflexivity|].
  intros H. rewrite IH by tauto.
  destruct (String.eqb_spec k0 k) as [->|]; [tauto|reflexivity].
Qed.

Lemma assigned_wf k o : wf o -> assigned k o = get k o.
Proof.
  unfold wf. induction o as [|[k0 v0] o IH]; simpl; [reflexivity|].
  intros Hwf. apply NoDup_cons in Hwf as [Hnotin Hwf].
  destruct (String.eqb_spec k0 k) as [->|Hne].
  - rewrite assigned_not_in; [reflexivity|].
    intros Hin. apply Hnotin, list_elem_of_In, Hin.
  - rewrite (IH Hwf). destruct (get k o); reflexivity.
Qed.

End Facts.

End JSObjectFacts.

(** ** C1: a custom placeholder under the key of a built-in one *)

Definition env_vars : Env := {|
  processPlaceholders := true;
  allowCustomPlaceholders := true;
  useUserShellEnvironment := true;
  usePlaceholderStatistics := false;
  imageFileExtensions := ["png"; "jpg"];
  videoFileExtensions := ["mp4"; "mov"];
  audioFileExtensions := ["mp3"; "wav"];
  filterString := fun s => s;
  randomUUID := fun n => JSNumber.toString (JSNumber.Int (Z.of_nat (n / 2)));
  execSync := fun _ _ => None;
  frontmostApplicationName := Some "Safari";
  runJSInActiveTab := fun _ _ => Some "text";
  customPlaceholderFiles := [Some [("{{vars}}", mkCustom "vars" "CUSTOM")]]
|}.

Definition world_a : World := mkWorld ∅ [mkVar "a" "1" "0"] None 0 [].

Definition returns {A} (o : Outcome A) (a : A) : Prop :=
  exists w, o = Returned a w.

(** C1, as stated, fails: with a custom placeholder loaded under the key
    [{{vars}}] of a built-in directive, the custom entry on its own yields
    [CUSTOM] for the template [{{vars}}], but expanding the template
    substitutes the built-in's output, the names of the variables. *)
Lemma C1_custom_does_not_win :
  JSObject.has "{{vars}}" (loadCustomPlaceholders env_vars) = true /\
  JSObject.has "{{vars}}" (placeholders env_vars 1) = true /\
  returns (apply (custom "{{vars}}" (mkCustom "vars" "CUSTOM")) "{{vars}}" None world_a)
          [("result", "CUSTOM"); ("vars", "CUSTOM")] /\
  returns (bulkApply env_vars (placeholders env_vars 1) 1 "{{vars}}" None world_a) "a".
Proof.
  repeat split; try (vm_compute; reflexivity); eexists; vm_compute; reflexivity.
Qed.

(** C1, amended: when a key of the built-in table is also the key of a
    custom placeholder, the table [bulkApply] expands with holds the
    built-in descriptor under that key; the custom one is dropped. *)
Theorem C1_builtin_wins_on_identical_keys (env : Env) (builtins : PlaceholderList) (key : string) :
  JSObject.has key (JSObject.literal builtins) = true ->
  JSObject.get key (sortedPlaceholders env (JSObject.literal builtins))
  = JSObject.get key (JSObject.literal builtins).
Proof.
  unfold sortedPlaceholders, JSObject.has.
  rewrite JSObjectFacts.get_spread.
  rewrite (JSObjectFacts.assigned_wf key _ (JSObjectFacts.wf_literal builtins)).
  destruct (JSObject.get key (JSObject.literal builtins)); [reflexivity|discriminate].
Qed.

(** ** C2: a declared dependency is not evaluated *)

(** C2 at the template [{{focusedElement}}], expanded with an empty
    context: the directive declares the dependency [currentAppName], yet
    the only directive applied is [focusedElement] itself, and the context
    it is given has no [currentAppName] field; it falls back to asking for
    the frontmost application on its own. *)
Theorem C2_dependency_is_not_evaluated :
  dependencies (focusedElement env_vars) = Some ["currentAppName"] /\
  exists w,
    bulkApply env_vars (placeholders env_vars 1) 2 "{{focusedElement}}" (Some []) world_a
    = Returned "text" w /\
    events w = [Applied "focusedElement" (Some []);
                RanJSInActiveTab "document.activeElement.innerText" "Safari"].
Proof.
  split; [reflexivity|]. eexists. split; vm_compute; reflexivity.
Qed.

(** ** C4: the decrement directive *)

Definition world_counter : World := mkWorld {[ "id-c" := "5" ]} [] None 0 [].

(** The storage key of the counter that the directive finds in a text. *)
Definition counter_identifier (directive str : string) : string :=
  "id-" +:+ match match_group (regex ("(?<=(" +:+ directive +:+ ":))[\s\S]*?(?=}})")) str 0 with
            | Some n => n
            | None => "undefined"
            end.

Definition stored (w : World) (key value : string) : World :=
  mkWorld (<[key := value]> (localStorage w)) (persistentVariables w) (usedUUIDs w)
          (drawn w) (events w).

(** Both counters add one to what is stored. *)
Lemma counter_adds_one (directive str item : string) (v : Z) (w : World) :
  localStorage w !! counter_identifier directive str = Some item ->
  JSNumber.parseInt item = JSNumber.Int v ->
  counter directive str w
  = Returned [("result", JSNumber.toString (JSNumber.Int (v + 1)))]
             (stored w (counter_identifier directive str)
                     (JSNumber.toString (JSNumber.Int (v + 1)))).
Proof.
  intros Hitem Hparse. unfold counter. fold (counter_identifier directive str).
  unfold bind, Store.getItem, Store.setItem, ret. rewrite Hitem.
  destruct item as [|c item]; [discriminate|].
  cbn [falsy or_empty]. rewrite Hparse. reflexivity.
Qed.

(** C4, for every text handed to the directive and every safe integer [v]
    (below 2^53 in absolute value, where the doubles of the code are
    exact) held by the counter it names: [{{decrement:...}}] stores
    [v + 1], not [v - 1], and is replaced by [v + 1]. *)
Theorem C4_decrement_adds_one
    (str item : string) (v : Z) (context : option Context) (w : World) :
  localStorage w !! counter_identifier "decrement" str = Some item ->
  JSNumber.parseInt item = JSNumber.Int v ->
  JSNumber.safe_integer v ->
  apply decrement str context w
  = Returned [("result", JSNumber.toString (JSNumber.Int (v + 1)))]
             (stored w (counter_identifier "decrement" str)
                     (JSNumber.toString (JSNumber.Int (v + 1)))).
Proof.
  intros Hitem Hparse _. exact (counter_adds_one "decrement" str item v w Hitem Hparse).
Qed.

Lemma five_is_safe : JSNumber.safe_integer 5.
Proof. reflexivity. Qed.

Lemma C4_decrement_adds_one_witness :
  localStorage world_counter !! counter_identifier "decrement" "{{decrement:c}}" = Some "5" /\
  JSNumber.parseInt "5" = JSNumber.Int 5 /\
  JSNumber.safe_integer 5 /\
  apply decrement "{{decrement:c}}" None world_counter
  = Returned [("result", "6")] (mkWorld {[ "id-c" := "6" ]} [] None 0 []).
Proof.
  assert (H1 : localStorage world_counter !! counter_identifier "decrement" "{{decrement:c}}"
               = Some "5") by (vm_compute; reflexivity).
  assert (H2 : JSNumber.parseInt "5" = JSNumber.Int 5) by reflexivity.
  split; [exact H1|split; [exact H2|split; [exact five_is_safe|]]].
  rewrite (C4_decrement_adds_one "{{decrement:c}}" "5" 5 None world_counter H1 H2 five_is_safe).
  vm_compute. reflexivity.
Defined.

(** The counter [c] holding 5, through the engine: expanding
    [{{decrement:c}}] stores 6 and yields 6, as [{{increment:c}}] does. *)
Lemma decrement_expands_as_increment :
  (exists w,
     bulkApply env_vars (placeholders env_vars 1) 2 "{{decrement:c}}" None world_counter
     = Returned "6" w /\ localStorage w !! "id-c" = Some "6") /\
  (exists w,
     bulkApply env_vars (placeholders env_vars 1) 2 "{{increment:c}}" None world_counter
     = Returned "6" w /\ localStorage w !! "id-c" = Some "6").
Proof.
  split; eexists; split; vm_compute; reflexivity.
Qed.

(** ** C5: resetting a variable that does not exist *)

(** What the directive does with the name it finds: reset, then set to
    what the reset returned.  For a name that is not stored, the reset
    returns the empty string and the set creates the variable. *)
Lemma reset_then_set_creates (name : string) (w : World) :
  find (Store.named name) (persistentVariables w) = None ->
  (let* initialValue := Store.resetPersistentVariable name in
   Store.setPersistentVariable name initialValue) w
  = Returned tt (mkWorld (localStorage w) (persistentVariables w ++ [mkVar name "" ""])
                         (usedUUIDs w) (drawn w) (events w)).
Proof.
  intros H.
  unfold bind, Store.resetPersistentVariable, Store.setPersistentVariable, bind,
    Store.getVariables, Store.setVariables, ret.
  rewrite H. simpl. rewrite H. reflexivity.
Qed.

(** C5, for every text in which the directive finds a name that is not
    stored: [apply] leaves a store with one record more, the variable of
    that name with empty value and empty initial value. *)
Theorem C5_reset_creates_the_variable
    (str : string) (matches : RegExp.MatchResult) (context : option Context) (w : World) :
  RegExp.exec (regex "{{reset ([a-zA-Z0-9_]+)}}") str = Some matches ->
  find (Store.named (or_empty (RegExp.group matches 1))) (persistentVariables w) = None ->
  apply reset str context w
  = Returned [("result", "")]
             (mkWorld (localStorage w)
                      (persistentVariables w ++ [mkVar (or_empty (RegExp.group matches 1)) "" ""])
                      (usedUUIDs w) (drawn w) (events w)).
Proof.
  intros Hexec Habsent. cbn [apply reset]. rewrite Hexec.
  unfold bind, Store.resetPersistentVariable, Store.setPersistentVariable, bind,
    Store.getVariables, Store.setVariables, ret.
  rewrite Habsent. cbn [persistentVariables]. rewrite Habsent. reflexivity.
Qed.

Lemma C5_reset_creates_the_variable_witness :
  RegExp.exec (regex "{{reset ([a-zA-Z0-9_]+)}}") "{{reset foo}}"
  = Some (RegExp.mkResult "" "{{reset foo}}" "" [Some "{{reset foo}}"; Some "foo"]) /\
  find (Store.named "foo") (persistentVariables world_a) = None /\
  apply reset "{{reset foo}}" None world_a
  = Returned [("result", "")] (mkWorld ∅ [mkVar "a" "1" "0"; mkVar "foo" "" ""] None 0 []).
Proof.
  assert (H1 : RegExp.exec (regex "{{reset ([a-zA-Z0-9_]+)}}") "{{reset foo}}"
               = Some (RegExp.mkResult "" "{{reset foo}}" "" [Some "{{reset foo}}"; Some "foo"]))
    by (vm_compute; reflexivity).
  split; [exact H1|split; [reflexivity|]].
  exact (C5_reset_creates_the_variable "{{reset foo}}" _ None world_a H1 eq_refl).
Defined.

(** The same through the engine: expanding [{{reset foo}}] over a store
    that holds the variable [a] alone leaves a store with a new record
    [foo]. *)
Lemma reset_expansion_creates_the_variable :
  find (Store.named "foo") (persistentVariables world_a) = None /\
  exists w,
    bulkApply env_vars (placeholders env_vars 1) 2 "{{reset foo}}" None world_a
    = Returned "" w /\
    persistentVariables w = [mkVar "a" "1" "0"; mkVar "foo" "" ""].
Proof.
  split; [reflexivity|]. eexists. split; vm_compute; reflexivity.
Qed.

(** ** C6: the fields returned and the declared result keys *)

Lemma pdf_pattern_compiles :
  exists re, RegExp.compile ("{{pdf" +:+ branches) = Some re.
Proof. eexists. vm_compute. reflexivity. Qed.

(** C6 for the PDF directive, on every input: whatever the text, the
    context and the state, what [apply] returns besides [result] is the
    field [image:pdf]; the declared result key [contentForPDFs] is never
    among the fields. *)
Theorem C6_pdf_never_returns_its_result_key
    (str : string) (context : option Context) (w : World) :
  result_keys contentForPDFs = Some ["contentForPDFs"] /\
  exists v,
    apply contentForPDFs str context w = Returned [("result", v); ("image:pdf", v)] w /\
    JSObject.has "contentForPDFs" [("result", v); ("image:pdf", v)] = false.
Proof.
  split; [reflexivity|].
  destruct pdf_pattern_compiles as [re Hre].
  cbn [apply contentForPDFs flow]. unfold flow_control.
  destruct context as [c|]; [|eexists; split; reflexivity].
  destruct (falsy _); [eexists; split; reflexivity|].
  unfold new_RegExp, bind. rewrite Hre. simpl.
  destruct (negb _); eexists; split; reflexivity.
Qed.

(** The same slip in the directives made per video extension: with a
    selection, the field returned is [image:mp4], not [video:mp4]. *)
Lemma video_ext_returns_image_key :
  result_keys (snd (video_ext "mp4")) = Some ["video:mp4"] /\
  apply (snd (video_ext "mp4")) "{{mp4:YES:NO}}" (Some [("selectedFiles", "a.mp4")]) world_a
  = Returned [("result", "YES"); ("image:mp4", "YES")] world_a.
Proof. split; vm_compute; reflexivity. Qed.

Lemma audio_ext_returns_image_key :
  result_keys (snd (audio_ext "mp3")) = Some ["audio:mp3"] /\
  apply (snd (audio_ext "mp3")) "{{mp3:YES:NO}}" (Some [("selectedFiles", "a.mp3")]) world_a
  = Returned [("result", "YES"); ("image:mp3", "YES")] world_a.
Proof. split; vm_compute; reflexivity. Qed.

(** ** The loops of the engine *)

Section LoopFacts.

Lemma bind_returned {A B} (c : M A) (f : A -> M B) (w w' : World) (a : A) :
  c w = Returned a w' -> bind c f w = f a w'.
Proof. unfold bind. now intros ->. Qed.

Lemma bind_diverged {A B} (c : M A) (f : A -> M B) (w : World) :
  c w = Diverged -> bind c f w = Diverged.
Proof. unfold bind. now intros ->. Qed.

(** A computation that comes back, with a value or an exception. *)
Definition halts {A} (o : Outcome A) : Prop := o <> Diverged.

Definition comes_back {A} (o : Outcome A) : Prop := exists a w, o = Returned a w.

Lemma bind_comes_back {A B} (c : M A) (f : A -> M B) (w : World) :
  comes_back (c w) -> (forall a w', comes_back (f a w')) -> comes_back (bind c f w).
Proof. intros (a & w' & H) Hf. rewrite (bind_returned _ _ _ _ _ H). apply Hf. Qed.

Lemma for_of_comes_back {A S} (xs : list A) (body : A -> S -> M S) :
  (forall x, In x xs -> forall s w, comes_back (body x s w)) ->
  forall s w, comes_back (for_of xs body s w).
Proof.
  induction xs as [|x xs IH]; intros Hbody s w; simpl.
  - now exists s, w.
  - apply bind_comes_back.
    + apply Hbody. now left.
    + intros s' w'. apply IH. intros y Hy. apply Hbody. now right.
Qed.

(** A loop whose body always ends in [break] runs its body at most once. *)
Lemma while_break_comes_back {S} (fuel : nat) (cond : S -> M bool)
    (body : S -> M (S * bool)) (s : S) (w : World) :
  0 < fuel ->
  (forall s w, comes_back (cond s w)) ->
  (forall s w, exists s' w', body s w = Returned (s', true) w') ->
  comes_back (while fuel cond body s w).
Proof.
  intros Hfuel Hcond Hbody. destruct fuel as [|fuel]; [lia|]. simpl.
  apply bind_comes_back; [apply Hcond|]. intros [|] w1.
  - destruct (Hbody s w1) as (s' & w2 & H).
    rewrite (bind_returned _ _ _ _ _ H). simpl. now exists s', w2.
  - now exists s, w1.
Qed.

(** A loop that keeps an invariant under which its condition holds and
    its body goes on never comes back. *)
Lemma while_runs_on {S} (inv : S -> World -> Prop) (cond : S -> M bool)
    (body : S -> M (S * bool)) :
  (forall s w, inv s w ->
     exists w1 s' w2,
       cond s w = Returned true w1 /\ body s w1 = Returned (s', false) w2 /\ inv s' w2) ->
  forall fuel s w, inv s w -> while fuel cond body s w = Diverged.
Proof.
  intros Hstep. induction fuel as [|fuel IH]; intros s w Hinv; [reflexivity|].
  destruct (Hstep s w Hinv) as (w1 & s' & w2 & Hc & Hb & Hinv'). simpl.
  rewrite (bind_returned _ _ _ _ _ Hc), (bind_returned _ _ _ _ _ Hb). simpl.
  apply IH, Hinv'.
Qed.

Lemma while_done {S} (fuel : nat) (cond : S -> M bool) (body : S -> M (S * bool))
    (s : S) (w w1 : World) :
  cond s w = Returned false w1 -> while (Datatypes.S fuel) cond body s w = Returned s w1.
Proof. intros Hc. cbn [while]. now rewrite (bind_returned _ _ _ _ _ Hc). Qed.

Lemma while_break {S} (fuel : nat) (cond : S -> M bool) (body : S -> M (S * bool))
    (s s' : S) (w w1 w2 : World) :
  cond s w = Returned true w1 -> body s w1 = Returned (s', true) w2 ->
  while (Datatypes.S fuel) cond body s w = Returned s' w2.
Proof.
  intros Hc Hb. cbn [while].
  now rewrite (bind_returned _ _ _ _ _ Hc), (bind_returned _ _ _ _ _ Hb).
Qed.

Lemma while_again {S} (fuel : nat) (cond : S -> M bool) (body : S -> M (S * bool))
    (s s' : S) (w w1 w2 : World) :
  cond s w = Returned true w1 -> body s w1 = Returned (s', false) w2 ->
  while (Datatypes.S fuel) cond body s w = while fuel cond body s' w2.
Proof.
  intros Hc Hb. cbn [while].
  now rewrite (bind_returned _ _ _ _ _ Hc), (bind_returned _ _ _ _ _ Hb).
Qed.

Lemma bind_congr {A B} (c c' : M A) (f : A -> M B) (w : World) :
  c w = c' w -> bind c f w = bind c' f w.
Proof. unfold bind. now intros ->. Qed.

Lemma bind_bind_returned {A B C} (c : M A) (f : A -> M B) (g : B -> M C)
    (w w' : World) (a : A) :
  c w = Returned a w' -> bind (bind c f) g w = bind (f a) g w'.
Proof. unfold bind. now intros ->. Qed.

Lemma for_of_one {A S} (x : A) (body : A -> S -> M S) (s : S) (w : World) :
  for_of [x] body s w = body x s w.
Proof. cbn [for_of]. unfold bind, ret. now destruct (body x s w). Qed.

End LoopFacts.

(** ** Directives that a text does not concern *)

Section Inert.

Variable env : Env.
Variable fuel : nat.

(** The pattern compiles and matches nowhere in the text. *)
Definition no_match (source str : string) : bool :=
  match RegExp.compile source with
  | Some re => negb (RegExp.test re str)
  | None => false
  end.

(** Neither the key nor an alias of the entry matches the text. *)
Definition inert (str : string) (entry : string * Placeholder) : bool :=
  forallb (fun a => no_match a str)
          (match aliases (snd entry) with Some a => a | None => [] end)
  && no_match (fst entry) str.

Lemma matching_no_match (xs : list string) (str : string) (w : World) :
  forallb (fun a => no_match a str) xs = true ->
  matching xs str w = Returned [] w.
Proof.
  induction xs as [|x xs IH]; simpl; [reflexivity|].
  intros H. apply andb_prop in H as [Hx Hxs]. unfold no_match in Hx.
  unfold bind at 1. unfold new_RegExp, call.
  destruct (RegExp.compile x) as [re|]; [|discriminate]. simpl.
  unfold bind. rewrite (IH Hxs). simpl.
  destruct (RegExp.test re str); [discriminate|reflexivity].
Qed.

Lemma expand_inert (all : PlaceholderList) (entry : string * Placeholder)
    (str : string) (result : Context) (w : World) :
  inert str entry = true ->
  expand env fuel all entry (str, result) w = Returned (str, result) w.
Proof.
  destruct entry as [key placeholder]. unfold inert. simpl.
  intros H. apply andb_prop in H as [Ha Hk]. unfold no_match in Hk.
  unfold expand.
  rewrite (bind_returned _ _ _ _ _ (matching_no_match _ _ w Ha)).
  unfold new_RegExp, call, bind.
  destruct (RegExp.compile key) as [re|]; [|discriminate]. simpl.
  destruct (RegExp.test re str); [discriminate|reflexivity].
Qed.

Lemma for_of_inert (all pre rest : PlaceholderList) (str : string) (result : Context)
    (w : World) :
  forallb (inert str) pre = true ->
  for_of (pre ++ rest) (expand env fuel all) (str, result) w
  = for_of rest (expand env fuel all) (str, result) w.
Proof.
  induction pre as [|e pre IH]; simpl; [reflexivity|].
  intros H. apply andb_prop in H as [He Hpre].
  rewrite (bind_returned _ _ _ _ _ (expand_inert all e str result w He)).
  apply IH, Hpre.
Qed.

Lemma for_of_table_split (all pre post : PlaceholderList) (entry : string * Placeholder)
    (str : string) (result : Context) (w : World) :
  all = (pre ++ entry :: post)%list ->
  forallb (inert str) pre = true ->
  for_of all (expand env fuel all) (str, result) w
  = for_of (entry :: post) (expand env fuel all) (str, result) w.
Proof.
  intros Hall Hpre.
  transitivity (for_of (pre ++ entry :: post) (expand env fuel all) (str, result) w).
  - now rewrite <- Hall.
  - now apply for_of_inert.
Qed.

Lemma for_of_all_inert (all rest : PlaceholderList) (str : string) (result : Context)
    (w : World) :
  forallb (inert str) rest = true ->
  for_of rest (expand env fuel all) (str, result) w = Returned (str, result) w.
Proof.
  intros H. rewrite <- (app_nil_r rest). rewrite for_of_inert by exact H. reflexivity.
Qed.

End Inert.

(** The table is put together from its keys alone: computing it leaves
    the directives as they are. *)
Ltac table_compute :=
  cbv -[reset get delete vars selectedFiles currentAppName uuid flow
        contentForImages contentForVideos contentForAudio contentForPDFs
        increment decrement focusedElement selectFile shell setPersistentVariable
        custom].

(** ** C3: expansion that does not come to an end *)

Definition env_plain : Env := {|
  processPlaceholders := true;
  allowCustomPlaceholders := true;
  useUserShellEnvironment := false;
  usePlaceholderStatistics := false;
  imageFileExtensions := ["png"; "jpg"];
  videoFileExtensions := ["mp4"; "mov"];
  audioFileExtensions := ["mp3"; "wav"];
  filterString := fun s => s;
  randomUUID := fun n => JSNumber.toString (JSNumber.Int (Z.of_nat (n / 2)));
  execSync := fun _ _ => None;
  frontmostApplicationName := Some "Safari";
  runJSInActiveTab := fun _ _ => Some "text";
  customPlaceholderFiles := []
|}.

Definition world_loop : World :=
  mkWorld ∅ [mkVar "x" "{{get x}}" "{{get x}}"] None 0 [].

Definition get_key : string := "{{get [a-zA-Z0-9_]+}}".

Lemma get_key_facts :
  exists re re' r,
    RegExp.compile get_key = Some re /\
    RegExp.test re "{{get x}}" = true /\
    RegExp.compile (get_key +:+ lookahead) = Some re' /\
    RegExp.replace_first re' "{{get x}}" "{{get x}}" = "{{get x}}" /\
    RegExp.exec (regex "{{get ([a-zA-Z0-9_]+)}}") "{{get x}}" = Some r /\
    RegExp.group r 1 = Some "x".
Proof. do 3 eexists. repeat split; vm_compute; reflexivity. Qed.

Lemma get_runs_on (fuel : nat) (result : Context) (keys : option (list string)) (w : World) :
  persistentVariables w = [mkVar "x" "{{get x}}" "{{get x}}"] ->
  while fuel (still_matches get_key) (substitute env_plain get get_key)
        ("{{get x}}", result, keys) w
  = Diverged.
Proof.
  intros Hw.
  apply (while_runs_on
           (fun s w => fst (fst s) = "{{get x}}"
                       /\ persistentVariables w = [mkVar "x" "{{get x}}" "{{get x}}"]));
    [|now split].
  clear. intros [[str result] keys] w [Hstr Hw]. simpl in Hstr. subst str.
  destruct get_key_facts as (re & re' & r & Hre & Htest & Hre' & Hrepl & Hexec & Hgroup).
  exists w.
  unfold still_matches, substitute, new_RegExp, call, bind, emit, ret.
  unfold get_key in *. cbn in *.
  rewrite Hre, Hre'. cbn. rewrite Htest, Hexec. cbn. rewrite Hgroup.
  unfold Store.getPersistentVariable, Store.getVariables, bind. cbn. rewrite Hw. cbn.
  rewrite Hrepl. do 2 eexists. repeat split.
Qed.


Lemma C1_builtin_wins_witness :
  JSObject.has "{{vars}}" (JSObject.literal (placeholders env_vars 1)) = true /\
  JSObject.get "{{vars}}" (sortedPlaceholders env_vars (JSObject.literal (placeholders env_vars 1)))
  = JSObject.get "{{vars}}" (JSObject.literal (placeholders env_vars 1)).
Proof.
  split; [vm_compute; reflexivity|].
  apply (C1_builtin_wins_on_identical_keys env_vars (placeholders env_vars 1) "{{vars}}").
  vm_compute. reflexivity.
Defined.

(** ** Computations that come back *)

Section Termination.

Variable env : Env.
Variable fuel : nat.

Definition compiles (source : string) : Prop :=
  exists re, RegExp.compile source = Some re.

Lemma new_RegExp_comes_back (source : string) (w : World) :
  compiles source -> exists re, new_RegExp source w = Returned re w.
Proof. intros [re H]. exists re. unfold new_RegExp, call. now rewrite H. Qed.

Lemma getPersistentVariable_comes_back (name : string) (w : World) :
  exists v, Store.getPersistentVariable name w = Returned v w.
Proof.
  unfold Store.getPersistentVariable, Store.getVariables, bind, ret.
  destruct (find _ _); eexists; reflexivity.
Qed.

Lemma setPersistentVariable_comes_back (name value : string) (w : World) :
  comes_back (Store.setPersistentVariable name value w).
Proof.
  unfold Store.setPersistentVariable, Store.getVariables, Store.setVariables, bind.
  destruct (find _ _); do 2 eexists; reflexivity.
Qed.

Lemma count_use_comes_back (name : string) (w : World) :
  comes_back (count_use env name w).
Proof.
  unfold count_use. destruct (usePlaceholderStatistics env); [|now exists tt, w].
  destruct (getPersistentVariable_comes_back (name +:+ "_count") w) as [v Hv].
  rewrite (bind_returned _ _ _ _ _ Hv). apply setPersistentVariable_comes_back.
Qed.

Lemma matching_comes_back (xs : list string) (str : string) (w : World) :
  Forall compiles xs ->
  exists ys, matching xs str w = Returned ys w /\ incl ys xs.
Proof.
  induction 1 as [|x xs Hx Hxs IH]; simpl.
  - exists []. split; [reflexivity|]. intros y Hy. exact Hy.
  - destruct (new_RegExp_comes_back x w Hx) as [re Hre].
    destruct IH as (ys & Hys & Hincl).
    rewrite (bind_returned _ _ _ _ _ Hre), (bind_returned _ _ _ _ _ Hys).
    destruct (RegExp.test re str); eexists; (split; [reflexivity|]).
    + intros y [->|Hy]; [now left|right; now apply Hincl].
    + intros y Hy. right. now apply Hincl.
Qed.

Lemma dependency_keys_in (all : PlaceholderList) (names : option (list string)) (k : string) :
  In k (dependency_keys all names) -> exists p, In (k, p) all.
Proof.
  unfold dependency_keys. destruct names as [ns|]; [|intros []].
  assert (Hgen : forall acc,
             In k (fold_left
                     (fun acc dependencyName =>
                        match find (named dependencyName) all with
                        | Some dependency => (acc ++ [fst dependency])%list
                        | None => acc
                        end) ns acc) ->
             In k acc \/ exists p, In (k, p) all).
  { induction ns as [|n ns IH]; intros acc; simpl; [tauto|].
    intros H. apply IH in H as [H|H]; [|now right].
    destruct (find (named n) all) as [[k' p]|] eqn:Hfind; [|now left].
    apply in_app_or in H as [H|[<-|[]]]; [now left|].
    right. exists p. eapply find_some, Hfind. }
  intros H. apply Hgen in H as [[]|H]. exact H.
Qed.

End Termination.

Definition env_hi : Env := {|
  processPlaceholders := true;
  allowCustomPlaceholders := true;
  useUserShellEnvironment := false;
  usePlaceholderStatistics := true;
  imageFileExtensions := ["png"; "jpg"];
  videoFileExtensions := ["mp4"; "mov"];
  audioFileExtensions := ["mp3"; "wav"];
  filterString := fun s => s;
  randomUUID := fun n => JSNumber.toString (JSNumber.Int (Z.of_nat n));
  execSync := fun _ _ => None;
  frontmostApplicationName := Some "Safari";
  runJSInActiveTab := fun _ _ => Some "text";
  customPlaceholderFiles := [Some [("{{hi (\w+)}}", mkCustom "hi" "Hello $1, {{vars}}")]]
|}.

(** ** Strings *)

Module JSStringFacts.

Import JSString.

Lemma append_nil_r (s : string) : s +:+ "" = s.
Proof. induction s as [|c s IH]; simpl; [reflexivity|]. now rewrite IH. Qed.

Lemma append_assoc (a b c : string) : (a +:+ b) +:+ c = a +:+ (b +:+ c).
Proof. induction a as [|x a IH]; simpl; [reflexivity|]. now rewrite IH. Qed.

Lemma length_append (a b : string) :
  String.length (a +:+ b) = String.length a + String.length b.
Proof. induction a as [|x a IH]; simpl; [reflexivity|]. now rewrite IH. Qed.

Lemma rev_append_rev_append (a b c : string) :
  rev_append (rev_append a b) c = rev_append b (a +:+ c).
Proof.
  revert b c. induction a as [|x a IH]; intros b c; simpl; [reflexivity|].
  rewrite IH. reflexivity.
Qed.

Lemma rev_rev_append (a b : string) : rev (rev_append a b) = rev_append b a.
Proof. unfold rev. rewrite rev_append_rev_append. now rewrite append_nil_r. Qed.

Lemma take_length_append (a b : string) : take (String.length a) (a +:+ b) = a.
Proof. induction a as [|x a IH]; simpl; [now destruct b|]. now rewrite IH. Qed.

Lemma take_matched (a b : string) :
  take (String.length (a +:+ b) - String.length b) (a +:+ b) = a.
Proof.
  rewrite length_append.
  replace (String.length a + String.length b - String.length b) with (String.length a) by lia.
  apply take_length_append.
Qed.

(** [lacks c s]: the character does not occur in the string. *)
Fixpoint lacks (c : ascii) (s : string) : bool :=
  match s with
  | EmptyString => true
  | String a s' => negb (Ascii.eqb a c) && lacks c s'
  end.

Lemma lacks_append (c : ascii) (a b : string) :
  lacks c (a +:+ b) = lacks c a && lacks c b.
Proof.
  induction a as [|x a IH]; simpl; [reflexivity|]. rewrite IH. now rewrite andb_assoc.
Qed.

Lemma rev_append_append (a b c : string) :
  rev_append (a +:+ b) c = rev_append b (rev_append a c).
Proof.
  revert c. induction a as [|x a IH]; intros c; simpl; [reflexivity|]. apply IH.
Qed.

Lemma rev_append_rev (a c : string) : rev_append (rev a) c = a +:+ c.
Proof. unfold rev. now rewrite rev_append_rev_append. Qed.

Lemma rev_append_eq (a b : string) : rev_append a b = rev a +:+ b.
Proof.
  unfold rev. revert b. induction a as [|x a IH]; intros b; simpl; [reflexivity|].
  rewrite IH, (IH (String x "")), append_assoc. reflexivity.
Qed.

Lemma rev_cons (c : ascii) (s : string) : rev (String c s) = rev s +:+ String c "".
Proof. unfold rev at 1. simpl. apply rev_append_eq. Qed.

Lemma length_rev (s : string) : String.length (rev s) = String.length s.
Proof.
  induction s as [|c s IH]; [reflexivity|].
  rewrite rev_cons, length_append, IH. simpl. lia.
Qed.

Lemma startsWith_append (p q s : string) :
  startsWith (p +:+ q) s = startsWith p s && startsWith q (drop (String.length p) s).
Proof.
  revert s. induction p as [|a p IH]; intros s; simpl; [reflexivity|].
  destruct s as [|b s]; [reflexivity|]. destruct (Ascii.eqb a b); [apply IH|reflexivity].
Qed.

Lemma startsWith_split (p s : string) :
  startsWith p s = true -> s = p +:+ drop (String.length p) s.
Proof.
  revert s. induction p as [|a p IH]; intros s; simpl; [reflexivity|].
  destruct s as [|b s]; [discriminate|].
  destruct (Ascii.eqb_spec a b) as [->|]; [|discriminate].
  intros H. now rewrite <- (IH s H).
Qed.

Lemma drop_drop (n k : nat) (s : string) : drop n (drop k s) = drop (k + n) s.
Proof.
  revert s. induction k as [|k IH]; intros s; simpl; [reflexivity|].
  destruct s as [|c s]; [now destruct n|]. apply IH.
Qed.

Lemma includes_rev_append (t r s : string) :
  includes t s = true -> includes t (rev_append r s) = true.
Proof.
  revert s. induction r as [|c r IH]; intros s H; simpl; [exact H|].
  apply IH. simpl. rewrite H. apply orb_true_r.
Qed.

Lemma includes_startsWith (t s : string) : startsWith t s = true -> includes t s = true.
Proof. intros H. destruct s; simpl; rewrite H; reflexivity. Qed.

(** No position of the text is preceded by the token: [bef] is the text
    before the position, nearest character first. *)
Fixpoint never_after (token_rev bef aft : string) : bool :=
  negb (startsWith token_rev bef) &&
  match aft with
  | EmptyString => true
  | String c aft' => never_after token_rev (String c bef) aft'
  end.

Lemma startsWith_refl (t s : string) : startsWith t (t +:+ s) = true.
Proof. induction t as [|x t IH]; simpl; [reflexivity|]. now rewrite Ascii.eqb_refl. Qed.

Lemma not_preceded (token bef aft : string) :
  includes token (rev_append bef aft) = false -> startsWith (rev token) bef = false.
Proof.
  intros H. destruct (startsWith (rev token) bef) eqn:Hs; [|reflexivity].
  apply startsWith_split in Hs. rewrite Hs, rev_append_append, rev_append_rev in H.
  rewrite includes_rev_append in H; [discriminate|].
  apply includes_startsWith, startsWith_refl.
Qed.

Lemma never_after_includes (token bef aft : string) :
  includes token (rev_append bef aft) = false ->
  never_after (rev token) bef aft = true.
Proof.
  revert bef. induction aft as [|c aft IH]; intros bef H; simpl;
    rewrite (not_preceded token bef _ H); simpl; [reflexivity|].
  apply IH. exact H.
Qed.

End JSStringFacts.

(** ** Matching *)

Module RegExpFacts.

Import JSString JSStringFacts RegExp.

Lemma search_nil (r : Regex) (n : nat) (bef : string) :
  search r n bef "" =
  match m r true (mkState bef "" (replicate (S n) None)) Some with
  | Some y => Some (finish bef "" y)
  | None => None
  end.
Proof. reflexivity. Qed.

Lemma search_cons (r : Regex) (n : nat) (bef : string) (a : ascii) (aft : string) :
  search r n bef (String a aft) =
  match m r true (mkState bef (String a aft) (replicate (S n) None)) Some with
  | Some y => Some (finish bef (String a aft) y)
  | None => search r n (String a bef) aft
  end.
Proof. reflexivity. Qed.

(** A pattern that begins with a character matches nowhere in a text
    without it, and its leftmost match lies beyond a prefix without it. *)
Lemma search_skip (c : ascii) (r : Regex) (n : nat) (skipped bef rest : string) :
  lacks c skipped = true ->
  search (Seq (Char c) r) n bef (skipped +:+ rest)
  = search (Seq (Char c) r) n (rev_append skipped bef) rest.
Proof.
  revert bef. induction skipped as [|a skipped IH]; intros bef H; simpl in *; [reflexivity|].
  apply andb_prop in H as [Ha H]. rewrite search_cons. cbn [m step_char after].
  rewrite Ascii.eqb_sym. destruct (Ascii.eqb a c); [discriminate|]. apply IH, H.
Qed.

Lemma search_lacks (c : ascii) (r : Regex) (n : nat) (bef text : string) :
  lacks c text = true -> search (Seq (Char c) r) n bef text = None.
Proof.
  intros H. rewrite <- (append_nil_r text), (search_skip c r n text bef "" H).
  rewrite search_nil. reflexivity.
Qed.

(** The replacement text is taken as it is when it has no dollar sign. *)
Lemma substitution_plain (ng : nat) (r : MatchResult) (template : string) :
  lacks "$" template = true -> substitution ng r template = template.
Proof.
  induction template as [|c template IH]; [reflexivity|].
  cbn [lacks]. intros H. apply andb_prop in H as [Hc H].
  cbn [substitution].
  destruct (Ascii.eqb_spec c "$") as [->|Hne]; [discriminate|].
  rewrite (IH H).
  destruct c as [[] [] [] [] [] [] [] []]; try reflexivity; contradiction.
Qed.

(** The pattern of a text without special characters. *)
Fixpoint chars (s : string) : Regex :=
  match s with
  | EmptyString => Empty
  | String c s' => mkSeq (Char c) (chars s')
  end.

Lemma m_mkSeq (r1 r2 : Regex) (forward : bool) (x : MatchState) (k : Cont) :
  m (mkSeq r1 r2) forward x k = m (Seq r1 r2) forward x k.
Proof.
  destruct r1, r2, forward; reflexivity.
Qed.

(** Matched backwards, a literal succeeds exactly when the text before
    the position ends with it. *)
Lemma m_chars_backward (s : string) (x : MatchState) (k : Cont) :
  m (chars s) false x k =
  if startsWith (rev s) (before x)
  then k (mkState (drop (String.length s) (before x)) (s +:+ after x) (captures x))
  else None.
Proof.
  revert x k. induction s as [|c s IH]; intros [bef aft caps] k.
  - reflexivity.
  - cbn [chars]. rewrite m_mkSeq. cbn [m]. rewrite IH. cbn [before after captures].
    rewrite rev_cons, startsWith_append, length_rev.
    destruct (startsWith (rev s) bef); [|reflexivity]. cbn [andb step_char before after captures].
    destruct (drop (String.length s) bef) as [|a rest] eqn:Hdrop; [reflexivity|].
    cbn [startsWith]. destruct (Ascii.eqb_spec c a) as [->|]; [|reflexivity].
    replace (drop (String.length (String a s)) bef) with rest; [reflexivity|].
    change (String.length (String a s)) with (S (String.length s)).
    replace (S (String.length s)) with (String.length s + 1) by lia.
    rewrite <- drop_drop, Hdrop. reflexivity.
Qed.

(** A pattern that opens with a lookbehind for a literal finds no match in
    a text that does not contain the literal. *)
Lemma search_lookbehind_never (token : string) (g : nat) (r : Regex) (n : nat)
    (bef aft : string) :
  never_after (rev token) bef aft = true ->
  search (Seq (Look false false (Group g (chars token))) r) n bef aft = None.
Proof.
  revert bef. induction aft as [|c aft IH]; intros bef H; simpl in H;
    apply andb_prop in H as [Hhere H]; apply negb_true_iff in Hhere.
  - rewrite search_nil. cbn [m]. rewrite m_chars_backward. cbn [before].
    now rewrite Hhere.
  - rewrite search_cons. cbn [m]. rewrite m_chars_backward. cbn [before].
    rewrite Hhere. apply IH, H.
Qed.

(** A literal followed by a pattern. *)
Fixpoint chars_then (s : string) (r : Regex) : Regex :=
  match s with
  | EmptyString => r
  | String c s' => Seq (Char c) (chars_then s' r)
  end.

Lemma m_chars_then (s : string) (r : Regex) (x : MatchState) (k : Cont) :
  m (chars_then s r) true x k =
  if startsWith s (after x)
  then m r true (mkState (rev_append s (before x)) (drop (String.length s) (after x))
                         (captures x)) k
  else None.
Proof.
  revert x. induction s as [|c s IH]; intros [bef aft caps]; cbn [chars_then].
  - reflexivity.
  - cbn [m step_char before after captures startsWith].
    destruct aft as [|a aft]; [reflexivity|].
    destruct (Ascii.eqb_spec c a) as [->|]; [|reflexivity].
    rewrite IH. reflexivity.
Qed.

Lemma drop_length_append (a b : string) : drop (String.length a) (a +:+ b) = b.
Proof. induction a as [|x a IH]; simpl; [now destruct b|]. exact IH. Qed.

(** Where a match ends up, whatever it captured. *)
Definition lands (o : option MatchState) (bef aft : string) : Prop :=
  exists caps, o = Some (mkState bef aft caps).

Lemma m_chars_then_here (s : string) (r : Regex) (bef rest : string)
    (caps : list (option string)) (k : Cont) :
  m (chars_then s r) true (mkState bef (s +:+ rest) caps) k
  = m r true (mkState (rev_append s bef) rest caps) k.
Proof.
  rewrite m_chars_then. cbn [before after captures].
  now rewrite startsWith_refl, drop_length_append.
Qed.

(** The lookahead that [bulkApply] appends to a key holds everywhere. *)
Definition lookahead_ast (g : nat) : Regex :=
  Look true false
       (Group g (Alt (Seq (Char "}") (Char "}"))
                     (Alt (Class false [CEsc Space; CEsc NotSpace]) Eol))).

Lemma any_character (c : ascii) : class_matches false [CEsc Space; CEsc NotSpace] c = true.
Proof. unfold class_matches. cbn. now destruct (is_space c). Qed.

Lemma lookahead_holds (g : nat) (x : MatchState) (k : Cont) :
  exists caps, m (lookahead_ast g) true x k = k (mkState (before x) (after x) caps).
Proof.
  destruct x as [bef aft caps]. unfold lookahead_ast.
  cbn [m step_char before after captures].
  destruct aft as [|a aft]; [eexists; reflexivity|].
  destruct (Ascii.eqb "}" a).
  - destruct aft as [|b aft].
    + rewrite any_character. eexists; reflexivity.
    + destruct (Ascii.eqb "}" b); [eexists; reflexivity|].
      rewrite any_character. eexists; reflexivity.
  - rewrite any_character. eexists; reflexivity.
Qed.

Lemma search_here (r : Regex) (n : nat) (bef aft : string) (y : MatchState) :
  m r true (mkState bef aft (replicate (S n) None)) Some = Some y ->
  search r n bef aft = Some (finish bef aft y).
Proof. intros H. destruct aft; [rewrite search_nil|rewrite search_cons]; now rewrite H. Qed.

(** The leftmost match of a pattern that begins with a character, in a
    text where the match is preceded by a text without that character. *)
Lemma search_found (c : ascii) (r : Regex) (n : nat) (skipped found rest : string) :
  lacks c skipped = true ->
  lands (m (Seq (Char c) r) true
           (mkState (rev_append skipped "") (found +:+ rest) (replicate (S n) None)) Some)
        (rev_append found (rev_append skipped "")) rest ->
  exists groups,
    search (Seq (Char c) r) n "" (skipped +:+ found +:+ rest)
    = Some (mkResult (rev_append skipped "") found rest groups).
Proof.
  intros Hskip [caps Hm]. rewrite (search_skip c r n skipped "" _ Hskip).
  rewrite (search_here _ _ _ _ _ Hm). unfold finish. cbn [after captures].
  rewrite take_matched. eexists. reflexivity.
Qed.

(** Replacing the first match by a text without dollar sign. *)
Lemma replace_first_found (re : t) (replacement text skipped found rest : string)
    (groups : list (option string)) :
  exec re text = Some (mkResult (rev_append skipped "") found rest groups) ->
  lacks "$" replacement = true ->
  replace_first re replacement text = skipped +:+ replacement +:+ rest.
Proof.
  intros Hexec Hplain. unfold replace_first. rewrite Hexec. cbn [prefix_rev suffix].
  rewrite substitution_plain by exact Hplain.
  rewrite rev_rev_append. reflexivity.
Qed.

(** An optional subterm that does not match is passed over. *)
Lemma repeat_optional_skip (body : MatchState -> Cont -> option MatchState) (gs : list nat)
    (k : Cont) (fuel : nat) (x : MatchState) :
  (forall d, body (clear_captures gs x) d = None) ->
  repeat body gs true k (S fuel) 0 (Some 1) x = k x.
Proof. intros H. cbn [repeat Nat.eqb negb]. now rewrite H. Qed.

(** A lazy repetition of a subterm that takes any one character goes on
    for as long as what follows it fails. *)
Definition takes_any (body : MatchState -> Cont -> option MatchState) : Prop :=
  forall bef c rest caps k,
    exists caps', body (mkState bef (String c rest) caps) k
                  = k (mkState (String c bef) rest caps').

Lemma repeat_lazy_until (body : MatchState -> Cont -> option MatchState) (gs : list nat)
    (k : Cont) (stop : ascii) (s rest bef0 aft0 : string) :
  takes_any body ->
  (forall bef c aft caps, Ascii.eqb c stop = false ->
     k (mkState bef (String c aft) caps) = None) ->
  lacks stop s = true ->
  forall fuel bef caps,
    String.length s < fuel ->
    (forall caps', lands (k (mkState (rev_append s bef) rest caps')) bef0 aft0) ->
    lands (repeat body gs false k fuel 0 None (mkState bef (s +:+ rest) caps)) bef0 aft0.
Proof.
  intros Hany Hfail. induction s as [|c s IH]; intros Hlacks fuel bef caps Hfuel Hk.
  - destruct fuel as [|fuel]; [simpl in Hfuel; lia|]. cbn [repeat String.append rev_append] in *.
    destruct (Hk caps) as [caps' ->]. now exists caps'.
  - destruct fuel as [|fuel]; [simpl in Hfuel; lia|].
    cbn [lacks] in Hlacks. apply andb_prop in Hlacks as [Hc Hlacks].
    apply negb_true_iff in Hc.
    cbn [repeat String.append]. rewrite (Hfail _ _ _ _ Hc).
    unfold clear_captures. cbn [before after captures].
    destruct (Hany bef c (s +:+ rest)
                (fold_left (fun caps i => <[i := None]> caps) gs caps)
                (fun y =>
                   if Nat.eqb 0 0 && same_position (mkState bef (String c (s +:+ rest)) caps) y
                   then None else repeat body gs false k fuel (Nat.pred 0) (pred_max None) y))
      as [caps' ->].
    unfold same_position. cbn [after String.length pred_max Nat.pred].
    assert (Hn : forall n, Nat.eqb (S n) n = false) by (intros n; apply Nat.eqb_neq; lia).
    rewrite Hn. cbn [Nat.eqb andb]. apply IH; [exact Hlacks|simpl in Hfuel; lia|exact Hk].
Qed.

End RegExpFacts.

(** ** C10: the directive that selects a file *)

Definition world_empty : World := mkWorld ∅ [] None 0 [].

(** C10, as stated, fails: a text that matches the directive's own pattern
    can contain the token [selectFiles:], and then the file named after the
    token is added to the selection. *)
Lemma C10_selectFile_can_add_a_file :
  RegExp.test (regex "{{selectFile:[\s\S]*?}}") "{{selectFile:selectFiles:/tmp/a}}" = true /\
  apply selectFile "{{selectFile:selectFiles:/tmp/a}}" None world_empty
  = Returned [("result", "")] (mkWorld ∅ [] None 0 [AddedFileToSelection "/tmp/a"]).
Proof. split; vm_compute; reflexivity. Qed.

Lemma selectFile_pattern :
  regex "(?<=(selectFiles:))[\s\S]*?(?=}})"
  = RegExp.mkRegExp
      (RegExp.Seq
         (RegExp.Look false false (RegExp.Group 1 (RegExpFacts.chars "selectFiles:")))
         (RegExp.Seq
            (RegExp.Repeat 0 None false
               (RegExp.Class false [RegExp.CEsc RegExp.Space; RegExp.CEsc RegExp.NotSpace]))
            (RegExp.Look true false (RegExp.Seq (RegExp.Char "}") (RegExp.Char "}")))))
      1.
Proof. vm_compute. reflexivity. Qed.

(** C10, amended: on every text that does not contain the token
    [selectFiles:] (such as [{{selectFile:p}}] for a path [p] without it),
    and for every context, [apply] returns the empty result and leaves the
    state as it is: no file is added to the selection. *)
Theorem C10_selectFile_without_token_has_no_effect
    (str : string) (context : option Context) (w : World) :
  JSString.includes "selectFiles:" str = false ->
  apply selectFile str context w = Returned [("result", "")] w.
Proof.
  intros H. cbn [apply selectFile]. unfold match_group, RegExp.exec.
  rewrite selectFile_pattern. cbn [RegExp.ast RegExp.ngroups].
  rewrite RegExpFacts.search_lookbehind_never; [reflexivity|].
  apply JSStringFacts.never_after_includes. exact H.
Qed.

Lemma C10_selectFile_without_token_witness :
  JSString.includes "selectFiles:" "{{selectFile:/tmp/b}}" = false /\
  apply selectFile "{{selectFile:/tmp/b}}" (Some []) world_empty
  = Returned [("result", "")] world_empty.
Proof.
  split; [reflexivity|].
  apply (C10_selectFile_without_token_has_no_effect "{{selectFile:/tmp/b}}" (Some []) world_empty).
  reflexivity.
Defined.

(** ** One directive at work *)

Section Expansion.

Variable env : Env.
Variable fuel : nat.

(** The seed pass leaves the text alone for a context key that names no
    directive, or a directive whose pattern is not in the text. *)
Definition seed_idle (all : PlaceholderList) (str contextKey : string) : bool :=
  match find (named contextKey) all with
  | Some keyHolder => no_match (fst keyHolder +:+ lookahead) str
  | None => true
  end.

Lemma seed_idle_spec (all : PlaceholderList) (str contextKey value : string) (w : World) :
  seed_idle all str contextKey = true ->
  seed env all (contextKey, value) str w = Returned str w.
Proof.
  unfold seed_idle, seed, no_match.
  destruct (find (named contextKey) all) as [keyHolder|]; [|reflexivity].
  destruct (negb _); [|reflexivity].
  unfold new_RegExp, call, bind.
  destruct (RegExp.compile _) as [re|]; [|discriminate]. cbn [ret].
  destruct (RegExp.test re str); [discriminate|reflexivity].
Qed.

Definition emitted (w : World) (e : Event) : World :=
  mkWorld (localStorage w) (persistentVariables w) (usedUUIDs w) (drawn w) (events w ++ [e]).

(** What is substituted for a match. *)
Definition replacement_of (fields : JSObject.t string) : string :=
  match JSObject.get "result" fields with
  | Some r => r
  | None => "undefined"
  end.

Lemma still_matches_spec (newKey : string) (re : RegExp.t) (st : LoopState) (w : World) :
  RegExp.compile newKey = Some re ->
  still_matches newKey st w = Returned (RegExp.test re (fst (fst st))) w.
Proof. intros H. unfold still_matches, new_RegExp, call, bind. now rewrite H. Qed.

(** One turn of the inner loop, for a directive whose [apply] comes back. *)
Lemma substitute_spec (p : Placeholder) (newKey str : string) (result : Context)
    (keys : option (list string)) (w w1 : World) (fields : JSObject.t string)
    (re_la : RegExp.t) :
  apply p str (Some result) (emitted w (Applied (name p) (Some result))) = Returned fields w1 ->
  RegExp.compile (newKey +:+ lookahead) = Some re_la ->
  exists w2,
    substitute env p newKey (str, result, keys) w
    = Returned
        ((if constant p
          then RegExp.replace_all re_la (replacement_of fields) str
          else RegExp.replace_first re_la (replacement_of fields) str),
         fst (merge fields result keys), snd (merge fields result keys), constant p) w2
    /\ (usePlaceholderStatistics env = false -> w2 = w1).
Proof.
  intros Happly Hla. unfold substitute.
  unfold bind at 1. cbn [emit]. fold (emitted w (Applied (name p) (Some result))).
  rewrite (bind_returned _ _ _ _ _ Happly).
  assert (Hcount : exists w2, count_use env (name p) w1 = Returned tt w2
                              /\ (usePlaceholderStatistics env = false -> w2 = w1)).
  { destruct (count_use_comes_back env (name p) w1) as ([] & w2 & Hc).
    exists w2. split; [exact Hc|]. intros Hoff. unfold count_use in Hc. rewrite Hoff in Hc.
    now inversion Hc. }
  destruct Hcount as (w2 & Hcount & Hsame).
  rewrite (bind_returned _ _ _ _ _ Hcount).
  unfold new_RegExp, call, bind. rewrite Hla. cbn [ret].
  exists w2. split; [|exact Hsame].
  unfold replacement_of. destruct (merge fields result keys). reflexivity.
Qed.

(** A constant directive without aliases and dependencies whose key is in
    the text: it is applied once and all its matches are replaced. *)
Lemma expand_constant_once (all : PlaceholderList) (key : string) (p : Placeholder)
    (str : string) (result : Context) (w w1 : World) (fields : JSObject.t string)
    (re re_la : RegExp.t) :
  0 < fuel ->
  aliases p = None -> dependencies p = None -> constant p = true ->
  RegExp.compile key = Some re -> RegExp.test re str = true ->
  RegExp.compile (key +:+ lookahead) = Some re_la ->
  missing_keys result (result_keys p) <> Some [] ->
  apply p str (Some result) (emitted w (Applied (name p) (Some result))) = Returned fields w1 ->
  exists w2,
    expand env fuel all (key, p) (str, result) w
    = Returned (RegExp.replace_all re_la (replacement_of fields) str,
                fst (merge fields result (missing_keys result (result_keys p)))) w2.
Proof.
  intros Hfuel Haliases Hdeps Hconst Hre Htest Hla Hmissing Happly.
  unfold expand. rewrite Haliases, Hdeps. cbn [matching].
  rewrite (bind_returned (ret []) _ w w [] eq_refl).
  unfold new_RegExp at 1, call, bind at 1. rewrite Hre. cbn [ret]. rewrite Htest.
  cbn [app dependency_keys].
  destruct (missing_keys result (result_keys p)) as [[|k ks]|] eqn:Hm; [congruence| |].
  all: destruct fuel as [|fuel']; [lia|].
  all: match goal with
       | |- context [for_of _ _ (_, _, ?ks)] =>
           destruct (substitute_spec p key str result ks w w1 fields re_la Happly Hla)
             as (w2 & Hsub & _);
           pose proof (still_matches_spec key re (str, result, ks) w Hre) as Hc
       end.
  all: rewrite Hconst in Hsub; cbn [fst] in Hc; rewrite Htest in Hc.
  all: pose proof (while_break fuel' _ _ _ _ _ _ _ Hc Hsub) as Hwhile.
  all: rewrite <- for_of_one in Hwhile.
  all: rewrite (bind_returned _ _ _ _ _ Hwhile); cbn [ret fst].
  all: now exists w2.
Qed.

(** The seed pass leaves the text alone: the context is absent, or each
    of its keys names no directive or a directive that is not in the
    text. *)
Definition seed_pass_idle (all : PlaceholderList) (str : string) (context : option Context)
  : bool :=
  match context with
  | Some c => forallb (fun kv => seed_idle all str (fst kv)) (JSObject.spread c [])
  | None => true
  end.

Lemma seed_pass_idle_spec (all : PlaceholderList) (str : string) (context : option Context)
    (w : World) :
  seed_pass_idle all str context = true ->
  match context with
  | Some _ =>
      for_of (JSObject.spread (match context with Some c => c | None => [] end) [])
             (seed env all) str
  | None => ret str
  end w = Returned str w.
Proof.
  destruct context as [c|]; [|reflexivity]. cbn [seed_pass_idle].
  induction (JSObject.spread c []) as [|[k v] l IH]; [reflexivity|].
  cbn [forallb for_of fst]. intros H. apply andb_prop in H as [Hk Hl].
  rewrite (bind_returned _ _ _ _ _ (seed_idle_spec all str k v w Hk)). apply IH, Hl.
Qed.

End Expansion.

(** ** C7: the flow-control directive for images *)

Definition images_key : string := "{{images" +:+ branches.

Lemma images_facts :
  exists re re_la,
    RegExp.compile images_key = Some re /\
    RegExp.test re "{{images:YES:NO}}" = true /\
    RegExp.compile (images_key +:+ lookahead) = Some re_la /\
    RegExp.replace_all re_la "YES" "{{images:YES:NO}}" = "YES" /\
    RegExp.replace_all re_la "NO" "{{images:YES:NO}}" = "NO" /\
    RegExp.replace_all re_la "" "{{images:YES:NO}}" = "" /\
    match_group re "{{images:YES:NO}}" 1 = Some "YES" /\
    match_group re "{{images:YES:NO}}" 4 = Some "NO".
Proof. do 2 eexists. repeat split; vm_compute; reflexivity. Qed.

Lemma image_selected (exts : list string) :
  In "png" exts -> some_file_ends_with "a.png,b.txt" exts = true.
Proof.
  intros H. unfold some_file_ends_with.
  change (JSString.split "," "a.png,b.txt") with ["a.png"; "b.txt"].
  cbn [existsb]. apply orb_true_iff. left.
  apply existsb_exists. exists "png". split; [exact H|reflexivity].
Qed.

Lemma no_image_selected (exts : list string) :
  forallb (fun ext => negb (JSString.endsWith "a.txt" ext)) exts = true ->
  some_file_ends_with "a.txt" exts = false.
Proof.
  intros H. unfold some_file_ends_with.
  change (JSString.split "," "a.txt") with ["a.txt"].
  cbn [existsb]. rewrite orb_false_r.
  induction exts as [|ext exts IH]; [reflexivity|].
  cbn [forallb existsb] in *. apply andb_prop in H as [Hext H].
  change (JSString.toLowerCase "a.txt") with "a.txt".
  apply negb_true_iff in Hext. rewrite Hext. apply IH, H.
Qed.

Lemma images_apply (env : Env) (selected : string) (w : World) :
  falsy (Some selected) = false ->
  apply (contentForImages env) "{{images:YES:NO}}" (Some [("selectedFiles", selected)]) w
  = Returned
      (let branch :=
         if some_file_ends_with selected (imageFileExtensions env) then "YES" else "NO" in
       [("result", branch); ("contentForImages", branch)]) w.
Proof.
  intros Hsel. destruct images_facts as (re & _ & Hre & _ & _ & _ & _ & _ & Hyes & Hno).
  cbn [apply contentForImages flow]. unfold flow_control.
  change (lookup (Some [("selectedFiles", selected)]) "selectedFiles") with (Some selected).
  rewrite Hsel. unfold new_RegExp, call, bind. fold images_key. rewrite Hre. cbn [ret].
  rewrite Hyes, Hno. cbn [or_empty].
  destruct (some_file_ends_with selected (imageFileExtensions env)); reflexivity.
Qed.

Lemma images_apply_unselected (env : Env) (w : World) :
  apply (contentForImages env) "{{images:YES:NO}}" (Some []) w
  = Returned [("result", ""); ("contentForImages", "")] w.
Proof. reflexivity. Qed.

Section Images.

Variable env : Env.
Variable placeholders : PlaceholderList.
Variable fuel : nat.
Variables pre post : PlaceholderList.

Hypothesis Hprocess : processPlaceholders env = true.
Hypothesis Hfuel : 0 < fuel.
Hypothesis Htable :
  sortedPlaceholders env placeholders
  = (pre ++ (images_key, contentForImages env) :: post)%list.
Hypothesis Hpre : forallb (inert "{{images:YES:NO}}") pre = true.

(** The expansion of the template once the context is in place and the
    seed pass is over: the directives before the one for images pass, this
    one is applied, and the directives after it see its result. *)
Lemma images_expansion (result : Context) (fields : JSObject.t string) (w w1 : World)
    (re_la : RegExp.t) :
  RegExp.compile (images_key +:+ lookahead) = Some re_la ->
  JSObject.has "contentForImages" result = false ->
  apply (contentForImages env) "{{images:YES:NO}}" (Some result)
        (emitted w (Applied "contentForImages" (Some result)))
  = Returned fields w1 ->
  forallb (inert (RegExp.replace_all re_la (replacement_of fields) "{{images:YES:NO}}")) post
  = true ->
  returns
    ((let* final :=
        for_of (sortedPlaceholders env placeholders)
               (expand env fuel (sortedPlaceholders env placeholders))
               ("{{images:YES:NO}}", result) in
      ret (fst final)) w)
    (RegExp.replace_all re_la (replacement_of fields) "{{images:YES:NO}}").
Proof.
  intros Hla Hnew Happly Hpost.
  destruct images_facts as (re & re_la' & Hre & Htest & Hla' & _).
  rewrite Hla in Hla'. injection Hla' as <-.
  set (all := sortedPlaceholders env placeholders). unfold all at 1. rewrite Htable.
  rewrite (bind_congr _ _ _ _ (for_of_inert env fuel all pre _ _ result w Hpre)).
  cbn [for_of].
  destruct (expand_constant_once env fuel all images_key (contentForImages env)
              "{{images:YES:NO}}" result w w1 fields re re_la Hfuel
              eq_refl eq_refl eq_refl Hre Htest Hla) as (w2 & Hexpand).
  - cbn [result_keys contentForImages flow missing_keys List.filter].
    rewrite Hnew. cbn [negb orb]. discriminate.
  - exact Happly.
  - rewrite (bind_bind_returned _ _ _ _ _ _ Hexpand).
    rewrite (bind_returned _ _ _ _ _ (for_of_all_inert env fuel all post _ _ w2 Hpost)).
    now exists w2.
Qed.

End Images.

(** C7: expanding [{{images:YES:NO}}] yields [YES] when the context field
    [selectedFiles] is [a.png,b.txt], [NO] when it is [a.txt], and the
    empty text when the context has no field [selectedFiles] (and none
    named after the directive, with nothing for the seed pass to
    substitute) or is absent.  The table in use holds the directive for
    images; the directives before it do not match the template, those
    after it do not match its result, and the directive named
    [selectedFiles], if there is one, is not in the template; [png] is an
    image extension and [a.txt] ends in none. *)
Theorem C7_images_by_selection
    (env : Env) (placeholders : PlaceholderList) (fuel : nat) (pre post : PlaceholderList)
    (w : World) :
  processPlaceholders env = true ->
  0 < fuel ->
  sortedPlaceholders env placeholders
  = (pre ++ (images_key, contentForImages env) :: post)%list ->
  forallb (inert "{{images:YES:NO}}") pre = true ->
  forallb (fun e => inert "YES" e && inert "NO" e && inert "" e) post = true ->
  seed_idle (sortedPlaceholders env placeholders) "{{images:YES:NO}}" "selectedFiles" = true ->
  In "png" (imageFileExtensions env) ->
  forallb (fun ext => negb (JSString.endsWith "a.txt" ext)) (imageFileExtensions env) = true ->
  returns (bulkApply env placeholders fuel "{{images:YES:NO}}"
             (Some [("selectedFiles", "a.png,b.txt")]) w) "YES" /\
  returns (bulkApply env placeholders fuel "{{images:YES:NO}}"
             (Some [("selectedFiles", "a.txt")]) w) "NO" /\
  (forall context,
     JSObject.has "selectedFiles" context = false ->
     JSObject.has "contentForImages" context = false ->
     seed_pass_idle (sortedPlaceholders env placeholders) "{{images:YES:NO}}" (Some context)
     = true ->
     returns (bulkApply env placeholders fuel "{{images:YES:NO}}" (Some context) w) "") /\
  returns (bulkApply env placeholders fuel "{{images:YES:NO}}" None w) "".
Proof.
  intros Hprocess Hfuel Htable Hpre Hpost Hseed Hpng Htxt.
  destruct images_facts as (re & re_la & Hre & Htest & Hla & Hyes & Hno & Hnone & _).
  assert (Hpost3 : forallb (inert "YES") post = true /\ forallb (inert "NO") post = true
                   /\ forallb (inert "") post = true).
  { clear -Hpost. induction post as [|e l IH]; [repeat split|].
    cbn [forallb] in *. apply andb_prop in Hpost as [He Hl].
    apply andb_prop in He as [He He3]. apply andb_prop in He as [He1 He2].
    destruct (IH Hl) as (H1 & H2 & H3). rewrite He1, He2, He3, H1, H2, H3. repeat split. }
  destruct Hpost3 as (Hpost1 & Hpost2 & Hpost3).
  assert (Hrun : forall result branch,
             JSObject.has "contentForImages" result = false ->
             (forall w0, apply (contentForImages env) "{{images:YES:NO}}" (Some result) w0
                         = Returned [("result", branch); ("contentForImages", branch)] w0) ->
             RegExp.replace_all re_la branch "{{images:YES:NO}}" = branch ->
             forallb (inert branch) post = true ->
             returns
               ((let* final :=
                   for_of (sortedPlaceholders env placeholders)
                          (expand env fuel (sortedPlaceholders env placeholders))
                          ("{{images:YES:NO}}", result) in
                 ret (fst final)) w) branch).
  { intros result branch Hnew Happly Hrepl Hinert.
    pose proof (images_expansion env placeholders fuel pre post Hfuel Htable Hpre result
                  _ w _ re_la Hla Hnew (Happly _)) as H.
    change (replacement_of [("result", branch); ("contentForImages", branch)])
      with branch in H.
    rewrite Hrepl in H. exact (H Hinert). }
  unfold bulkApply. rewrite Hprocess. cbn [negb].
  repeat split.
  - change (JSObject.spread [("selectedFiles", "a.png,b.txt")] [])
      with [("selectedFiles", "a.png,b.txt")].
    cbn [for_of].
    rewrite (bind_bind_returned _ _ _ _ _ _ (seed_idle_spec env _ _ _ "a.png,b.txt" w Hseed)).
    rewrite (bind_returned (ret _) _ w w _ eq_refl).
    apply Hrun; [reflexivity| |exact Hyes|exact Hpost1].
    intros w0. rewrite images_apply by reflexivity. now rewrite (image_selected _ Hpng).
  - change (JSObject.spread [("selectedFiles", "a.txt")] []) with [("selectedFiles", "a.txt")].
    cbn [for_of].
    rewrite (bind_bind_returned _ _ _ _ _ _ (seed_idle_spec env _ _ _ "a.txt" w Hseed)).
    rewrite (bind_returned (ret _) _ w w _ eq_refl).
    apply Hrun; [reflexivity| |exact Hno|exact Hpost2].
    intros w0. rewrite images_apply by reflexivity. now rewrite (no_image_selected _ Htxt).
  - intros context Hselected Hown Hidle.
    rewrite (bind_returned _ _ _ _ _
               (seed_pass_idle_spec env _ "{{images:YES:NO}}" (Some context) w Hidle)).
    assert (Habsent : forall k, JSObject.has k context = false ->
                                JSObject.get k (JSObject.spread context []) = None).
    { intros k Hk. rewrite JSObjectFacts.get_spread. cbn [JSObjectFacts.assigned].
      apply JSObjectFacts.assigned_not_in, JSObjectFacts.has_false_not_in, Hk. }
    apply Hrun; [|intros w0|exact Hnone|exact Hpost3].
    + unfold JSObject.has. now rewrite (Habsent _ Hown).
    + cbn [apply contentForImages flow]. unfold flow_control, lookup.
      now rewrite (Habsent _ Hselected).
  - change (JSObject.spread [] []) with (@nil (string * string)).
    rewrite (bind_returned (ret _) _ w w _ eq_refl).
    apply Hrun; [reflexivity| |exact Hnone|exact Hpost3].
    intros w0. apply images_apply_unselected.
Qed.

Definition table_hi : PlaceholderList := sortedPlaceholders env_hi (placeholders env_hi 2).

Lemma table_hi_around_images :
  sortedPlaceholders env_hi (placeholders env_hi 2)
  = (firstn 10 table_hi ++ (images_key, contentForImages env_hi) :: skipn 11 table_hi)%list.
Proof. unfold table_hi. table_compute. reflexivity. Qed.

Lemma C7_images_by_selection_witness :
  processPlaceholders env_hi = true /\
  0 < 1 /\
  sortedPlaceholders env_hi (placeholders env_hi 2)
  = (firstn 10 table_hi ++ (images_key, contentForImages env_hi) :: skipn 11 table_hi)%list /\
  forallb (inert "{{images:YES:NO}}") (firstn 10 table_hi) = true /\
  forallb (fun e => inert "YES" e && inert "NO" e && inert "" e) (skipn 11 table_hi) = true /\
  seed_idle (sortedPlaceholders env_hi (placeholders env_hi 2)) "{{images:YES:NO}}"
            "selectedFiles" = true /\
  In "png" (imageFileExtensions env_hi) /\
  forallb (fun ext => negb (JSString.endsWith "a.txt" ext)) (imageFileExtensions env_hi) = true /\
  returns (bulkApply env_hi (placeholders env_hi 2) 1 "{{images:YES:NO}}"
             (Some [("selectedFiles", "a.png,b.txt")]) world_a) "YES" /\
  returns (bulkApply env_hi (placeholders env_hi 2) 1 "{{images:YES:NO}}"
             (Some [("selectedFiles", "a.txt")]) world_a) "NO" /\
  (forall context,
     JSObject.has "selectedFiles" context = false ->
     JSObject.has "contentForImages" context = false ->
     seed_pass_idle (sortedPlaceholders env_hi (placeholders env_hi 2)) "{{images:YES:NO}}"
                    (Some context) = true ->
     returns (bulkApply env_hi (placeholders env_hi 2) 1 "{{images:YES:NO}}" (Some context)
                world_a) "") /\
  returns (bulkApply env_hi (placeholders env_hi 2) 1 "{{images:YES:NO}}" None world_a) "".
Proof.
  assert (H1 : forallb (inert "{{images:YES:NO}}") (firstn 10 table_hi) = true)
    by (vm_compute; reflexivity).
  assert (H2 : forallb (fun e => inert "YES" e && inert "NO" e && inert "" e)
                       (skipn 11 table_hi) = true)
    by (vm_compute; reflexivity).
  assert (H3 : seed_idle (sortedPlaceholders env_hi (placeholders env_hi 2))
                         "{{images:YES:NO}}" "selectedFiles" = true)
    by (vm_compute; reflexivity).
  assert (H4 : In "png" (imageFileExtensions env_hi)) by (now left).
  split; [reflexivity|]. split; [exact Nat.lt_0_1|]. split; [exact table_hi_around_images|].
  split; [exact H1|]. split; [exact H2|]. split; [exact H3|]. split; [exact H4|].
  split; [reflexivity|].
  apply (C7_images_by_selection env_hi (placeholders env_hi 2) 1
           (firstn 10 table_hi) (skipn 11 table_hi) world_a
           eq_refl Nat.lt_0_1 table_hi_around_images H1 H2 H3 H4 eq_refl).
Defined.

(** ** C9: a shell directive whose script fails *)

Definition shell_key : string := "{{shell( .*)?:(.|[ \n\r\s])*?}}".

Section ShellPattern.

Import RegExp RegExpFacts JSString JSStringFacts.

(** The compiled key, with what follows the script left open. *)
Definition shell_ast (tail : Regex) : Regex :=
  chars_then "{{shell"
    (Seq (Repeat 0 (Some 1) true (Group 1 (Seq (Char " ") (Repeat 0 None true Dot))))
       (Seq (Char ":")
          (Seq (Repeat 0 None false
                  (Group 2 (Alt Dot
                              (Class false [CChar " "; CChar "010"; CChar "013"; CEsc Space]))))
               tail))).

Definition closing : Regex := Seq (Char "}") (Char "}").
Definition closing_ahead : Regex := Seq (Char "}") (Seq (Char "}") (lookahead_ast 3)).

Lemma shell_key_compiles :
  compile shell_key = Some (mkRegExp (shell_ast closing) 2) /\
  compile (shell_key +:+ lookahead) = Some (mkRegExp (shell_ast closing_ahead) 3).
Proof. split; vm_compute; reflexivity. Qed.

Lemma line_terminator_in_class (c : ascii) :
  is_line_terminator c = true ->
  class_matches false [CChar " "; CChar "010"; CChar "013"; CEsc Space] c = true.
Proof. destruct c as [[] [] [] [] [] [] [] []]; intros H; try discriminate H; reflexivity. Qed.

Lemma script_character_takes_any :
  takes_any (m (Group 2 (Alt Dot
                           (Class false [CChar " "; CChar "010"; CChar "013"; CEsc Space])))
               true).
Proof.
  intros bef c rest caps k. cbn [m step_char before after captures].
  destruct (is_line_terminator c) eqn:Hc; cbn [negb].
  - rewrite (line_terminator_in_class c Hc). eexists. reflexivity.
  - match goal with |- context [k ?y] => destruct (k y) eqn:Hk end.
    + eexists. symmetry. exact Hk.
    + destruct (class_matches _ _ c); eexists; symmetry; exact Hk.
Qed.

(** The key matches a directive whose script has no closing brace, up to
    the two braces that follow the script. *)
Lemma shell_lands (tail : Regex) (bef s rest : string) (caps : list (option string)) :
  lacks "}" s = true ->
  (forall b caps',
     lands (m tail true (mkState b ("}}" +:+ rest) caps') Some) (String "}" (String "}" b)) rest) ->
  (forall b c aft caps' k,
     Ascii.eqb c "}" = false -> m tail true (mkState b (String c aft) caps') k = None) ->
  lands (m (shell_ast tail) true (mkState bef ("{{shell:" +:+ s +:+ "}}" +:+ rest) caps) Some)
        (rev_append ("{{shell:" +:+ s +:+ "}}") bef) rest.
Proof.
  intros Hs Hclose Hfail. unfold shell_ast.
  change ("{{shell:" +:+ s +:+ "}}" +:+ rest)
    with ("{{shell" +:+ String ":" (s +:+ "}}" +:+ rest)).
  rewrite m_chars_then_here.
  cbn [m]. rewrite repeat_optional_skip by reflexivity.
  cbn [step_char before after captures].
  change (Ascii.eqb ":" ":") with true. cbn iota.
  eapply repeat_lazy_until.
  - exact script_character_takes_any.
  - intros b c aft caps' Hc. apply Hfail, Hc.
  - exact Hs.
  - cbn [String.length]. rewrite length_append. lia.
  - intros caps'.
    replace (rev_append ("{{shell:" +:+ s +:+ "}}") bef)
      with (String "}" (String "}" (rev_append s (String ":" (rev_append "{{shell" bef))))).
    + apply Hclose.
    + change ("{{shell:" +:+ s +:+ "}}") with ("{{shell:" +:+ (s +:+ "}}")).
      rewrite !rev_append_append. reflexivity.
Qed.

Lemma closing_lands (rest b : string) (caps : list (option string)) :
  lands (m closing true (mkState b ("}}" +:+ rest) caps) Some) (String "}" (String "}" b)) rest.
Proof. eexists. reflexivity. Qed.

Lemma closing_ahead_lands (rest b : string) (caps : list (option string)) :
  lands (m closing_ahead true (mkState b ("}}" +:+ rest) caps) Some)
        (String "}" (String "}" b)) rest.
Proof.
  unfold closing_ahead. cbn [m step_char before after captures String.append].
  change (Ascii.eqb "}" "}") with true. cbn iota.
  destruct (lookahead_holds 3 (mkState (String "}" (String "}" b)) rest caps) Some)
    as [caps' ->].
  now exists caps'.
Qed.

Lemma closing_fails (tail : Regex) (b : string) (c : ascii) (aft : string)
    (caps : list (option string)) (k : Cont) :
  Ascii.eqb c "}" = false ->
  m (Seq (Char "}") tail) true (mkState b (String c aft) caps) k = None.
Proof.
  intros H. cbn [m step_char before after captures]. rewrite Ascii.eqb_sym, H. reflexivity.
Qed.

(** In a template [A{{shell:s}}B] whose surroundings have no opening brace
    and whose script has no closing brace, the leftmost match of the key
    is the directive. *)
Lemma shell_key_found (tail : Regex) (n : nat) (A s B : string) :
  lacks "{" A = true -> lacks "}" s = true ->
  (forall b caps,
     lands (m tail true (mkState b ("}}" +:+ B) caps) Some) (String "}" (String "}" b)) B) ->
  (forall b c aft caps k,
     Ascii.eqb c "}" = false -> m tail true (mkState b (String c aft) caps) k = None) ->
  exists groups,
    search (shell_ast tail) n "" (A +:+ ("{{shell:" +:+ s +:+ "}}") +:+ B)
    = Some (mkResult (rev_append A "") ("{{shell:" +:+ s +:+ "}}") B groups).
Proof.
  intros HA Hs Hclose Hfail.
  apply (search_found "{" _ n A ("{{shell:" +:+ s +:+ "}}") B HA).
  change (Seq (Char "{") _) with (shell_ast tail).
  replace (("{{shell:" +:+ s +:+ "}}") +:+ B) with ("{{shell:" +:+ s +:+ "}}" +:+ B).
  - now apply shell_lands.
  - change ("{{shell:" +:+ s +:+ "}}" +:+ B) with ("{{shell:" +:+ (s +:+ "}}" +:+ B)).
    change ("{{shell:" +:+ s +:+ "}}") with ("{{shell:" +:+ (s +:+ "}}")).
    now rewrite !append_assoc.
Qed.

End ShellPattern.

Module CaptureFacts.

Import JSString RegExp.

(** Matching keeps the number of capture slots: the state handed to the
    continuation has as many as the state the match starts from. *)
Definition keeps_slots (f : MatchState -> Cont -> option MatchState) : Prop :=
  forall x k z, f x k = Some z ->
    exists y, List.length (captures y) = List.length (captures x) /\ k y = Some z.

Lemma length_clear_captures (gs : list nat) (x : MatchState) :
  List.length (captures (clear_captures gs x)) = List.length (captures x).
Proof.
  unfold clear_captures. cbn [captures]. generalize (captures x) as caps.
  induction gs as [|g gs IH]; intros caps; [reflexivity|].
  cbn [fold_left]. rewrite IH. apply length_insert.
Qed.

Lemma step_char_keeps_slots (forward : bool) (p : ascii -> bool) :
  keeps_slots (step_char forward p).
Proof.
  intros [bef aft caps] k z. unfold step_char. cbn [before after captures].
  destruct forward.
  - destruct aft as [|c aft]; [discriminate|]. destruct (p c); [|discriminate].
    intros H. eexists. split; [|exact H]. reflexivity.
  - destruct bef as [|c bef]; [discriminate|]. destruct (p c); [|discriminate].
    intros H. eexists. split; [|exact H]. reflexivity.
Qed.

Lemma step_string_keeps_slots (forward : bool) (s : string) :
  keeps_slots (step_string forward s).
Proof.
  induction s as [|c s IH]; intros x k z H.
  - now exists x.
  - cbn [step_string] in H. apply step_char_keeps_slots in H as (y & Hy & H).
    apply IH in H as (y' & Hy' & H). exists y'. split; [congruence|exact H].
Qed.

Lemma repeat_keeps_slots (body : MatchState -> Cont -> option MatchState) (gs : list nat)
    (greedy : bool) (fuel : nat) :
  keeps_slots body ->
  forall mn mx, keeps_slots (fun x k => repeat body gs greedy k fuel mn mx x).
Proof.
  intros Hbody. induction fuel as [|fuel IH]; intros mn mx x k z H; [discriminate|].
  cbn [repeat] in H.
  assert (Hturn : forall z',
             body (clear_captures gs x)
                  (fun y => if Nat.eqb mn 0 && same_position x y then None
                            else repeat body gs greedy k fuel (Nat.pred mn) (pred_max mx) y)
             = Some z' ->
             exists y, List.length (captures y) = List.length (captures x) /\ k y = Some z').
  { intros z' Hz'. apply Hbody in Hz' as (y & Hy & Hd).
    destruct (Nat.eqb mn 0 && same_position x y); [discriminate|].
    apply IH in Hd as (y' & Hy' & Hk). exists y'. split; [|exact Hk].
    rewrite Hy', Hy. apply length_clear_captures. }
  destruct mx as [[|mx]|].
  - now exists x.
  - destruct (negb (Nat.eqb mn 0)); [now apply Hturn|]. destruct greedy.
    + destruct (body _ _) as [z'|] eqn:Hb; [injection H as <-; now apply Hturn|now exists x].
    + destruct (k x) as [z'|] eqn:Hk; [injection H as <-; now exists x|now apply Hturn].
  - destruct (negb (Nat.eqb mn 0)); [now apply Hturn|]. destruct greedy.
    + destruct (body _ _) as [z'|] eqn:Hb; [injection H as <-; now apply Hturn|now exists x].
    + destruct (k x) as [z'|] eqn:Hk; [injection H as <-; now exists x|now apply Hturn].
Qed.

Lemma m_keeps_slots (r : Regex) : forall forward, keeps_slots (m r forward).
Proof.
  induction r as [|c| |negated items|r1 IH1 r2 IH2|r1 IH1 r2 IH2|mn mx greedy r1 IH1
                  |i r1 IH1|ahead negated r1 IH1| | |negated|i];
    intros forward x k z H; cbn [m] in H.
  - now exists x.
  - now apply step_char_keeps_slots in H.
  - now apply step_char_keeps_slots in H.
  - now apply step_char_keeps_slots in H.
  - destruct forward.
    + apply IH1 in H as (y & Hy & H). apply IH2 in H as (y' & Hy' & H).
      exists y'. split; [congruence|exact H].
    + apply IH2 in H as (y & Hy & H). apply IH1 in H as (y' & Hy' & H).
      exists y'. split; [congruence|exact H].
  - destruct (m r1 forward x k) as [z'|] eqn:H1.
    + injection H as <-. now apply IH1 in H1.
    + now apply IH2 in H.
  - now apply (repeat_keeps_slots _ _ _ _ (IH1 forward)) in H.
  - apply IH1 in H as (y & Hy & H). eexists. split; [|exact H].
    unfold set_capture. cbn [captures]. now rewrite length_insert.
  - destruct (m r1 ahead x Some) as [y|] eqn:H1.
    + destruct negated; [discriminate|].
      apply IH1 in H1 as (y' & Hy' & [= <-]). eexists. split; [|exact H]. exact Hy'.
    + destruct negated; [now exists x|discriminate].
  - destruct (before x); [now exists x|discriminate].
  - destruct (after x); [now exists x|discriminate].
  - destruct (xorb _ _); [now exists x|discriminate].
  - destruct (captures x !! i) as [[s|]|]; [|now exists x|now exists x].
    now apply step_string_keeps_slots in H.
Qed.

(** Element 0 of a match is the matched text. *)
Lemma search_group_0 (r : Regex) (n : nat) (aft bef : string) (res : MatchResult) :
  search r n bef aft = Some res -> group res 0 = Some (matched res).
Proof.
  revert bef. induction aft as [|c aft IH]; intros bef H.
  - rewrite RegExpFacts.search_nil in H.
    destruct (m r true _ Some) as [y|] eqn:Hm; [|discriminate]. injection H as <-.
    apply m_keeps_slots in Hm as (y' & Hy' & [= ->]).
    cbn [captures] in Hy'. rewrite length_replicate in Hy'.
    unfold finish, group. cbn [result_groups matched].
    destruct (captures y) as [|g caps]; [discriminate|reflexivity].
  - rewrite RegExpFacts.search_cons in H.
    destruct (m r true _ Some) as [y|] eqn:Hm; [|now apply IH in H]. injection H as <-.
    apply m_keeps_slots in Hm as (y' & Hy' & [= ->]).
    cbn [captures] in Hy'. rewrite length_replicate in Hy'.
    unfold finish, group. cbn [result_groups matched].
    destruct (captures y) as [|g caps]; [discriminate|reflexivity].
Qed.

Lemma match_group_0 (re : t) (str : string) (res : MatchResult) :
  exec re str = Some res -> match_group re str 0 = Some (matched res).
Proof.
  intros H. unfold match_group. rewrite H. unfold exec in H.
  now apply search_group_0 in H.
Qed.

End CaptureFacts.

(** ** What the shell directive executes *)

Section ShellCall.

Import RegExp RegExpFacts JSString JSStringFacts.

Definition optional_shell : Regex :=
  Repeat 0 (Some 1) true (Group 1 (Seq (Char " ") (Repeat 0 None true Dot))).

Definition script_character : Regex :=
  Group 2 (Alt Dot (Class false [CChar " "; CChar "010"; CChar "013"; CEsc Space])).

Definition script_behind : Regex := chars_then "shell" (Seq optional_shell (Char ":")).

Definition script_ast : Regex :=
  Seq (Look false false script_behind)
      (Seq (Repeat 0 None false script_character) (Look true false closing)).

Definition bin_ast : Regex :=
  Seq (Look false false (chars "shell"))
      (Seq optional_shell
           (Look true false
                 (Seq (Char ":") (Seq (Repeat 0 None false script_character) closing)))).

Lemma shell_patterns :
  regex "(?<=shell( .*)?:)(.|[ \n\r\s])*?(?=}})" = mkRegExp script_ast 2 /\
  regex "(?<=shell)( .*)?(?=:(.|[ \n\r\s])*?}})" = mkRegExp bin_ast 2.
Proof. split; vm_compute; reflexivity. Qed.

(** The lookbehind of the script pattern fails where the character before
    the position is not a colon. *)
Lemma script_behind_needs_colon (bef aft : string) (caps : list (option string)) (k : Cont) :
  head_is (Ascii.eqb ":") bef = false ->
  m script_behind false (mkState bef aft caps) k = None.
Proof.
  intros H. unfold script_behind. cbn [chars_then m step_char before].
  destruct bef as [|c bef]; [reflexivity|]. cbn [head_is] in H. now rewrite H.
Qed.

Lemma script_search_skip (n : nat) (skipped : string) :
  forall (bef : string) (c : ascii) (rest : string),
    head_is (Ascii.eqb ":") bef = false ->
    lacks ":" skipped = true ->
    search script_ast n bef (skipped +:+ String c rest)
    = search script_ast n (String c (rev_append skipped bef)) rest.
Proof.
  induction skipped as [|a skipped IH]; intros bef c rest Hbef Hskipped.
  - cbn [String.append rev_append]. rewrite search_cons. unfold script_ast at 1. cbn [m].
    now rewrite (script_behind_needs_colon _ _ _ _ Hbef).
  - cbn [String.append rev_append]. rewrite search_cons. unfold script_ast at 1. cbn [m].
    rewrite (script_behind_needs_colon _ _ _ _ Hbef).
    cbn [lacks] in Hskipped. apply andb_prop in Hskipped as [Ha Hskipped].
    apply IH; [|exact Hskipped]. cbn [head_is]. rewrite Ascii.eqb_sym.
    now apply negb_true_iff in Ha.
Qed.

(** A greedy optional subterm does not stand in the way of what follows
    it. *)
Lemma repeat_optional_some (body : MatchState -> Cont -> option MatchState) (gs : list nat)
    (k : Cont) (fuel : nat) (x z : MatchState) :
  k x = Some z -> exists z', repeat body gs true k (S fuel) 0 (Some 1) x = Some z'.
Proof.
  intros H. cbn [repeat Nat.eqb negb]. destruct (body _ _) as [z'|]; [now exists z'|].
  now exists z.
Qed.

(** ... and holds after [shell:]. *)
Lemma script_behind_holds (b aft : string) (caps : list (option string)) :
  exists y,
    m script_behind false (mkState (String ":" (rev_append "shell" b)) aft caps) Some = Some y.
Proof.
  unfold script_behind. cbn [chars_then m step_char before after captures rev_append].
  change (Ascii.eqb ":" ":") with true. cbn iota.
  unfold optional_shell. cbn [m].
  eapply repeat_optional_some. cbn. reflexivity.
Qed.

(** The script is what lies between [shell:] and the closing braces. *)
Lemma script_lands (b s rest : string) (caps : list (option string)) :
  lacks "}" s = true ->
  lands (m script_ast true
           (mkState (String ":" (rev_append "shell" b)) (s +:+ "}}" +:+ rest) caps) Some)
        (rev_append s (String ":" (rev_append "shell" b))) ("}}" +:+ rest).
Proof.
  intros Hs. unfold script_ast. cbn [m].
  destruct (script_behind_holds b (s +:+ "}}" +:+ rest) caps) as [y ->].
  cbn [before after captures].
  eapply (repeat_lazy_until _ _ _ "}").
  - exact script_character_takes_any.
  - intros bef c aft caps' Hc. unfold closing. now rewrite (closing_fails _ _ _ _ _ _ Hc).
  - exact Hs.
  - rewrite length_append. lia.
  - intros caps'. cbn. eexists. reflexivity.
Qed.

Lemma script_found (A s B : string) :
  lacks ":" A = true -> lacks "}" s = true ->
  exists res,
    exec (mkRegExp script_ast 2) (A +:+ ("{{shell:" +:+ s +:+ "}}") +:+ B) = Some res /\
    matched res = s.
Proof.
  intros HA Hs. unfold exec. cbn [ast ngroups].
  replace (A +:+ ("{{shell:" +:+ s +:+ "}}") +:+ B)
    with ((A +:+ "{{shell") +:+ String ":" (s +:+ "}}" +:+ B)).
  - rewrite script_search_skip; [|reflexivity|rewrite lacks_append, HA; reflexivity].
    rewrite rev_append_append.
    destruct (script_lands (String "{" (String "{" (rev_append A ""))) s B
                (replicate 3 None) Hs) as [caps Hm].
    cbn [rev_append] in Hm |- *.
    rewrite (search_here _ _ _ _ _ Hm). eexists. split; [reflexivity|].
    unfold finish. cbn [matched after]. apply take_matched.
  - rewrite !append_assoc. reflexivity.
Qed.


(** A pattern that opens with a lookbehind for a literal has no match
    that starts in a text no position of which the literal precedes. *)
Lemma search_behind_skip (token : string) (r : Regex) (n : nat) (skipped : string) :
  forall (bef : string) (c : ascii) (rest : string),
    never_after (rev token) bef skipped = true ->
    search (Seq (Look false false (chars token)) r) n bef (skipped +:+ String c rest)
    = search (Seq (Look false false (chars token)) r) n (String c (rev_append skipped bef)) rest.
Proof.
  induction skipped as [|a skipped IH]; intros bef c rest H; cbn [never_after] in H;
    apply andb_prop in H as [Hhere H]; apply negb_true_iff in Hhere;
    cbn [String.append rev_append]; rewrite search_cons; cbn [m];
    rewrite m_chars_backward; cbn [before]; rewrite Hhere.
  - reflexivity.
  - now apply IH.
Qed.

(** The shell named in the directive: none in [{{shell:s}}]. *)
Lemma bin_lands (b s rest : string) (caps : list (option string)) :
  lacks "}" s = true ->
  lands (m bin_ast true
           (mkState (rev_append "shell" b) (String ":" (s +:+ "}}" +:+ rest)) caps) Some)
        (rev_append "shell" b) (String ":" (s +:+ "}}" +:+ rest)).
Proof.
  intros Hs. unfold bin_ast. cbn [m]. rewrite m_chars_backward.
  cbn [before after captures rev rev_append startsWith Ascii.eqb Bool.eqb String.length drop
       String.append].
  unfold optional_shell. cbn [m]. rewrite repeat_optional_skip by reflexivity.
  cbn [m step_char before after captures].
  change (Ascii.eqb ":" ":") with true. cbn iota.
  match goal with
  | |- lands (match ?o with _ => _ end) _ _ =>
      assert (Hin : lands o (String "}" (String "}" (rev_append s (String ":" (rev_append "shell" b)))))
                          rest)
  end.
  { eapply (repeat_lazy_until _ _ _ "}").
    - exact script_character_takes_any.
    - intros bef c aft caps' Hc. unfold closing. now rewrite (closing_fails _ _ _ _ _ _ Hc).
    - exact Hs.
    - cbn [String.length]. rewrite length_append. lia.
    - intros caps'. apply closing_lands. }
  destruct Hin as [caps' ->]. eexists. reflexivity.
Qed.

Lemma bin_found (A s B : string) :
  JSString.includes "shell" A = false -> lacks "}" s = true ->
  exists res,
    exec (mkRegExp bin_ast 2) (A +:+ ("{{shell:" +:+ s +:+ "}}") +:+ B) = Some res /\
    matched res = "".
Proof.
  intros HA Hs. unfold exec. cbn [ast ngroups].
  replace (A +:+ ("{{shell:" +:+ s +:+ "}}") +:+ B)
    with (A +:+ String "{" ("{shell" +:+ String ":" (s +:+ "}}" +:+ B)))
    by (rewrite !append_assoc; reflexivity).
  unfold bin_ast at 1.
  rewrite search_behind_skip by (apply (never_after_includes "shell" "" A); exact HA).
  fold bin_ast. cbn [String.append].
  do 6 (rewrite search_cons; unfold bin_ast at 1; cbn [m]; rewrite m_chars_backward;
        cbn [before rev rev_append startsWith Ascii.eqb Bool.eqb]; fold bin_ast).
  destruct (bin_lands (String "{" (String "{" (rev_append A ""))) s B (replicate 3 None) Hs)
    as [caps Hm].
  cbn [rev_append String.append] in Hm |- *.
  rewrite (search_here _ _ _ _ _ Hm). eexists. split; [reflexivity|].
  unfold finish. cbn [matched after]. now rewrite Nat.sub_diag.
Qed.

End ShellCall.

(** In a template [A{{shell:s}}B] whose text [A] holds neither a colon nor
    the word [shell], and whose script has no closing brace, the directive
    runs [s], behind the export of the path when the setting asks for it,
    in [/bin/zsh]. *)
Lemma shell_call (env : Env) (A s B : string) :
  JSStringFacts.lacks ":" A = true ->
  JSString.includes "shell" A = false ->
  JSStringFacts.lacks "}" s = true ->
  shell_bin (A +:+ ("{{shell:" +:+ s +:+ "}}") +:+ B) = "/bin/zsh" /\
  shell_script env (A +:+ ("{{shell:" +:+ s +:+ "}}") +:+ B)
  = (if useUserShellEnvironment env
     then "export PATH=$(/bin/zsh -ilc " +:+ dq +:+ "echo -n \$PATH" +:+ dq +:+ ") &&"
     else "") +:+ s.
Proof.
  intros Hcolon Hshell Hs.
  destruct shell_patterns as [Hscript Hbin].
  destruct (script_found A s B Hcolon Hs) as (res & Hres & Hs').
  destruct (bin_found A s B Hshell Hs) as (res' & Hres' & Hb).
  assert (Hbin' : shell_bin (A +:+ ("{{shell:" +:+ s +:+ "}}") +:+ B) = "/bin/zsh").
  { unfold shell_bin. rewrite Hbin, (CaptureFacts.match_group_0 _ _ _ Hres'), Hb. reflexivity. }
  split; [exact Hbin'|].
  unfold shell_script. rewrite Hbin', Hscript, (CaptureFacts.match_group_0 _ _ _ Hres), Hs'.
  reflexivity.
Qed.

(** The patterns of the directive are looked for in the whole text: an
    earlier [shell:] in the template is where the script starts. *)
Lemma shell_script_starts_at_first_token :
  shell_script env_hi "shell:x {{shell:false}}B" = "x {{shell:false".
Proof. vm_compute. reflexivity. Qed.

Section ExpansionOfOne.

Variable env : Env.
Variable fuel : nat.

(** A directive without aliases and dependencies that is not constant,
    whose key is in the text once: it is applied once, its match is
    replaced, and the loop ends as the key no longer matches. *)
Lemma expand_once (all : PlaceholderList) (key : string) (p : Placeholder)
    (str str' : string) (result : Context) (w w1 : World) (fields : JSObject.t string)
    (re re_la : RegExp.t) :
  1 < fuel ->
  aliases p = None -> dependencies p = None -> constant p = false ->
  RegExp.compile key = Some re -> RegExp.test re str = true ->
  RegExp.compile (key +:+ lookahead) = Some re_la ->
  missing_keys result (result_keys p) <> Some [] ->
  apply p str (Some result) (emitted w (Applied (name p) (Some result))) = Returned fields w1 ->
  RegExp.replace_first re_la (replacement_of fields) str = str' ->
  RegExp.test re str' = false ->
  exists w2,
    expand env fuel all (key, p) (str, result) w
    = Returned (str', fst (merge fields result (missing_keys result (result_keys p)))) w2.
Proof.
  intros Hfuel Haliases Hdeps Hconst Hre Htest Hla Hmissing Happly Hrepl Hgone.
  unfold expand. rewrite Haliases, Hdeps. cbn [matching].
  rewrite (bind_returned (ret []) _ w w [] eq_refl).
  unfold new_RegExp at 1, call, bind at 1. rewrite Hre. cbn [ret]. rewrite Htest.
  cbn [app dependency_keys].
  destruct fuel as [|[|fuel']]; [lia|lia|].
  set (keys := missing_keys result (result_keys p)) in *.
  destruct (substitute_spec env p key str result keys w w1 fields re_la Happly Hla)
    as (w2 & Hsub & _).
  rewrite Hconst, Hrepl in Hsub.
  pose proof (still_matches_spec key re (str, result, keys) w Hre) as Hc.
  cbn [fst] in Hc. rewrite Htest in Hc.
  pose proof (still_matches_spec key re
                (str', fst (merge fields result keys), snd (merge fields result keys)) w2 Hre)
    as Hc'.
  cbn [fst] in Hc'. rewrite Hgone in Hc'.
  pose proof (while_again (S fuel') _ _ _ _ _ _ _ Hc Hsub) as Hwhile.
  rewrite (while_done fuel' _ _ _ _ _ Hc') in Hwhile.
  rewrite <- for_of_one in Hwhile.
  assert (Hgoal : (let* final :=
                     for_of [key]
                            (fun newKey =>
                               while (S (S fuel')) (still_matches newKey)
                                     (substitute env p newKey))
                            (str, result, keys) in
                   ret (fst final)) w
                  = Returned (str', fst (merge fields result keys)) w2).
  { rewrite (bind_returned _ _ _ _ _ Hwhile). reflexivity. }
  exists w2. destruct keys as [[|k ks]|]; [congruence|exact Hgoal|exact Hgoal].
Qed.

End ExpansionOfOne.

Lemma shell_apply_raises (env : Env) (str : string) (context : option Context) (w : World) :
  execSync env (shell_script env str) (shell_bin str) = None ->
  exists w1, apply (shell env) str context w = Returned [("result", ""); ("shell", "")] w1.
Proof.
  intros Hraise. cbn [apply shell]. unfold try_catch.
  destruct (falsy (Some (shell_script env str))); [now exists w|].
  unfold bind, emit, call. rewrite Hraise. cbn [throw].
  eexists. reflexivity.
Qed.


Definition env_sh : Env := {|
  processPlaceholders := true;
  allowCustomPlaceholders := true;
  useUserShellEnvironment := true;
  usePlaceholderStatistics := true;
  imageFileExtensions := ["png"; "jpg"];
  videoFileExtensions := ["mp4"; "mov"];
  audioFileExtensions := ["mp3"; "wav"];
  filterString := fun s => s;
  randomUUID := fun n => JSNumber.toString (JSNumber.Int (Z.of_nat n));
  execSync := fun script _ => if JSString.endsWith script "false" then None else Some "done";
  frontmostApplicationName := Some "Safari";
  runJSInActiveTab := fun _ _ => Some "text";
  customPlaceholderFiles := []
|}.

Definition table_sh : PlaceholderList := sortedPlaceholders env_sh (placeholders env_sh 2).

Lemma table_sh_around_shell :
  sortedPlaceholders env_sh (placeholders env_sh 2)
  = (firstn 21 table_sh ++ (shell_key, shell env_sh) :: skipn 22 table_sh)%list.
Proof. unfold table_sh. table_compute. reflexivity. Qed.



(** The directive after the failing one is worked as usual. *)
Lemma shell_failure_then_set :
  returns (bulkApply env_sh (placeholders env_sh 2) 2
             "Run: {{shell:false}}{{set a:b}} done" None world_a)
          "Run:  done".
Proof. eexists. vm_compute. reflexivity. Qed.

(** ** C8: two occurrences of the unique-id directive *)

Section UniqueIds.

Variable env : Env.

(** The random source never yields the same value twice. *)
Definition never_repeats : Prop :=
  forall i j, randomUUID env i = randomUUID env j -> i = j.

Lemma includes_In (x : string) (xs : list string) : includes x xs = true <-> In x xs.
Proof.
  unfold includes. rewrite existsb_exists. split.
  - intros (y & Hy & Heq). apply String.eqb_eq in Heq. now subst.
  - intros H. exists x. split; [exact H|apply String.eqb_refl].
Qed.

(** Among any [length ids + 1] successive draws, one is not in [ids]. *)
Lemma fresh_draw_exists (ids : list string) (d : nat) :
  never_repeats ->
  exists j, j <= List.length ids /\ includes (randomUUID env (d + j)) ids = false.
Proof.
  intros Hinj.
  assert (Hdec : forall n,
             (exists j, j <= n /\ includes (randomUUID env (d + j)) ids = false)
             \/ (forall j, j <= n -> includes (randomUUID env (d + j)) ids = true)).
  { induction n as [|n [IH|IH]].
    - destruct (includes (randomUUID env (d + 0)) ids) eqn:H0.
      + right. intros j Hj. now replace j with 0 by lia.
      + left. exists 0. split; [lia|exact H0].
    - left. destruct IH as (j & Hj & Hfresh). exists j. split; [lia|exact Hfresh].
    - destruct (includes (randomUUID env (d + S n)) ids) eqn:Hn.
      + right. intros j Hj. destruct (Nat.eq_dec j (S n)) as [->|]; [exact Hn|apply IH; lia].
      + left. exists (S n). split; [lia|exact Hn]. }
  destruct (Hdec (List.length ids)) as [H|H]; [exact H|exfalso].
  set (draws := List.map (fun j => randomUUID env (d + j)) (List.seq 0 (S (List.length ids)))).
  assert (Hnodup : List.NoDup draws).
  { unfold draws. generalize (List.seq_NoDup (S (List.length ids)) 0).
    generalize (List.seq 0 (S (List.length ids))) as l.
    induction l as [|i l IHl]; intros Hl; [constructor|].
    apply List.NoDup_cons_iff in Hl as [Hi Hl]. cbn [List.map].
    apply List.NoDup_cons_iff. split; [|now apply IHl].
    intros Hin. apply List.in_map_iff in Hin as (j & Heq & Hj).
    apply Hinj in Heq. assert (j = i) by lia. now subst. }
  assert (Hincl : List.incl draws ids).
  { intros u Hu. unfold draws in Hu. apply List.in_map_iff in Hu as (j & <- & Hj).
    apply List.in_seq in Hj. apply includes_In, H. lia. }
  pose proof (List.NoDup_incl_length Hnodup Hincl) as Hlen.
  unfold draws in Hlen. rewrite List.length_map, List.length_seq in Hlen. lia.
Qed.

Definition with_drawn (w : World) (n : nat) : World :=
  mkWorld (localStorage w) (persistentVariables w) (usedUUIDs w) n (events w).

(** The loop that draws until the value is not among the used ones. *)
Lemma draw_until_fresh (ids : list string) (j : nat) :
  forall (fuel d : nat) (w : World),
    j < fuel ->
    includes (randomUUID env (d + j)) ids = false ->
    exists j',
      while fuel (fun id => ret (includes id ids))
            (fun _ => let* id := draw env in ret (id, false))
            (randomUUID env d) (with_drawn w (S d))
      = Returned (randomUUID env (d + j')) (with_drawn w (S (d + j')))
      /\ includes (randomUUID env (d + j')) ids = false.
Proof.
  induction j as [|j IH]; intros fuel d w Hfuel Hfresh.
  - destruct fuel as [|fuel]; [lia|]. exists 0.
    rewrite Nat.add_0_r in *. split; [|exact Hfresh].
    apply while_done. unfold ret. now rewrite Hfresh.
  - destruct fuel as [|fuel]; [lia|].
    destruct (includes (randomUUID env d) ids) eqn:Hd.
    + destruct (IH fuel (S d) w) as (j' & Hloop & Hj'); [lia| |].
      * now replace (S d + j) with (d + S j) by lia.
      * exists (S j'). replace (d + S j') with (S d + j') by lia. split; [|exact Hj'].
        rewrite <- Hloop. apply while_again with (w1 := with_drawn w (S d)).
        -- unfold ret. now rewrite Hd.
        -- reflexivity.
    + exists 0. rewrite Nat.add_0_r. split; [|exact Hd].
      apply while_done. unfold ret. now rewrite Hd.
Qed.

Definition used (w : World) : list string :=
  match usedUUIDs w with
  | Some ids => ids
  | None => []
  end.

(** The random source may repeat itself, but wherever one starts to draw,
    one of the next [fuel] values is not in a given list of up to [bound]
    values. *)
Definition finds_fresh (fuel bound : nat) : Prop :=
  forall (ids : list string) (d : nat),
    List.length ids <= bound ->
    exists j, j < fuel /\ includes (randomUUID env (d + j)) ids = false.

Lemma never_repeats_finds_fresh (fuel bound : nat) :
  never_repeats -> bound < fuel -> finds_fresh fuel bound.
Proof.
  intros Hinj Hfuel ids d Hids.
  destruct (fresh_draw_exists ids d Hinj) as (j & Hj & Hfresh).
  exists j. split; [lia|exact Hfresh].
Qed.

Lemma finds_fresh_fewer (fuel bound bound' : nat) :
  bound' <= bound -> finds_fresh fuel bound -> finds_fresh fuel bound'.
Proof. intros Hle H ids d Hids. apply H. lia. Qed.

(** What one evaluation of the directive does: it returns a value that is
    not among the used ones and records it as used. *)
Lemma uuid_apply_fresh (fuel : nat) (str : string) (context : option Context) (w : World) :
  finds_fresh fuel (List.length (used w)) ->
  exists u w',
    apply (uuid env fuel) str context w = Returned [("result", u); ("uuid", u)] w' /\
    includes u (used w) = false /\
    usedUUIDs w' = Some (used w ++ [u])%list /\
    persistentVariables w' = persistentVariables w /\
    (exists n, u = randomUUID env n).
Proof.
  intros Hfinds. cbn [apply uuid]. unfold used in *.
  unfold bind at 1. unfold draw at 1. unfold bind at 1. unfold Store.getUsedUUIDs at 1.
  cbn [usedUUIDs]. destruct (usedUUIDs w) as [ids|] eqn:Hused.
  - destruct (Hfinds ids (drawn w) (le_n _)) as (j & Hj & Hfresh).
    destruct (draw_until_fresh ids j fuel (drawn w) w Hj Hfresh)
      as (j' & Hloop & Hfresh').
    unfold with_drawn in Hloop. rewrite Hused in Hloop.
    unfold bind at 1. unfold bind at 1. rewrite Hloop.
    do 2 eexists. split; [reflexivity|]. cbn.
    split; [exact Hfresh'|]. split; [reflexivity|]. split; [reflexivity|]. now eexists.
  - do 2 eexists. split; [reflexivity|]. cbn.
    split; [reflexivity|]. split; [reflexivity|]. split; [reflexivity|]. now eexists.
Qed.

Lemma uuid_apply (fuel : nat) (str : string) (context : option Context) (w : World) :
  never_repeats ->
  List.length (used w) < fuel ->
  exists u w',
    apply (uuid env fuel) str context w = Returned [("result", u); ("uuid", u)] w' /\
    includes u (used w) = false /\
    usedUUIDs w' = Some (used w ++ [u])%list /\
    persistentVariables w' = persistentVariables w /\
    (exists n, u = randomUUID env n).
Proof.
  intros Hinj Hfuel. apply uuid_apply_fresh. now apply never_repeats_finds_fresh.
Qed.

End UniqueIds.

Definition uuid_key : string := "{{uuid}}".

Section UniqueIdPattern.

Import JSString RegExp JSStringFacts RegExpFacts.

Definition uuid_ast : Regex := Seq (Char "{") (chars_then "{uuid}" (Char "}")).
Definition uuid_ahead_ast : Regex := Seq (Char "{") (chars_then "{uuid}}" (lookahead_ast 1)).
Definition uuid_alias_ast : Regex := Seq (Char "{") (chars_then "{UUID}" (Char "}")).

Lemma uuid_key_compiles :
  compile uuid_key = Some (mkRegExp uuid_ast 0) /\
  compile (uuid_key +:+ lookahead) = Some (mkRegExp uuid_ahead_ast 1) /\
  compile "{{UUID}}" = Some (mkRegExp uuid_alias_ast 0).
Proof. repeat split; vm_compute; reflexivity. Qed.

Lemma uuid_lands (bef rest : string) (caps : list (option string)) :
  lands (m uuid_ast true (mkState bef (uuid_key +:+ rest) caps) Some)
        (rev_append uuid_key bef) rest.
Proof.
  change uuid_ast with (chars_then "{{uuid}" (Char "}")).
  change (uuid_key +:+ rest) with ("{{uuid}" +:+ String "}" rest).
  rewrite m_chars_then_here. cbn. eexists. reflexivity.
Qed.

Lemma uuid_ahead_lands (bef rest : string) (caps : list (option string)) :
  lands (m uuid_ahead_ast true (mkState bef (uuid_key +:+ rest) caps) Some)
        (rev_append uuid_key bef) rest.
Proof.
  change uuid_ahead_ast with (chars_then "{{uuid}}" (lookahead_ast 1)).
  unfold uuid_key. rewrite m_chars_then_here.
  destruct (lookahead_holds 1 (mkState (rev_append "{{uuid}}" bef) rest caps) Some)
    as [caps' H].
  rewrite H. eexists. reflexivity.
Qed.

(** The key is found behind a prefix without opening brace. *)
Lemma uuid_test (skipped rest : string) :
  lacks "{" skipped = true ->
  test (mkRegExp uuid_ast 0) (skipped +:+ uuid_key +:+ rest) = true.
Proof.
  intros H. unfold test, exec. cbn [ast ngroups].
  destruct (search_found "{" _ 0 skipped uuid_key rest H (uuid_lands _ _ _)) as [groups Hs].
  unfold uuid_ast. now rewrite Hs.
Qed.

(** ... and its first occurrence is the one replaced. *)
Lemma uuid_replace (skipped rest u : string) :
  lacks "{" skipped = true -> lacks "$" u = true ->
  replace_first (mkRegExp uuid_ahead_ast 1) u (skipped +:+ uuid_key +:+ rest)
  = skipped +:+ u +:+ rest.
Proof.
  intros H Hu.
  destruct (search_found "{" _ 1 skipped uuid_key rest H (uuid_ahead_lands _ _ _))
    as [groups Hs].
  now apply (replace_first_found _ u _ skipped uuid_key rest groups).
Qed.

Lemma uuid_gone (text : string) :
  lacks "{" text = true -> test (mkRegExp uuid_ast 0) text = false.
Proof.
  intros H. unfold test, exec. cbn [ast ngroups]. unfold uuid_ast.
  now rewrite search_lacks.
Qed.

(** The alias, in capitals, does not match the key. *)
Lemma uuid_alias_skip (bef skipped rest : string) :
  lacks "{" skipped = true ->
  search uuid_alias_ast 0 bef (skipped +:+ uuid_key +:+ rest)
  = search uuid_alias_ast 0 (rev_append uuid_key (rev_append skipped bef)) rest.
Proof.
  intros H. unfold uuid_alias_ast. rewrite (search_skip "{" _ 0 skipped bef _ H).
  unfold uuid_key. cbn [String.append].
  do 8 (rewrite search_cons; cbn [m chars_then step_char before after captures Ascii.eqb Bool.eqb]).
  reflexivity.
Qed.

Lemma uuid_alias_idle (A B C : string) :
  lacks "{" A = true -> lacks "{" B = true -> lacks "{" C = true ->
  no_match "{{UUID}}" (A +:+ uuid_key +:+ B +:+ uuid_key +:+ C) = true.
Proof.
  intros HA HB HC. unfold no_match.
  destruct uuid_key_compiles as (_ & _ & ->).
  unfold test, exec. cbn [ast ngroups].
  rewrite (uuid_alias_skip _ A _ HA), (uuid_alias_skip _ B _ HB).
  unfold uuid_alias_ast. now rewrite search_lacks.
Qed.

End UniqueIdPattern.

Section TwoUniqueIds.

Import JSStringFacts.

Variable env : Env.
Variables fuel fuel_u : nat.

(** The values drawn hold neither an opening brace nor a dollar sign (the
    values of [crypto.randomUUID] are made of hexadecimal digits and
    hyphens). *)
Definition plain_ids : Prop :=
  forall n, lacks "{" (randomUUID env n) = true /\ lacks "$" (randomUUID env n) = true.

Lemma count_use_keeps_used (name : string) (w w' : World) :
  count_use env name w = Returned tt w' -> usedUUIDs w' = usedUUIDs w.
Proof.
  unfold count_use. destruct (usePlaceholderStatistics env); [|now intros [= <-]].
  unfold bind, Store.getPersistentVariable, Store.setPersistentVariable, Store.getVariables,
    Store.setVariables, bind, ret.
  destruct (find _ (persistentVariables w)); cbn; destruct (find _ (persistentVariables w));
    now intros [= <-].
Qed.

(** One turn of the inner loop on a text that holds the key behind a
    prefix without opening brace. *)
Lemma uuid_turn (skipped rest : string) (result : Context) (w : World) :
  finds_fresh env fuel_u (List.length (used w)) -> plain_ids ->
  lacks "{" skipped = true ->
  exists u result' w2,
    substitute env (uuid env fuel_u) uuid_key
               (skipped +:+ uuid_key +:+ rest, result, None) w
    = Returned (skipped +:+ u +:+ rest, result', None, false) w2 /\
    includes u (used w) = false /\
    used w2 = (used w ++ [u])%list /\
    lacks "{" u = true.
Proof.
  intros Hfinds Hplain Hskipped.
  destruct (uuid_apply_fresh env fuel_u (skipped +:+ uuid_key +:+ rest) (Some result)
              (emitted w (Applied "uuid" (Some result))) Hfinds)
    as (u & w1 & Happly & Hfresh & Hused & _ & n & Hu).
  destruct (Hplain n) as [Hbrace Hdollar]. rewrite <- Hu in Hbrace, Hdollar.
  destruct (count_use_comes_back env "uuid" w1) as ([] & w2 & Hcount).
  destruct uuid_key_compiles as (_ & Hla & _).
  exists u, (JSObject.set "uuid" u (JSObject.set "result" u result)), w2.
  split; [|split; [exact Hfresh|split; [|exact Hbrace]]].
  - unfold substitute. unfold bind at 1. cbn [emit name uuid].
    fold (emitted w (Applied "uuid" (Some result))).
    rewrite (bind_returned _ _ _ _ _ Happly), (bind_returned _ _ _ _ _ Hcount).
    unfold new_RegExp, call, bind. rewrite Hla. cbn [ret constant uuid].
    cbn [JSObject.get String.eqb Ascii.eqb Bool.eqb merge fold_left fst snd].
    now rewrite (uuid_replace skipped rest u Hskipped Hdollar).
  - unfold used at 1. rewrite (count_use_keeps_used _ _ _ Hcount), Hused. reflexivity.
Qed.

(** The directive on a text that holds its key twice: two turns, two
    values, the second one not equal to the first, which is among the
    used ones when it is drawn. *)
Lemma expand_uuid_twice (all : PlaceholderList) (A B C : string) (result : Context)
    (w : World) :
  2 < fuel ->
  finds_fresh env fuel_u (List.length (used w) + 1) -> plain_ids ->
  lacks "{" A = true -> lacks "{" B = true -> lacks "{" C = true ->
  exists u1 u2 result' w',
    expand env fuel all (uuid_key, uuid env fuel_u)
           (A +:+ uuid_key +:+ B +:+ uuid_key +:+ C, result) w
    = Returned (A +:+ u1 +:+ B +:+ u2 +:+ C, result') w' /\
    lacks "{" (A +:+ u1 +:+ B +:+ u2 +:+ C) = true /\
    u1 <> u2.
Proof.
  intros Hfuel Hfinds Hplain HA HB HC.
  destruct uuid_key_compiles as (Hre & _ & _).
  destruct (uuid_turn A (B +:+ uuid_key +:+ C) result w
              (finds_fresh_fewer env fuel_u _ _ (Nat.le_add_r _ 1) Hfinds) Hplain HA)
    as (u1 & result1 & w1 & Hturn1 & _ & Hused1 & Hbrace1).
  assert (HAB : lacks "{" (A +:+ u1 +:+ B) = true).
  { now rewrite !lacks_append, HA, Hbrace1, HB. }
  destruct (uuid_turn (A +:+ u1 +:+ B) C result1 w1
              ltac:(rewrite Hused1, List.length_app; exact Hfinds) Hplain HAB)
    as (u2 & result2 & w2 & Hturn2 & Hfresh2 & _ & Hbrace2).
  rewrite !append_assoc in Hturn2.
  assert (Hout : lacks "{" (A +:+ u1 +:+ B +:+ u2 +:+ C) = true).
  { now rewrite !lacks_append, HA, Hbrace1, HB, Hbrace2, HC. }
  exists u1, u2, result2, w2. split; [|split; [exact Hout|]].
  - unfold expand. cbn [aliases dependencies result_keys uuid fst snd].
    rewrite (bind_returned _ _ _ _ _
               (matching_no_match ["{{UUID}}"] _ w
                  ltac:(cbn [forallb]; now rewrite (uuid_alias_idle A B C HA HB HC)))).
    unfold new_RegExp at 1, call, bind at 1. rewrite Hre. cbn [ret].
    rewrite (uuid_test A _ HA). cbn [app dependency_keys missing_keys].
    destruct fuel as [|[|[|fuel']]]; [lia|lia|lia|].
    pose proof (still_matches_spec uuid_key _
                  (A +:+ uuid_key +:+ B +:+ uuid_key +:+ C, result, None) w Hre) as Hc0.
    cbn [fst] in Hc0. rewrite (uuid_test A _ HA) in Hc0.
    pose proof (still_matches_spec uuid_key _
                  (A +:+ u1 +:+ B +:+ uuid_key +:+ C, result1, None) w1 Hre) as Hc1.
    cbn [fst] in Hc1.
    replace (A +:+ u1 +:+ B +:+ uuid_key +:+ C) with ((A +:+ u1 +:+ B) +:+ uuid_key +:+ C)
      in Hc1 at 2 by now rewrite !append_assoc.
    rewrite (uuid_test _ C HAB) in Hc1.
    pose proof (still_matches_spec uuid_key _
                  (A +:+ u1 +:+ B +:+ u2 +:+ C, result2, None) w2 Hre) as Hc2.
    cbn [fst] in Hc2. rewrite (uuid_gone _ Hout) in Hc2.
    pose proof (while_again (S (S fuel')) _ _ _ _ _ _ _ Hc0 Hturn1) as Hwhile.
    rewrite (while_again (S fuel') _ _ _ _ _ _ _ Hc1 Hturn2) in Hwhile.
    rewrite (while_done fuel' _ _ _ _ _ Hc2) in Hwhile.
    rewrite <- for_of_one in Hwhile.
    rewrite (bind_returned _ _ _ _ _ Hwhile). reflexivity.
  - intros ->. rewrite Hused1 in Hfresh2. unfold includes in Hfresh2.
    rewrite existsb_app in Hfresh2. cbn [existsb] in Hfresh2.
    rewrite String.eqb_refl in Hfresh2. now destruct (existsb _ (used w)).
Qed.

End TwoUniqueIds.

(** The pattern begins with an opening brace. *)
Definition begins_with_brace (source : string) : bool :=
  match RegExp.compile source with
  | Some (RegExp.mkRegExp (RegExp.Seq (RegExp.Char c) _) _) => Ascii.eqb c "{"
  | _ => false
  end.

(** The key and the aliases of the entry begin with an opening brace. *)
Definition brace_led (entry : string * Placeholder) : bool :=
  forallb begins_with_brace (match aliases (snd entry) with Some a => a | None => [] end)
  && begins_with_brace (fst entry).

Lemma begins_with_brace_no_match (source text : string) :
  begins_with_brace source = true -> JSStringFacts.lacks "{" text = true ->
  no_match source text = true.
Proof.
  unfold begins_with_brace, no_match. intros Hb Ht.
  destruct (RegExp.compile source) as [[ast n]|]; [|discriminate].
  destruct ast; try discriminate. destruct ast1; try discriminate.
  apply Ascii.eqb_eq in Hb. subst.
  unfold RegExp.test, RegExp.exec. cbn [RegExp.ast RegExp.ngroups].
  now rewrite RegExpFacts.search_lacks.
Qed.

Lemma brace_led_inert (post : PlaceholderList) (text : string) :
  forallb brace_led post = true -> JSStringFacts.lacks "{" text = true ->
  forallb (inert text) post = true.
Proof.
  intros Hpost Ht. apply forallb_forall. intros entry Hin.
  apply (proj1 (forallb_forall _ _) Hpost) in Hin. unfold brace_led in Hin.
  apply andb_prop in Hin as [Ha Hk]. unfold inert.
  rewrite (begins_with_brace_no_match _ _ Hk Ht), andb_true_r.
  apply forallb_forall. intros a Hina.
  apply (begins_with_brace_no_match _ _ (proj1 (forallb_forall _ _) Ha a Hina) Ht).
Qed.

(** C8, amended: in a template [A{{uuid}}B{{uuid}}C] (no opening brace in
    [A], [B] and [C]) expansion returns [A u1 B u2 C] with two values [u1]
    and [u2] that are not equal: the first is among the used ones when the
    second is drawn.  The random source may repeat itself; it is taken to
    yield, within the fuel of the loop that draws, a value that is not among
    the used ones, and values without brace and dollar sign.  The table in
    use holds the directive; the directives before it do not match the
    template, the keys of those after it begin with an opening brace, and
    the seed pass has nothing to substitute. *)
Theorem C8_two_occurrences_get_distinct_ids
    (env : Env) (placeholders : PlaceholderList) (fuel fuel_u : nat)
    (pre post : PlaceholderList) (A B C : string) (context : option Context) (w : World) :
  processPlaceholders env = true ->
  2 < fuel ->
  finds_fresh env fuel_u (List.length (used w) + 1) ->
  plain_ids env ->
  sortedPlaceholders env placeholders = (pre ++ (uuid_key, uuid env fuel_u) :: post)%list ->
  JSStringFacts.lacks "{" A = true ->
  JSStringFacts.lacks "{" B = true ->
  JSStringFacts.lacks "{" C = true ->
  forallb (inert (A +:+ uuid_key +:+ B +:+ uuid_key +:+ C)) pre = true ->
  forallb brace_led post = true ->
  seed_pass_idle (sortedPlaceholders env placeholders)
                 (A +:+ uuid_key +:+ B +:+ uuid_key +:+ C) context = true ->
  exists u1 u2,
    returns (bulkApply env placeholders fuel (A +:+ uuid_key +:+ B +:+ uuid_key +:+ C)
               context w)
            (A +:+ u1 +:+ B +:+ u2 +:+ C)
    /\ u1 <> u2.
Proof.
  intros Hprocess Hfuel Hfinds Hplain Htable HA HB HC Hpre Hpost Hseed.
  set (T := A +:+ uuid_key +:+ B +:+ uuid_key +:+ C) in *.
  unfold bulkApply. rewrite Hprocess. cbn [negb].
  set (all := sortedPlaceholders env placeholders) in *.
  rewrite (bind_returned _ _ _ _ _ (seed_pass_idle_spec env all T context w Hseed)).
  cbv beta. set (result := JSObject.spread _ []).
  destruct (expand_uuid_twice env fuel fuel_u all A B C result w
              Hfuel Hfinds Hplain HA HB HC)
    as (u1 & u2 & result' & w' & Hexpand & Hout & Hne).
  exists u1, u2. split; [|exact Hne].
  rewrite (bind_congr _ _ _ _ (for_of_table_split env fuel all pre post _ T result w Htable Hpre)).
  cbn [for_of]. fold T in Hexpand.
  rewrite (bind_bind_returned _ _ _ _ _ _ Hexpand).
  rewrite (bind_returned _ _ _ _ _
             (for_of_all_inert env fuel all post _ _ w' (brace_led_inert post _ Hpost Hout))).
  now exists w'.
Qed.

(** A random source that never repeats: the numbers in unary notation. *)
Fixpoint tally (n : nat) : string :=
  match n with
  | O => "0"
  | S n' => String "1" (tally n')
  end.

Lemma tally_never_repeats (i j : nat) : tally i = tally j -> i = j.
Proof.
  revert j. induction i as [|i IH]; intros [|j] H; try discriminate; [reflexivity|].
  injection H as H. f_equal. now apply IH.
Qed.

Lemma tally_plain (n : nat) :
  JSStringFacts.lacks "{" (tally n) = true /\ JSStringFacts.lacks "$" (tally n) = true.
Proof. induction n as [|n [IH1 IH2]]; [now split|]. cbn. now rewrite IH1, IH2. Qed.

Definition env_ids : Env := {|
  processPlaceholders := true;
  allowCustomPlaceholders := true;
  useUserShellEnvironment := false;
  usePlaceholderStatistics := true;
  imageFileExtensions := ["png"; "jpg"];
  videoFileExtensions := ["mp4"; "mov"];
  audioFileExtensions := ["mp3"; "wav"];
  filterString := fun s => s;
  randomUUID := tally;
  execSync := fun _ _ => None;
  frontmostApplicationName := Some "Safari";
  runJSInActiveTab := fun _ _ => Some "text";
  customPlaceholderFiles := []
|}.

(** The first value that will be drawn is among the used ones. *)
Definition world_ids : World := mkWorld ∅ [] (Some ["0"]) 0 [].

Definition table_ids : PlaceholderList := sortedPlaceholders env_ids (placeholders env_ids 3).

Lemma table_ids_around_uuid :
  sortedPlaceholders env_ids (placeholders env_ids 3)
  = (firstn 6 table_ids ++ (uuid_key, uuid env_ids 3) :: skipn 7 table_ids)%list.
Proof. unfold table_ids. table_compute. reflexivity. Qed.

(** The run from [world_ids]: the first draw, [0], is in use and is skipped. *)
Lemma two_occurrences_run :
  returns (bulkApply env_ids (placeholders env_ids 3) 3 "a{{uuid}}b{{uuid}}c" None world_ids)
          "a10b110c".
Proof. eexists. vm_compute. reflexivity. Qed.

(** C8, as stated, fails: with a seed context that has a value under
    [uuid], the seed pass puts that value in the place of both
    occurrences; the directive is not evaluated, and nothing is drawn. *)
Lemma C8_seeded_ids_are_equal :
  exists w',
    bulkApply env_ids (placeholders env_ids 3) 3 "a{{uuid}}b{{uuid}}c"
      (Some [("uuid", "X")]) world_ids
    = Returned "aXbXc" w' /\
    drawn w' = drawn world_ids /\ usedUUIDs w' = usedUUIDs world_ids.
Proof. eexists. vm_compute. repeat split. Qed.

(** A random source that yields every value twice in a row. *)
Definition env_twice : Env := {|
  processPlaceholders := true;
  allowCustomPlaceholders := true;
  useUserShellEnvironment := false;
  usePlaceholderStatistics := true;
  imageFileExtensions := ["png"; "jpg"];
  videoFileExtensions := ["mp4"; "mov"];
  audioFileExtensions := ["mp3"; "wav"];
  filterString := fun s => s;
  randomUUID := fun n => tally (n / 2);
  execSync := fun _ _ => None;
  frontmostApplicationName := Some "Safari";
  runJSInActiveTab := fun _ _ => Some "text";
  customPlaceholderFiles := []
|}.

(** No value has been used. *)
Definition world_unused : World := mkWorld ∅ [] None 0 [].

Definition table_twice : PlaceholderList :=
  sortedPlaceholders env_twice (placeholders env_twice 3).

Lemma table_twice_around_uuid :
  sortedPlaceholders env_twice (placeholders env_twice 3)
  = (firstn 6 table_twice ++ (uuid_key, uuid env_twice 3) :: skipn 7 table_twice)%list.
Proof. unfold table_twice. table_compute. reflexivity. Qed.

(** Of three values in a row, one is not the given one. *)
Lemma twice_finds_fresh : finds_fresh env_twice 3 (List.length (used world_unused) + 1).
Proof.
  intros ids d Hids. cbn in Hids. cbn [randomUUID env_twice].
  destruct ids as [|x [|y ids]]; [exists 0; split; [lia|reflexivity]| |cbn in Hids; lia].
  destruct (String.eqb_spec (tally ((d + 0) / 2)) x) as [Hx|Hx].
  - exists 2. split; [lia|]. unfold includes. cbn [existsb]. rewrite orb_false_r.
    apply String.eqb_neq. intros H. rewrite <- Hx in H. apply tally_never_repeats in H.
    rewrite Nat.add_0_r in H.
    replace (d + 2) with (d + 1 * 2) in H by lia. rewrite Nat.div_add in H by lia. lia.
  - exists 0. split; [lia|]. unfold includes. cbn [existsb]. rewrite orb_false_r.
    now apply String.eqb_neq.
Qed.

Lemma twice_plain : plain_ids env_twice.
Proof. intros n. apply tally_plain. Qed.

Lemma C8_two_occurrences_witness :
  processPlaceholders env_twice = true /\
  2 < 3 /\
  finds_fresh env_twice 3 (List.length (used world_unused) + 1) /\
  plain_ids env_twice /\
  sortedPlaceholders env_twice (placeholders env_twice 3)
  = (firstn 6 table_twice ++ (uuid_key, uuid env_twice 3) :: skipn 7 table_twice)%list /\
  JSStringFacts.lacks "{" "a" = true /\
  JSStringFacts.lacks "{" "b" = true /\
  JSStringFacts.lacks "{" "c" = true /\
  forallb (inert ("a" +:+ uuid_key +:+ "b" +:+ uuid_key +:+ "c")) (firstn 6 table_twice)
  = true /\
  forallb brace_led (skipn 7 table_twice) = true /\
  seed_pass_idle (sortedPlaceholders env_twice (placeholders env_twice 3))
                 ("a" +:+ uuid_key +:+ "b" +:+ uuid_key +:+ "c") None = true /\
  exists u1 u2,
    returns (bulkApply env_twice (placeholders env_twice 3) 3
               ("a" +:+ uuid_key +:+ "b" +:+ uuid_key +:+ "c") None world_unused)
            ("a" +:+ u1 +:+ "b" +:+ u2 +:+ "c")
    /\ u1 <> u2.
Proof.
  assert (H1 : forallb (inert ("a" +:+ uuid_key +:+ "b" +:+ uuid_key +:+ "c"))
                       (firstn 6 table_twice) = true) by (vm_compute; reflexivity).
  assert (H2 : forallb brace_led (skipn 7 table_twice) = true) by (vm_compute; reflexivity).
  repeat (split; [first [exact H1 | exact H2 | exact table_twice_around_uuid
                        | exact twice_finds_fresh | exact twice_plain
                        | exact (le_n 3) | reflexivity]|]).
  exact (C8_two_occurrences_get_distinct_ids env_twice (placeholders env_twice 3) 3 3
           (firstn 6 table_twice) (skipn 7 table_twice) "a" "b" "c" None world_unused
           eq_refl (le_n 3) twice_finds_fresh twice_plain table_twice_around_uuid
           eq_refl eq_refl eq_refl H1 H2 eq_refl).
Defined.

(** The run with the source that repeats: the second draw is the value
    in use, and the loop draws again. *)
Lemma two_occurrences_with_repeats :
  randomUUID env_twice 0 = randomUUID env_twice 1 /\
  returns (bulkApply env_twice (placeholders env_twice 3) 3 "a{{uuid}}b{{uuid}}c" None
             world_unused)
          "a0b10c".
Proof. split; [reflexivity|]. eexists. vm_compute. reflexivity. Qed.


(** ** C3, amended: expansion that comes to an end *)

Module MatchMoves.

Import JSString RegExp JSStringFacts RegExpFacts.

(** The occurrences of a character in a text. *)
Fixpoint occurrences (c : ascii) (s : string) : nat :=
  match s with
  | EmptyString => 0
  | String a s' => (if Ascii.eqb a c then 1 else 0) + occurrences c s'
  end.

Lemma occurrences_append (c : ascii) (a b : string) :
  occurrences c (a +:+ b) = occurrences c a + occurrences c b.
Proof. induction a as [|x a IH]; cbn; [reflexivity|]. rewrite IH. lia. Qed.

Lemma occurrences_lacks (c : ascii) (s : string) :
  lacks c s = true -> occurrences c s = 0.
Proof.
  induction s as [|x s IH]; cbn; [reflexivity|]. intros H.
  apply andb_prop in H as [Hx Hs]. apply negb_true_iff in Hx. rewrite Hx. now apply IH.
Qed.

(** Matching moves over the text in its direction and leaves the text
    as it is. *)
Definition advanced (forward : bool) (x y : MatchState) : Prop :=
  rev_append (before y) (after y) = rev_append (before x) (after x) /\
  if forward then String.length (after y) <= String.length (after x)
  else String.length (before y) <= String.length (before x).

Definition moves (forward : bool) (f : MatchState -> Cont -> option MatchState) : Prop :=
  forall x k z, f x k = Some z -> exists y, advanced forward x y /\ k y = Some z.

Lemma advanced_refl (forward : bool) (x : MatchState) : advanced forward x x.
Proof. split; [reflexivity|]. now destruct forward. Qed.

Lemma advanced_trans (forward : bool) (x y z : MatchState) :
  advanced forward x y -> advanced forward y z -> advanced forward x z.
Proof.
  intros [H1 L1] [H2 L2]. split; [congruence|]. destruct forward; lia.
Qed.

Lemma step_char_moves (forward : bool) (p : ascii -> bool) : moves forward (step_char forward p).
Proof.
  intros [bef aft caps] k z. unfold step_char. cbn [before after captures].
  destruct forward.
  - destruct aft as [|c aft]; [discriminate|]. destruct (p c); [|discriminate].
    intros H. eexists. split; [|exact H]. split; cbn; [reflexivity|lia].
  - destruct bef as [|c bef]; [discriminate|]. destruct (p c); [|discriminate].
    intros H. eexists. split; [|exact H]. split; cbn; [reflexivity|lia].
Qed.

Lemma step_string_moves (forward : bool) (s : string) : moves forward (step_string forward s).
Proof.
  induction s as [|c s IH]; intros x k z H.
  - exists x. split; [apply advanced_refl|exact H].
  - cbn [step_string] in H. apply step_char_moves in H as (y & Hy & H).
    apply IH in H as (y' & Hy' & H). exists y'. split; [|exact H].
    now apply advanced_trans with y.
Qed.

Lemma advanced_cleared (forward : bool) (gs : list nat) (x y : MatchState) :
  advanced forward (clear_captures gs x) y -> advanced forward x y.
Proof. intros H. exact H. Qed.

Lemma repeat_moves (forward : bool) (body : MatchState -> Cont -> option MatchState)
    (gs : list nat) (greedy : bool) (fuel : nat) :
  moves forward body ->
  forall mn mx, moves forward (fun x k => repeat body gs greedy k fuel mn mx x).
Proof.
  intros Hbody. induction fuel as [|fuel IH]; intros mn mx x k z H; [discriminate|].
  cbn [repeat] in H.
  assert (Hturn : forall z',
             body (clear_captures gs x)
                  (fun y => if Nat.eqb mn 0 && same_position x y then None
                            else repeat body gs greedy k fuel (Nat.pred mn) (pred_max mx) y)
             = Some z' ->
             exists y, advanced forward x y /\ k y = Some z').
  { intros z' Hz'. apply Hbody in Hz' as (y & Hy & Hd).
    destruct (Nat.eqb mn 0 && same_position x y); [discriminate|].
    apply IH in Hd as (y' & Hy' & Hk). exists y'. split; [|exact Hk].
    apply advanced_trans with y; [|exact Hy']. now apply advanced_cleared in Hy. }
  assert (Hhere : exists y, advanced forward x y /\ k y = k x)
    by (exists x; split; [apply advanced_refl|reflexivity]).
  destruct mx as [[|mx]|].
  - exists x. split; [apply advanced_refl|exact H].
  - destruct (negb (Nat.eqb mn 0)); [now apply Hturn|]. destruct greedy.
    + destruct (body _ _) as [z'|] eqn:Hb; [injection H as <-; now apply Hturn|].
      exists x. split; [apply advanced_refl|exact H].
    + destruct (k x) as [z'|] eqn:Hk; [|now apply Hturn].
      injection H as <-. exists x. split; [apply advanced_refl|exact Hk].
  - destruct (negb (Nat.eqb mn 0)); [now apply Hturn|]. destruct greedy.
    + destruct (body _ _) as [z'|] eqn:Hb; [injection H as <-; now apply Hturn|].
      exists x. split; [apply advanced_refl|exact H].
    + destruct (k x) as [z'|] eqn:Hk; [|now apply Hturn].
      injection H as <-. exists x. split; [apply advanced_refl|exact Hk].
Qed.

Lemma m_moves (r : Regex) : forall forward, moves forward (m r forward).
Proof.
  induction r as [|c| |negated items|r1 IH1 r2 IH2|r1 IH1 r2 IH2|mn mx greedy r1 IH1
                  |i r1 IH1|ahead negated r1 IH1| | |negated|i];
    intros forward x k z H; cbn [m] in H.
  - exists x. split; [apply advanced_refl|exact H].
  - now apply step_char_moves in H.
  - now apply step_char_moves in H.
  - now apply step_char_moves in H.
  - destruct forward.
    + apply IH1 in H as (y & Hy & H). apply IH2 in H as (y' & Hy' & H).
      exists y'. split; [now apply advanced_trans with y|exact H].
    + apply IH2 in H as (y & Hy & H). apply IH1 in H as (y' & Hy' & H).
      exists y'. split; [now apply advanced_trans with y|exact H].
  - destruct (m r1 forward x k) as [z'|] eqn:H1.
    + injection H as <-. now apply IH1 in H1.
    + now apply IH2 in H.
  - now apply (repeat_moves _ _ _ _ _ (IH1 forward)) in H.
  - apply IH1 in H as (y & Hy & H). eexists. split; [|exact H]. exact Hy.
  - destruct (m r1 ahead x Some) as [y|] eqn:H1.
    + destruct negated; [discriminate|].
      eexists. split; [|exact H]. split; [reflexivity|]. cbn. destruct forward; lia.
    + destruct negated; [|discriminate]. exists x. split; [apply advanced_refl|exact H].
  - destruct (before x); [|discriminate]. exists x. split; [apply advanced_refl|exact H].
  - destruct (after x); [|discriminate]. exists x. split; [apply advanced_refl|exact H].
  - destruct (xorb _ _); [|discriminate]. exists x. split; [apply advanced_refl|exact H].
  - destruct (captures x !! i) as [[s|]|].
    + now apply step_string_moves in H.
    + exists x. split; [apply advanced_refl|exact H].
    + exists x. split; [apply advanced_refl|exact H].
Qed.

(** Of two ways to cut a text in two, the shorter end is an end of the
    longer one. *)
Lemma append_suffix (p2 : string) :
  forall p1 a1 a2,
    p1 +:+ a1 = p2 +:+ a2 -> String.length a1 <= String.length a2 ->
    exists q, a2 = q +:+ a1.
Proof.
  induction p2 as [|c p2 IH]; intros p1 a1 a2 H Hlen.
  - exists p1. now rewrite H.
  - destruct p1 as [|c' p1].
    + cbn in H. subst a1. cbn in Hlen. rewrite length_append in Hlen. lia.
    + cbn in H. injection H as _ H. now apply (IH p1).
Qed.

Lemma advanced_suffix (x y : MatchState) :
  advanced true x y ->
  exists q, after x = q +:+ after y /\
            take (String.length (after x) - String.length (after y)) (after x) = q.
Proof.
  intros [H Hlen]. rewrite !rev_append_eq in H.
  destruct (append_suffix _ _ _ _ H Hlen) as [q Hq].
  exists q. split; [exact Hq|]. rewrite Hq. apply take_matched.
Qed.

(** The leftmost match of a pattern that begins with an opening brace:
    the text is what was skipped, the match, which begins with the brace,
    and the rest. *)
Lemma search_brace_led (r0 : Regex) (n : nat) (aft : string) :
  forall bef res,
    search (Seq (Char "{") r0) n bef aft = Some res ->
    exists skipped found,
      aft = skipped +:+ String "{" found +:+ suffix res /\
      prefix_rev res = rev_append skipped bef.
Proof.
  assert (Hhere : forall bef aft y,
             m (Seq (Char "{") r0) true (mkState bef aft (replicate (S n) None)) Some = Some y ->
             exists found, aft = String "{" found +:+ after y /\
                           take (String.length aft - String.length (after y)) aft
                           = String "{" found).
  { intros bef aft' y H. cbn [m step_char after before captures] in H.
    destruct aft' as [|c aft']; [discriminate|].
    destruct (Ascii.eqb_spec "{" c) as [<-|_]; [|discriminate].
    apply m_moves in H as (y' & Hy' & [= ->]).
    apply advanced_suffix in Hy' as (q & Hq & _). cbn [after] in Hq.
    exists q. rewrite Hq. split; [reflexivity|].
    change (String "{" (q +:+ after y)) with (String "{" q +:+ after y).
    apply take_matched. }
  induction aft as [|c aft IH]; intros bef res H.
  - rewrite search_nil in H.
    destruct (m _ true _ Some) as [y|] eqn:Hm; [|discriminate]. injection H as <-.
    apply Hhere in Hm as (found & Hfound & _). discriminate.
  - rewrite search_cons in H.
    destruct (m _ true _ Some) as [y|] eqn:Hm.
    + injection H as <-. apply Hhere in Hm as (found & Hfound & Htake).
      exists "", found. cbn [finish suffix prefix_rev]. split; [exact Hfound|reflexivity].
    + apply IH in H as (skipped & found & Haft & Hpre).
      exists (String c skipped), found. split; [now rewrite Haft|exact Hpre].
Qed.

(** Replacing the first match of such a pattern by a text without opening
    brace and dollar sign leaves fewer opening braces in the text. *)
Lemma replace_first_fewer_braces (r0 : Regex) (n : nat) (out str : string) :
  test (mkRegExp (Seq (Char "{") r0) n) str = true ->
  lacks "{" out = true -> lacks "$" out = true ->
  occurrences "{" (replace_first (mkRegExp (Seq (Char "{") r0) n) out str)
  < occurrences "{" str.
Proof.
  unfold test, replace_first, exec. cbn [ast ngroups].
  destruct (search _ n "" str) as [res|] eqn:Hs; [intros _|discriminate].
  intros Hbrace Hdollar.
  apply search_brace_led in Hs as (skipped & found & Hstr & Hpre).
  rewrite Hpre, rev_rev_append, substitution_plain by exact Hdollar.
  cbn [rev_append]. rewrite Hstr.
  rewrite !occurrences_append, (occurrences_lacks _ _ Hbrace). cbn. lia.
Qed.

(** The state of a match with one capture slot more. *)
Definition extends (n : nat) (x x' : MatchState) : Prop :=
  before x' = before x /\ after x' = after x /\
  List.length (captures x) = S n /\
  exists e, captures x' = (captures x ++ [e])%list.

Definition alike (Q : MatchState -> MatchState -> Prop) (o o' : option MatchState) : Prop :=
  match o, o' with
  | Some z, Some z' => Q z z'
  | None, None => True
  | _, _ => False
  end.

(** A matcher that does not tell such states apart. *)
Definition simulated (n : nat) (f : MatchState -> Cont -> option MatchState) : Prop :=
  forall Q x x' k k',
    extends n x x' ->
    (forall y y', extends n y y' -> alike Q (k y) (k' y')) ->
    alike Q (f x k) (f x' k').

(** The groups and the backreferences of the pattern are numbered up to
    [n]. *)
Fixpoint scoped (n : nat) (r : Regex) : bool :=
  match r with
  | Seq r1 r2 | Alt r1 r2 => scoped n r1 && scoped n r2
  | Repeat _ _ _ r1 | Look _ _ r1 => scoped n r1
  | Group i r1 => Nat.leb i n && scoped n r1
  | Backref i => Nat.leb i n
  | _ => true
  end.

Lemma scoped_groups (n : nat) (r : Regex) :
  scoped n r = true -> List.Forall (fun i => i <= n) (groups r).
Proof.
  induction r; cbn [scoped groups]; intros H;
    try (apply andb_prop in H as [H1 H2]); auto using List.Forall_nil.
  - apply List.Forall_app. split; auto.
  - apply List.Forall_app. split; auto.
  - constructor; [now apply Nat.leb_le|auto].
Qed.

Lemma extends_set (n i : nat) (s : option string) (x x' : MatchState) :
  i <= n -> extends n x x' ->
  extends n (mkState (before x) (after x) (<[i := s]> (captures x)))
            (mkState (before x') (after x') (<[i := s]> (captures x'))).
Proof.
  intros Hi (Hb & Ha & Hlen & e & He). unfold extends. cbn [before after captures].
  repeat split; try assumption.
  - now rewrite length_insert.
  - exists e. rewrite He. apply insert_app_l. lia.
Qed.

Lemma extends_cleared (n : nat) (gs : list nat) :
  List.Forall (fun i => i <= n) gs ->
  forall x x', extends n x x' -> extends n (clear_captures gs x) (clear_captures gs x').
Proof.
  induction 1 as [|g gs Hg Hgs IH]; intros x x' Hx.
  - destruct x, x'. exact Hx.
  - unfold clear_captures. cbn [fold_left].
    apply (IH (mkState (before x) (after x) (<[g := None]> (captures x)))
              (mkState (before x') (after x') (<[g := None]> (captures x')))).
    now apply extends_set.
Qed.

Lemma step_char_simulated (n : nat) (forward : bool) (p : ascii -> bool) :
  simulated n (step_char forward p).
Proof.
  intros Q [bef aft caps] [bef' aft' caps'] k k' (Hb & Ha & Hlen & e & He) Hk.
  cbn in Hb, Ha, Hlen, He. subst bef' aft' caps'.
  unfold step_char. cbn [before after captures]. destruct forward.
  - destruct aft as [|c aft]; [exact I|]. destruct (p c); [|exact I].
    apply Hk. repeat split; try assumption. now exists e.
  - destruct bef as [|c bef]; [exact I|]. destruct (p c); [|exact I].
    apply Hk. repeat split; try assumption. now exists e.
Qed.

Lemma step_string_simulated (n : nat) (forward : bool) (s : string) :
  simulated n (step_string forward s).
Proof.
  induction s as [|c s IH]; intros Q x x' k k' Hx Hk; cbn [step_string].
  - exact (Hk x x' Hx).
  - refine (step_char_simulated n forward _ Q x x' _ _ Hx _).
    intros y y' Hy. exact (IH Q y y' k k' Hy Hk).
Qed.

Lemma repeat_simulated (n : nat) (body : MatchState -> Cont -> option MatchState)
    (gs : list nat) (greedy : bool) (fuel : nat) :
  simulated n body -> List.Forall (fun i => i <= n) gs ->
  forall mn mx Q x x' k k',
    extends n x x' ->
    (forall y y', extends n y y' -> alike Q (k y) (k' y')) ->
    alike Q (repeat body gs greedy k fuel mn mx x) (repeat body gs greedy k' fuel mn mx x').
Proof.
  intros Hbody Hgs. induction fuel as [|fuel IH]; intros mn mx Q x x' k k' Hx Hk; [exact I|].
  cbn [repeat].
  assert (Hturn :
            alike Q
              (body (clear_captures gs x)
                 (fun y => if Nat.eqb mn 0 && same_position x y then None
                           else repeat body gs greedy k fuel (Nat.pred mn) (pred_max mx) y))
              (body (clear_captures gs x')
                 (fun y => if Nat.eqb mn 0 && same_position x' y then None
                           else repeat body gs greedy k' fuel (Nat.pred mn) (pred_max mx) y))).
  { refine (Hbody Q _ _ _ _ (extends_cleared n gs Hgs x x' Hx) _). intros y y' Hy.
    assert (Hsame : same_position x' y' = same_position x y).
    { unfold same_position. destruct Hx as (_ & -> & _), Hy as (_ & -> & _). reflexivity. }
    rewrite Hsame. destruct (Nat.eqb mn 0 && same_position x y); [exact I|].
    exact (IH _ _ Q y y' k k' Hy Hk). }
  pose proof (Hk x x' Hx) as Hhere.
  destruct mx as [[|mx]|]; [exact Hhere| |].
  - destruct (negb (Nat.eqb mn 0)); [exact Hturn|]. destruct greedy.
    + destruct (body (clear_captures gs x) _), (body (clear_captures gs x') _);
        try exact Hturn; try contradiction. exact Hhere.
    + destruct (k x), (k' x'); try exact Hhere; try contradiction. exact Hturn.
  - destruct (negb (Nat.eqb mn 0)); [exact Hturn|]. destruct greedy.
    + destruct (body (clear_captures gs x) _), (body (clear_captures gs x') _);
        try exact Hturn; try contradiction. exact Hhere.
    + destruct (k x), (k' x'); try exact Hhere; try contradiction. exact Hturn.
Qed.

Lemma m_simulated (n : nat) (r : Regex) :
  scoped n r = true -> forall forward, simulated n (m r forward).
Proof.
  induction r as [|c| |negated items|r1 IH1 r2 IH2|r1 IH1 r2 IH2|mn mx greedy r1 IH1
                  |i r1 IH1|ahead negated r1 IH1| | |negated|i];
    cbn [scoped]; intros Hscoped forward Q x x' k k' Hx Hk; cbn [m].
  - exact (Hk x x' Hx).
  - exact (step_char_simulated n forward _ Q x x' k k' Hx Hk).
  - exact (step_char_simulated n forward _ Q x x' k k' Hx Hk).
  - exact (step_char_simulated n forward _ Q x x' k k' Hx Hk).
  - apply andb_prop in Hscoped as [H1 H2]. destruct forward.
    + refine (IH1 H1 true Q x x' _ _ Hx _).
      intros y y' Hy. exact (IH2 H2 true Q y y' k k' Hy Hk).
    + refine (IH2 H2 false Q x x' _ _ Hx _).
      intros y y' Hy. exact (IH1 H1 false Q y y' k k' Hy Hk).
  - apply andb_prop in Hscoped as [H1 H2].
    pose proof (IH1 H1 forward Q x x' k k' Hx Hk) as Hfirst.
    unfold alike in Hfirst.
    destruct (m r1 forward x k), (m r1 forward x' k'); try exact Hfirst; try contradiction.
    exact (IH2 H2 forward Q x x' k k' Hx Hk).
  - assert (Hfuel : S (mn + String.length (before x') + String.length (after x'))
                    = S (mn + String.length (before x) + String.length (after x))).
    { destruct Hx as (-> & -> & _). reflexivity. }
    rewrite Hfuel.
    exact (repeat_simulated n _ _ greedy _ (IH1 Hscoped forward)
             (scoped_groups n r1 Hscoped) mn mx Q x x' k k' Hx Hk).
  - apply andb_prop in Hscoped as [Hi H1]. apply Nat.leb_le in Hi.
    refine (IH1 H1 forward Q x x' _ _ Hx _). intros y y' Hy.
    assert (Hcap : captured forward x' y' = captured forward x y).
    { unfold captured. destruct Hx as (_ & -> & _), Hy as (_ & -> & _). reflexivity. }
    rewrite Hcap. apply Hk. unfold set_capture. now apply extends_set.
  - pose proof (IH1 Hscoped ahead (extends n) x x' Some Some Hx (fun y y' Hy => Hy)) as Hin.
    unfold alike in Hin.
    destruct (m r1 ahead x Some) as [y|], (m r1 ahead x' Some) as [y'|];
      try contradiction.
    + destruct negated; [exact I|]. apply Hk.
      destruct Hx as (Hb & Ha & _), Hin as (_ & _ & Hlen & e & He).
      repeat split; cbn; try assumption. now exists e.
    + destruct negated; [exact (Hk x x' Hx)|exact I].
  - pose proof Hx as (Hb & _). rewrite Hb.
    destruct (before x); [exact (Hk x x' Hx)|exact I].
  - pose proof Hx as (_ & Ha & _). rewrite Ha.
    destruct (after x); [exact (Hk x x' Hx)|exact I].
  - pose proof Hx as (Hb & Ha & Hrest). rewrite Hb, Ha.
    destruct (xorb _ _); [|exact I]. exact (Hk x x' Hx).
  - apply Nat.leb_le in Hscoped.
    assert (Hslot : captures x' !! i = captures x !! i).
    { destruct Hx as (_ & _ & Hlen & e & ->). apply lookup_app_l. lia. }
    rewrite Hslot. destruct (captures x !! i) as [[s|]|];
      [|exact (Hk x x' Hx)|exact (Hk x x' Hx)].
    exact (step_string_simulated n forward _ Q x x' k k' Hx Hk).
Qed.

(** The pattern with a tail after its last term. *)
Fixpoint seq_end (r tail : Regex) : Regex :=
  match r with
  | Seq r1 r2 => Seq r1 (seq_end r2 tail)
  | _ => Seq r tail
  end.

Lemma m_seq_end (n : nat) (tail : Regex) (r : Regex) :
  scoped n r = true ->
  forall Q x x' k k',
    extends n x x' ->
    (forall y y', extends n y y' -> alike Q (k y) (m tail true y' k')) ->
    alike Q (m r true x k) (m (seq_end r tail) true x' k').
Proof.
  induction r as [|c| |negated items|r1 IH1 r2 IH2|r1 IH1 r2 IH2|mn mx greedy r1 IH1
                  |i r1 IH1|ahead negated r1 IH1| | |negated|i];
    intros Hscoped Q x x' k k' Hx Hk;
    try exact (m_simulated n _ Hscoped true Q x x' k (fun y => m tail true y k') Hx Hk).
  cbn [scoped] in Hscoped. apply andb_prop in Hscoped as [H1 H2].
  cbn [seq_end m]. refine (m_simulated n r1 H1 true Q x x' _ _ Hx _).
  intros y y' Hy. exact (IH2 H2 Q y y' k k' Hy Hk).
Qed.

(** Where the key matches, the key with the lookahead that the engine
    appends matches as well. *)
Lemma search_with_lookahead (r : Regex) (n : nat) (aft : string) :
  scoped n r = true ->
  forall bef,
    search r n bef aft <> None ->
    search (seq_end r (lookahead_ast (S n))) (S n) bef aft <> None.
Proof.
  intros Hscoped.
  assert (Hhere : forall bef aft,
             alike (fun _ _ => True)
               (m r true (mkState bef aft (replicate (S n) None)) Some)
               (m (seq_end r (lookahead_ast (S n))) true
                  (mkState bef aft (replicate (S (S n)) None)) Some)).
  { intros bef aft'. refine (m_seq_end n _ r Hscoped _ _ _ Some Some _ _).
    - repeat split; cbn [before after captures]; [apply length_replicate|].
      exists None. apply (replicate_S_end (S n)).
    - intros y y' _. destruct (lookahead_holds (S n) y' Some) as [caps ->]. exact I. }
  induction aft as [|c aft IH]; intros bef H.
  - rewrite search_nil in *. specialize (Hhere bef ""). unfold alike in Hhere.
    destruct (m r true _ Some), (m (seq_end _ _) true _ Some); try contradiction; congruence.
  - rewrite search_cons in *. specialize (Hhere bef (String c aft)). unfold alike in Hhere.
    destruct (m r true _ Some), (m (seq_end _ _) true _ Some); try contradiction;
      try discriminate.
    now apply IH.
Qed.

End MatchMoves.

#[global] Instance ClassEscape_eq_dec : EqDecision RegExp.ClassEscape.
Proof. solve_decision. Defined.
#[global] Instance ClassItem_eq_dec : EqDecision RegExp.ClassItem.
Proof. solve_decision. Defined.
#[global] Instance Regex_eq_dec : EqDecision RegExp.Regex.
Proof. solve_decision. Defined.
#[global] Instance RegExp_eq_dec : EqDecision RegExp.t.
Proof. solve_decision. Defined.

(** A key in good order: it compiles to a pattern that begins with an
    opening brace, its groups and backreferences are numbered up to the
    number of its groups, and with the lookahead that the engine appends
    it compiles to the same pattern followed by the lookahead. *)
Definition well_formed (source : string) : bool :=
  match RegExp.compile source, RegExp.compile (source +:+ lookahead) with
  | Some (RegExp.mkRegExp (RegExp.Seq (RegExp.Char c) r0) n), Some re' =>
      Ascii.eqb c "{"
      && MatchMoves.scoped n r0
      && bool_decide (re' = RegExp.mkRegExp
                              (RegExp.Seq (RegExp.Char "{")
                                 (MatchMoves.seq_end r0 (RegExpFacts.lookahead_ast (S n))))
                              (S n))
  | _, _ => false
  end.

(** The key and the aliases of an entry of the table. *)
Definition keys_of_entry (entry : string * Placeholder) : list string :=
  (match aliases (snd entry) with Some a => a | None => [] end) ++ [fst entry].

(** The keys whose matches the engine may replace by the results of the
    directive of an entry: its own, and the keys of its dependencies. *)
Definition keys_checked (all : PlaceholderList) (entry : string * Placeholder) : list string :=
  keys_of_entry entry ++ dependency_keys all (dependencies (snd entry)).

(** A key that compiles, also with the lookahead that the engine
    appends. *)
Definition compiles_both (source : string) : bool :=
  match RegExp.compile source, RegExp.compile (source +:+ lookahead) with
  | Some _, Some _ => true
  | _, _ => false
  end.

(** An entry in good order: the keys checked for it compile, and those
    checked for a directive that is not constant are well formed. *)
Definition in_order (all : PlaceholderList) (entry : string * Placeholder) : bool :=
  forallb (fun k => if constant (snd entry) then compiles_both k else well_formed k)
          (keys_checked all entry).

Lemma well_formed_spec (source : string) :
  well_formed source = true ->
  exists r0 n,
    RegExp.compile source = Some (RegExp.mkRegExp (RegExp.Seq (RegExp.Char "{") r0) n) /\
    MatchMoves.scoped n r0 = true /\
    RegExp.compile (source +:+ lookahead)
    = Some (RegExp.mkRegExp
              (RegExp.Seq (RegExp.Char "{")
                 (MatchMoves.seq_end r0 (RegExpFacts.lookahead_ast (S n))))
              (S n)).
Proof.
  unfold well_formed.
  destruct (RegExp.compile source) as [[r n]|]; [|discriminate].
  destruct r; try discriminate. destruct r1; try discriminate.
  destruct (RegExp.compile (source +:+ lookahead)) as [re'|]; [|discriminate].
  intros H. apply andb_prop in H as [H Heq]. apply andb_prop in H as [Hc Hscoped].
  apply Ascii.eqb_eq in Hc. subst c. apply bool_decide_eq_true in Heq. subst re'.
  now exists r2, n.
Qed.

Lemma well_formed_compiles (source : string) :
  well_formed source = true -> compiles source /\ compiles (source +:+ lookahead).
Proof.
  intros H. apply well_formed_spec in H as (r0 & n & H1 & _ & H2).
  split; eexists; eassumption.
Qed.

Lemma compiles_both_spec (source : string) :
  compiles_both source = true -> compiles source /\ compiles (source +:+ lookahead).
Proof.
  unfold compiles_both, compiles.
  destruct (RegExp.compile source) as [re|]; [|discriminate].
  destruct (RegExp.compile (source +:+ lookahead)) as [re'|]; [|discriminate].
  intros _. split; eexists; reflexivity.
Qed.

(** One substitution of the result of a directive that is not constant
    leaves fewer opening braces in the text, when the result has no
    opening brace and no dollar sign. *)
Lemma turn_fewer_braces (newKey out str : string) (re re' : RegExp.t) :
  well_formed newKey = true ->
  RegExp.compile newKey = Some re -> RegExp.test re str = true ->
  RegExp.compile (newKey +:+ lookahead) = Some re' ->
  JSStringFacts.lacks "{" out = true -> JSStringFacts.lacks "$" out = true ->
  MatchMoves.occurrences "{" (RegExp.replace_first re' out str)
  < MatchMoves.occurrences "{" str.
Proof.
  intros Hwf Hre Htest Hre' Hbrace Hdollar.
  apply well_formed_spec in Hwf as (r0 & n & H1 & Hscoped & H2).
  rewrite H1 in Hre. injection Hre as <-. rewrite H2 in Hre'. injection Hre' as <-.
  apply MatchMoves.replace_first_fewer_braces; [|exact Hbrace|exact Hdollar].
  unfold RegExp.test, RegExp.exec in *. cbn [RegExp.ast RegExp.ngroups] in *.
  assert (Hfound : RegExp.search (RegExp.Seq (RegExp.Char "{") r0) n "" str <> None).
  { destruct (RegExp.search _ n "" str); [discriminate|discriminate]. }
  apply (MatchMoves.search_with_lookahead _ n str) in Hfound; [|exact Hscoped].
  cbn [MatchMoves.seq_end] in Hfound.
  now destruct (RegExp.search _ (S n) "" str).
Qed.

Lemma for_of_keeps {A S} (xs : list A) (body : A -> S -> M S) (P : S -> World -> Prop) :
  (forall x, In x xs -> forall s w, P s w ->
     exists s' w', body x s w = Returned s' w' /\ P s' w') ->
  forall s w, P s w -> exists s' w', for_of xs body s w = Returned s' w' /\ P s' w'.
Proof.
  induction xs as [|x xs IH]; intros Hbody s w Hs; cbn [for_of].
  - now exists s, w.
  - destruct (Hbody x (or_introl eq_refl) s w Hs) as (s1 & w1 & Hx & Hs1).
    rewrite (bind_returned _ _ _ _ _ Hx). apply IH; [|exact Hs1].
    intros y Hy. apply Hbody. now right.
Qed.

(** What holds of the text and the state all along the expansion, [J],
    and what it takes. *)

(** The text has fewer opening braces than the loops are granted
    iterations. *)
Definition bounds_braces (fuel : nat) (J : string -> World -> Prop) : Prop :=
  forall str w, J str w -> MatchMoves.occurrences "{" str < fuel.

(** Recording an event and counting a use keep [J]. *)
Definition kept_by_records (env : Env) (J : string -> World -> Prop) : Prop :=
  (forall str w e, J str w -> J str (emitted w e)) /\
  (forall str w name w', J str w -> count_use env name w = Returned tt w' -> J str w').

(** The substitutions of the seed pass keep [J]: the value that the
    context has under the name of a directive, for the matches of its
    key. *)
Definition kept_by_seeds (all : PlaceholderList) (context : option Context)
    (J : string -> World -> Prop) : Prop :=
  forall str w key p value re,
    J str w -> In (key, p) all ->
    In (name p, value) (JSObject.spread (match context with Some c => c | None => [] end) []) ->
    RegExp.compile (key +:+ lookahead) = Some re -> RegExp.test re str = true ->
    J (RegExp.replace_all re value str) w.

(** Every evaluation of a directive on a text that one of the keys
    checked for it matches returns, and the substitution of its result
    keeps [J]; the result of a directive that is not constant has no
    opening brace and no dollar sign. *)
Definition evaluations_return (all : PlaceholderList) (J : string -> World -> Prop) : Prop :=
  forall entry newKey str result w re re',
    In entry all -> In newKey (keys_checked all entry) -> J str w ->
    RegExp.compile newKey = Some re -> RegExp.test re str = true ->
    RegExp.compile (newKey +:+ lookahead) = Some re' ->
    exists fields w',
      apply (snd entry) str (Some result) w = Returned fields w' /\
      if constant (snd entry)
      then J (RegExp.replace_all re' (replacement_of fields) str) w'
      else JSStringFacts.lacks "{" (replacement_of fields) = true /\
           JSStringFacts.lacks "$" (replacement_of fields) = true /\
           J (RegExp.replace_first re' (replacement_of fields) str) w'.

Section ComesToAnEnd.

Variable env : Env.
Variable fuel : nat.
Variable all : PlaceholderList.
Variable context : option Context.
Variable J : string -> World -> Prop.

Hypothesis Hkeys : forallb (in_order all) all = true.
Hypothesis Hfuel : bounds_braces fuel J.
Hypothesis Hrecords : kept_by_records env J.
Hypothesis Hseed : kept_by_seeds all context J.
Hypothesis Heval : evaluations_return all J.

Let Hemit := proj1 Hrecords.
Let Hcount := proj2 Hrecords.

Lemma checked_in_order (entry : string * Placeholder) (k : string) :
  In entry all -> In k (keys_checked all entry) ->
  (if constant (snd entry) then compiles_both k else well_formed k) = true.
Proof.
  intros Hin Hk. rewrite forallb_forall in Hkeys. specialize (Hkeys entry Hin).
  unfold in_order in Hkeys. rewrite forallb_forall in Hkeys. now apply Hkeys.
Qed.

Lemma checked_compiles (entry : string * Placeholder) (k : string) :
  In entry all -> In k (keys_checked all entry) ->
  compiles k /\ compiles (k +:+ lookahead).
Proof.
  intros Hin Hk. pose proof (checked_in_order entry k Hin Hk) as H.
  destruct (constant (snd entry)); [now apply compiles_both_spec|now apply well_formed_compiles].
Qed.

Lemma own_key_checked (entry : string * Placeholder) (k : string) :
  In k (keys_of_entry entry) -> In k (keys_checked all entry).
Proof. intros H. apply in_or_app. now left. Qed.

(** The inner loop comes to an end. *)
Lemma while_comes_to_an_end (entry : string * Placeholder) (newKey : string) :
  In entry all -> In newKey (keys_checked all entry) ->
  forall n str result keys w,
    MatchMoves.occurrences "{" str < n -> J str w ->
    exists st' w',
      while n (still_matches newKey) (substitute env (snd entry) newKey) (str, result, keys) w
      = Returned st' w' /\ J (fst (fst st')) w'.
Proof.
  intros Hin HnewKey.
  pose proof (checked_in_order entry newKey Hin HnewKey) as Hwf.
  destruct (checked_compiles entry newKey Hin HnewKey) as [[re Hre] [re' Hre']].
  induction n as [|n IH]; intros str result keys w Hn HJ; [lia|].
  cbn [while]. rewrite (bind_returned _ _ _ _ _ (still_matches_spec newKey re _ w Hre)).
  cbn [fst]. destruct (RegExp.test re str) eqn:Htest; [|now exists (str, result, keys), w].
  set (p := snd entry) in *.
  destruct (Heval entry newKey str result (emitted w (Applied (name p) (Some result))) re re'
              Hin HnewKey (Hemit _ _ _ HJ) Hre Htest Hre') as (fields & w1 & Happly & Hresult).
  fold p in Happly, Hresult.
  destruct (count_use_comes_back env (name p) w1) as ([] & w2 & Hc).
  assert (Hturn : substitute env p newKey (str, result, keys) w
                  = Returned
                      ((if constant p
                        then RegExp.replace_all re' (replacement_of fields) str
                        else RegExp.replace_first re' (replacement_of fields) str),
                       fst (merge fields result keys), snd (merge fields result keys),
                       constant p) w2).
  { unfold substitute. unfold bind at 1. cbn [emit].
    fold (emitted w (Applied (name p) (Some result))).
    rewrite (bind_returned _ _ _ _ _ Happly), (bind_returned _ _ _ _ _ Hc).
    unfold new_RegExp, call, bind. rewrite Hre'. cbn [ret].
    unfold replacement_of. destruct (merge fields result keys). reflexivity. }
  rewrite (bind_returned _ _ _ _ _ Hturn). cbn [fst snd]. clear Hturn.
  destruct (constant p).
  - eexists _, w2. split; [reflexivity|]. cbn [fst]. exact (Hcount _ _ _ _ Hresult Hc).
  - destruct Hresult as (Hbrace & Hdollar & HJ').
    apply IH; [|exact (Hcount _ _ _ _ HJ' Hc)].
    pose proof (turn_fewer_braces newKey _ str re re' Hwf Hre Htest Hre' Hbrace Hdollar). lia.
Qed.

(** The work on one entry of the table comes to an end. *)
Lemma expand_comes_to_an_end (entry : string * Placeholder) (str : string) (result : Context)
    (w : World) :
  In entry all -> J str w ->
  exists st' w', expand env fuel all entry (str, result) w = Returned st' w' /\ J (fst st') w'.
Proof.
  intros Hin HJ. destruct entry as [key p]. unfold expand.
  assert (Haliases : Forall compiles (match aliases p with Some a => a | None => [] end)).
  { apply List.Forall_forall. intros a Ha.
    apply (checked_compiles (key, p) a Hin), own_key_checked, in_or_app. now left. }
  destruct (matching_comes_back _ str w Haliases) as (ys & Hys & Hincl).
  rewrite (bind_returned _ _ _ _ _ Hys).
  assert (Hkey : In key (keys_of_entry (key, p))) by (apply in_or_app; right; now left).
  destruct (checked_compiles _ key Hin (own_key_checked _ _ Hkey)) as [[re Hre] _].
  unfold new_RegExp at 1, call, bind at 1. rewrite Hre. cbn [ret].
  set (keysToCheck := if RegExp.test re str then (ys ++ [key])%list else ys).
  assert (Hchecked : forall k, In k keysToCheck -> In k (keys_of_entry (key, p))).
  { intros k Hk. unfold keys_of_entry. cbn [fst snd]. apply in_or_app.
    unfold keysToCheck in Hk. destruct (RegExp.test re str).
    - apply in_app_or in Hk as [Hk|Hk]; [left; now apply Hincl|now right].
    - left. now apply Hincl. }
  destruct keysToCheck as [|k0 ks] eqn:Hkc; [now exists (str, result), w|].
  rewrite <- Hkc in *. clear Hkc.
  assert (Hloops : forall keys,
             exists st' w',
               (let* final :=
                  for_of (keysToCheck ++ dependency_keys all (dependencies p))%list
                    (fun newKey => while fuel (still_matches newKey) (substitute env p newKey))
                    (str, result, keys) in
                ret (fst final)) w = Returned st' w' /\ J (fst st') w').
  { intros keys.
    destruct (for_of_keeps (keysToCheck ++ dependency_keys all (dependencies p))%list
                (fun newKey => while fuel (still_matches newKey) (substitute env p newKey))
                (fun st w => J (fst (fst st)) w)) with (s := (str, result, keys)) (w := w)
      as (final & w' & Hfor & HJ'); [|exact HJ|].
    - intros newKey HnewKey [[s r] ks'] w0 Hs. cbn [fst] in Hs.
      apply (while_comes_to_an_end (key, p) newKey Hin); [|exact (Hfuel _ _ Hs)|exact Hs].
      unfold keys_checked. cbn [snd]. apply in_app_or in HnewKey as [H|H];
        apply in_or_app; [left; now apply Hchecked|now right].
    - rewrite (bind_returned _ _ _ _ _ Hfor). now exists (fst final), w'. }
  destruct (missing_keys result (result_keys p)) as [[|m ms]|];
    [now exists (str, result), w|apply Hloops|apply Hloops].
Qed.

(** One substitution of the seed pass comes back. *)
Lemma seed_comes_to_an_end (entry : string * string) (str : string) (w : World) :
  In entry (JSObject.spread (match context with Some c => c | None => [] end) []) ->
  J str w ->
  exists str' w', seed env all entry str w = Returned str' w' /\ J str' w'.
Proof.
  intros Hin HJ. destruct entry as [contextKey value]. unfold seed.
  destruct (find (named contextKey) all) as [[key p]|] eqn:Hfind; [|now exists str, w].
  destruct (negb _); [|now exists str, w].
  apply find_some in Hfind as [Hentry Hnamed]. unfold named in Hnamed. cbn [snd] in Hnamed.
  apply String.eqb_eq in Hnamed. subst contextKey.
  assert (Hkey : In key (keys_of_entry (key, p))) by (apply in_or_app; right; now left).
  destruct (checked_compiles _ key Hentry (own_key_checked _ _ Hkey)) as [_ [re Hre]].
  cbn [fst]. unfold new_RegExp, call, bind at 1. rewrite Hre. cbn [ret].
  destruct (RegExp.test re str) eqn:Htest; [|now exists str, w].
  destruct (count_use_comes_back env (name p) w) as ([] & w' & Hc).
  rewrite (bind_returned _ _ _ _ _ Hc). eexists _, w'. split; [reflexivity|].
  apply (Hcount _ w (name p) w'); [|exact Hc].
  now apply (Hseed str w key p value re).
Qed.

End ComesToAnEnd.


(** A custom directive whose key does not begin with a brace and whose
    value holds the pattern of a directive. *)
Definition env_greeting : Env := {|
  processPlaceholders := true;
  allowCustomPlaceholders := true;
  useUserShellEnvironment := false;
  usePlaceholderStatistics := false;
  imageFileExtensions := ["png"; "jpg"];
  videoFileExtensions := ["mp4"; "mov"];
  audioFileExtensions := ["mp3"; "wav"];
  filterString := fun s => s;
  randomUUID := fun n => JSNumber.toString (JSNumber.Int (Z.of_nat (n / 2)));
  execSync := fun _ _ => None;
  frontmostApplicationName := Some "Safari";
  runJSInActiveTab := fun _ _ => Some "text";
  customPlaceholderFiles := [Some [("hello", mkCustom "greeting" "{{get a}}")]]
|}.

(** The table of [env_greeting], entry by entry: the custom directive,
    then the built-in ones. *)
Definition table_greeting : PlaceholderList :=
  [ ("hello", custom "hello" (mkCustom "greeting" "{{get a}}"));
    ("{{reset [a-zA-Z0-9_]+}}", reset);
    ("{{get [a-zA-Z0-9_]+}}", get);
    ("{{delete [a-zA-Z0-9_]+}}", delete);
    ("{{vars}}", vars);
    ("{{selectedFiles}}", selectedFiles);
    ("{{currentAppName}}", currentAppName env_greeting);
    ("{{uuid}}", uuid env_greeting 5);
    image_ext "png";
    image_ext "jpg";
    ("{{images" +:+ branches, contentForImages env_greeting);
    video_ext "mp4";
    video_ext "mov";
    ("{{videos" +:+ branches, contentForVideos env_greeting);
    audio_ext "mp3";
    audio_ext "wav";
    ("{{audio" +:+ branches, contentForAudio env_greeting);
    ("{{(pdf|PDF)" +:+ branches, contentForPDFs);
    ("{{increment:[\s\S]*?}}", increment);
    ("{{decrement:[\s\S]*?}}", decrement);
    (focusedElement_key, focusedElement env_greeting);
    ("{{selectFile:[\s\S]*?}}", selectFile);
    ("{{shell( .*)?:(.|[ \n\r\s])*?}}", shell env_greeting);
    ("{{set [a-zA-Z0-9_]+:[\s\S]*?}}", setPersistentVariable) ].

Lemma table_greeting_eq :
  sortedPlaceholders env_greeting (placeholders env_greeting 5) = table_greeting.
Proof. table_compute. reflexivity. Qed.

(** The value seeded for [{{vars}}] holds the pattern of a directive. *)
Definition context_greeting : Context := [("vars", "{{get a}}")].

(** The texts that the expansion of [hello {{vars}}] goes through, and
    those that the directives make of them in any other order. *)
Definition texts_greeting : list string :=
  [ "hello {{vars}}"; "hello {{get a}}"; "hello 1"; "hello a";
    "{{get a}} {{vars}}"; "{{get a}} {{get a}}"; "{{get a}} 1"; "{{get a}} a";
    "1 {{vars}}"; "1 {{get a}}"; "1 1"; "1 a" ].

Definition J_greeting (str : string) (w : World) : Prop :=
  In str texts_greeting /\ persistentVariables w = persistentVariables world_a.

Ltac pick_text := first [left; reflexivity | right; pick_text].

Lemma greeting_fuel : bounds_braces 5 J_greeting.
Proof.
  intros str w [Hstr _]. unfold texts_greeting in Hstr. cbn [In] in Hstr.
  repeat (destruct Hstr as [<-|Hstr]); [..|contradiction]; vm_compute; lia.
Qed.

Lemma greeting_records : kept_by_records env_greeting J_greeting.
Proof.
  split.
  - intros str w e [Hstr Hw]. split; [exact Hstr|exact Hw].
  - intros str w name w' HJ [= <-]. exact HJ.
Qed.

Lemma no_text_matches (re : RegExp.t) (texts : list string) (str : string) :
  forallb (fun s => negb (RegExp.test re s)) texts = true ->
  In str texts -> RegExp.test re str = true -> False.
Proof.
  intros Hall Hin Htest. rewrite forallb_forall in Hall. apply Hall in Hin.
  rewrite Htest in Hin. discriminate.
Qed.

(** The value of a closed term in an equation, by computation. *)
Ltac evaluate_in t H :=
  let v := eval vm_compute in t in
  let Hv := fresh "Hv" in
  assert (Hv : t = v) by (vm_compute; reflexivity);
  rewrite Hv in H; clear Hv.

Ltac compiled_in H :=
  match type of H with
  | RegExp.compile ?k = Some _ => evaluate_in (RegExp.compile k) H; injection H as <-
  end.

(** One text, one key: the key does not match the text, or the
    directive is evaluated. *)
Ltac settle_text Hre' Htest :=
  first
    [ match type of Htest with
      | ?t = true => evaluate_in t Htest; discriminate Htest
      end
    | compiled_in Hre';
      eexists _, _; (split; [vm_compute; reflexivity|]);
      vm_compute; repeat split; pick_text ].

Ltac settle_key texts Hre Hre' Hstr Htest :=
  compiled_in Hre;
  first
    [ exfalso; refine (no_text_matches _ texts _ _ Hstr Htest);
      vm_compute; reflexivity
    | unfold texts in Hstr; cbn [In] in Hstr;
      repeat (destruct Hstr as [<-|Hstr]); [..|contradiction];
      settle_text Hre' Htest ].

Ltac settle_entry texts HnewKey Hre Hre' Hstr Htest :=
  match type of HnewKey with
  | In _ ?ks => evaluate_in ks HnewKey
  end;
  cbn [In] in HnewKey;
  repeat (destruct HnewKey as [<-|HnewKey]); [..|contradiction];
  settle_key texts Hre Hre' Hstr Htest.

Lemma greeting_evaluations : evaluations_return table_greeting J_greeting.
Proof.
  intros entry newKey str result w re re' Hin HnewKey [Hstr Hw] Hre Htest Hre'.
  destruct w as [ls pv used dr ev]. cbn [persistentVariables] in Hw. subst pv.
  unfold table_greeting in Hin. cbn [In] in Hin.
  repeat (destruct Hin as [<-|Hin]); [..|contradiction];
    settle_entry texts_greeting HnewKey Hre Hre' Hstr Htest.
Qed.

Lemma greeting_seeds : kept_by_seeds table_greeting (Some context_greeting) J_greeting.
Proof.
  intros str w key p value re [Hstr Hw] Hin Hvalue Hre Htest.
  change key with (fst (key, p)) in Hre. change p with (snd (key, p)) in Hvalue.
  revert Hin Hvalue Hre. generalize (key, p) as entry. clear key p.
  intros entry Hin Hvalue Hre.
  unfold table_greeting in Hin. cbn [In] in Hin.
  repeat (destruct Hin as [<-|Hin]); [..|contradiction];
    vm_compute in Hvalue; destruct Hvalue as [[= <-]|[]].
  compiled_in Hre. split; [|exact Hw].
  unfold texts_greeting in Hstr; cbn [In] in Hstr.
  repeat (destruct Hstr as [<-|Hstr]); [..|contradiction];
    first [ match type of Htest with
            | ?t = true => evaluate_in t Htest; discriminate Htest
            end
          | vm_compute; pick_text ].
Qed.

Lemma greeting_in_order :
  forallb (in_order (sortedPlaceholders env_greeting (placeholders env_greeting 5)))
          (sortedPlaceholders env_greeting (placeholders env_greeting 5)) = true.
Proof. vm_compute. reflexivity. Qed.

Lemma greeting_start : J_greeting "hello {{vars}}" world_a.
Proof. split; [now left|reflexivity]. Qed.


(** The run: the seeded value and the value of the custom directive, both
    the pattern of [{{get a}}], are expanded in their turn. *)
Lemma greeting_run :
  returns (bulkApply env_greeting (placeholders env_greeting 5) 5 "hello {{vars}}"
             (Some context_greeting) world_a)
          "1 1".
Proof. eexists. vm_compute. reflexivity. Qed.


(** * Further properties of the code *)

(** ** The persistent variables *)

Module StoreFacts.

Import Store.

Definition names (vars : list PersistentVariable) : list string := map var_name vars.

(** No two stored variables have the same name. *)
Definition unique_names (w : World) : Prop := List.NoDup (names (persistentVariables w)).

(** The value stored under a name, if any. *)
Definition value_of (name : string) (w : World) : option string :=
  option_map var_value (find (named name) (persistentVariables w)).

Definition initial_of (name : string) (w : World) : option string :=
  option_map var_initialValue (find (named name) (persistentVariables w)).

Lemma named_spec (name : string) (v : PersistentVariable) :
  named name v = true <-> var_name v = name.
Proof. unfold named. apply String.eqb_eq. Qed.

Lemma find_named_none (name : string) (vars : list PersistentVariable) :
  find (named name) vars = None <-> ~ In name (names vars).
Proof.
  induction vars as [|v vars IH]; cbn [find names map In]; [tauto|].
  destruct (named name v) eqn:Hv.
  - apply named_spec in Hv. split; [discriminate|]. intros H. exfalso. apply H. now left.
  - assert (var_name v <> name) by (intros H; apply named_spec in H; congruence).
    rewrite IH. unfold names. tauto.
Qed.

Lemma find_named_some (name : string) (vars : list PersistentVariable) (v : PersistentVariable) :
  find (named name) vars = Some v -> var_name v = name /\ In v vars.
Proof.
  intros H. apply find_some in H as [Hin Hv]. now apply named_spec in Hv.
Qed.

Lemma find_named_app (name : string) (vars more : list PersistentVariable) :
  find (named name) (vars ++ more)
  = match find (named name) vars with
    | Some v => Some v
    | None => find (named name) more
    end.
Proof.
  induction vars as [|v vars IH]; cbn [find app]; [reflexivity|].
  now destruct (named name v).
Qed.

Lemma find_remove_first_other (name other : string) (vars : list PersistentVariable) :
  other <> name ->
  find (named other) (remove_first name vars) = find (named other) vars.
Proof.
  intros Hne. induction vars as [|v vars IH]; cbn [remove_first find]; [reflexivity|].
  destruct (named name v) eqn:Hv.
  - apply named_spec in Hv.
    destruct (named other v) eqn:Ho; [apply named_spec in Ho; congruence|reflexivity].
  - cbn [find]. now rewrite IH.
Qed.

Lemma names_remove_first (name : string) (vars : list PersistentVariable) :
  List.NoDup (names vars) ->
  List.NoDup (names (remove_first name vars)) /\ ~ In name (names (remove_first name vars)).
Proof.
  induction vars as [|v vars IH]; cbn [remove_first names map]; intros Hnd.
  - split; [constructor|intros []].
  - apply List.NoDup_cons_iff in Hnd as [Hv Hnd].
    destruct (named name v) eqn:Hname.
    + apply named_spec in Hname. subst. now split.
    + assert (Hne : var_name v <> name) by (intros H; apply named_spec in H; congruence).
      destruct (IH Hnd) as [IHnd IHin]. cbn [names map]. split.
      * apply List.NoDup_cons_iff. split; [|exact IHnd].
        intros Hin. apply Hv. clear -Hin. induction vars as [|u vars IHv]; [destruct Hin|].
        cbn [remove_first] in Hin. destruct (named name u); cbn [names map In] in *; tauto.
      * intros [Heq|Hin]; [congruence|now apply IHin].
Qed.

Lemma nodup_names_snoc (vars : list PersistentVariable) (v : PersistentVariable) :
  List.NoDup (names vars) -> ~ In (var_name v) (names vars) ->
  List.NoDup (names (vars ++ [v])).
Proof.
  intros Hnd Hin. unfold names. rewrite List.map_app. cbn [map].
  apply List.NoDup_app; repeat split.
  - exact Hnd.
  - repeat constructor. intros [].
  - intros x Hx [<-|[]]. now apply Hin.
Qed.


Lemma value_of_get (name : string) (w : World) :
  getPersistentVariable name w = Returned (or_empty (value_of name w)) w.
Proof.
  unfold getPersistentVariable, value_of, bind, getVariables, ret.
  now destruct (find (named name) (persistentVariables w)).
Qed.

Lemma remove_first_absent (name : string) (vars : list PersistentVariable) :
  find (named name) vars = None -> remove_first name vars = vars.
Proof.
  induction vars as [|v vars IH]; [reflexivity|]. cbn [find remove_first].
  destruct (named name v); [discriminate|]. intros H. now rewrite IH.
Qed.

(** What [setPersistentVariable] leaves: the variable at the end of the
    list, with the value given and the initial value it had, or the value
    given when it is new. *)
Lemma set_spec (name value : string) (w : World) :
  setPersistentVariable name value w
  = Returned tt
      (mkWorld (localStorage w)
               (remove_first name (persistentVariables w)
                ++ [mkVar name value
                          (match initial_of name w with Some i => i | None => value end)])
               (usedUUIDs w) (drawn w) (events w)).
Proof.
  unfold setPersistentVariable, initial_of, bind, getVariables, setVariables, ret.
  destruct (find (named name) (persistentVariables w)) as [v|] eqn:Hfind; cbn [option_map].
  - apply find_named_some in Hfind as [<- _]. reflexivity.
  - now rewrite (remove_first_absent _ _ Hfind).
Qed.

Lemma find_after_remove (name : string) (vars : list PersistentVariable) :
  List.NoDup (names vars) -> find (named name) (remove_first name vars) = None.
Proof. intros H. apply find_named_none. now apply names_remove_first. Qed.

(** X1: a variable that was set is read back with the value set, in a
    store that holds no name twice. *)
Theorem set_then_get (name value : string) (w : World) :
  unique_names w ->
  (run setPersistentVariable name value in getPersistentVariable name) w
  = (run setPersistentVariable name value in ret value) w.
Proof.
  intros Hu. unfold bind at 1 2. rewrite set_spec. rewrite value_of_get. unfold ret.
  unfold value_of. cbn [persistentVariables]. rewrite find_named_app.
  rewrite (find_after_remove _ _ Hu). cbn [find]. unfold named at 1. cbn [var_name].
  now rewrite String.eqb_refl.
Qed.


(** Without that, the value read back can be an older one. *)
Lemma set_then_get_needs_unique_names :
  (run setPersistentVariable "a" "9" in getPersistentVariable "a")
    (mkWorld ∅ [mkVar "a" "1" "1"; mkVar "a" "2" "2"] None 0 [])
  = Returned "2" (mkWorld ∅ [mkVar "a" "2" "2"; mkVar "a" "9" "1"] None 0 []).
Proof. reflexivity. Qed.

Lemma reset_spec (name : string) (w : World) :
  resetPersistentVariable name w
  = match initial_of name w with
    | Some i =>
        Returned i
          (mkWorld (localStorage w)
                   (remove_first name (persistentVariables w) ++ [mkVar name i i])
                   (usedUUIDs w) (drawn w) (events w))
    | None => Returned "" w
    end.
Proof.
  unfold resetPersistentVariable, initial_of, bind, getVariables, setVariables, ret.
  destruct (find (named name) (persistentVariables w)) as [v|] eqn:Hfind; cbn [option_map].
  - apply find_named_some in Hfind as [<- _]. reflexivity.
  - reflexivity.
Qed.

Lemma delete_spec (name : string) (w : World) :
  deletePersistentVariable name w
  = Returned tt
      (mkWorld (localStorage w) (remove_first name (persistentVariables w))
               (usedUUIDs w) (drawn w) (events w)).
Proof.
  unfold deletePersistentVariable, bind, getVariables, setVariables, ret.
  destruct (find (named name) (persistentVariables w)) as [v|] eqn:Hfind; [reflexivity|].
  rewrite (remove_first_absent _ _ Hfind). now destruct w.
Qed.

(** X2: setting, resetting and deleting a variable keep the names of the
    store distinct. *)
Theorem unique_names_kept (name value : string) (w : World) :
  unique_names w ->
  (exists w', setPersistentVariable name value w = Returned tt w' /\ unique_names w') /\
  (exists r w', resetPersistentVariable name w = Returned r w' /\ unique_names w') /\
  (exists w', deletePersistentVariable name w = Returned tt w' /\ unique_names w').
Proof.
  intros Hu. destruct (names_remove_first name _ Hu) as [Hnd Hin].
  split; [|split].
  - rewrite set_spec. eexists. split; [reflexivity|].
    unfold unique_names. cbn [persistentVariables]. now apply nodup_names_snoc.
  - rewrite reset_spec. destruct (initial_of name w) as [i|].
    + do 2 eexists. split; [reflexivity|].
      unfold unique_names. cbn [persistentVariables]. now apply nodup_names_snoc.
    + now exists "", w.
  - rewrite delete_spec. eexists. split; [reflexivity|]. exact Hnd.
Qed.

(** X3: setting, resetting and deleting a variable leave the value and the
    initial value of every other variable as they are. *)
Theorem other_variables_untouched (name other value : string) (w : World) :
  other <> name ->
  (exists w', setPersistentVariable name value w = Returned tt w'
              /\ value_of other w' = value_of other w
              /\ initial_of other w' = initial_of other w) /\
  (exists r w', resetPersistentVariable name w = Returned r w'
                /\ value_of other w' = value_of other w
                /\ initial_of other w' = initial_of other w) /\
  (exists w', deletePersistentVariable name w = Returned tt w'
              /\ value_of other w' = value_of other w
              /\ initial_of other w' = initial_of other w).
Proof.
  intros Hne.
  assert (Hsnoc : forall v, var_name v = name ->
            find (named other) (remove_first name (persistentVariables w) ++ [v])
            = find (named other) (persistentVariables w)).
  { intros v Hv. rewrite find_named_app, (find_remove_first_other _ _ _ Hne).
    destruct (find (named other) (persistentVariables w)); [reflexivity|].
    cbn [find]. destruct (named other v) eqn:Ho; [|reflexivity].
    apply named_spec in Ho. congruence. }
  split; [|split].
  - rewrite set_spec. eexists. split; [reflexivity|].
    unfold value_of, initial_of. cbn [persistentVariables]. now rewrite !Hsnoc.
  - rewrite reset_spec. destruct (initial_of name w) as [i|].
    + do 2 eexists. split; [reflexivity|].
      unfold value_of, initial_of. cbn [persistentVariables]. now rewrite !Hsnoc.
    + now exists "", w.
  - rewrite delete_spec. eexists. split; [reflexivity|].
    unfold value_of, initial_of. cbn [persistentVariables].
    now rewrite (find_remove_first_other _ _ _ Hne).
Qed.

(** The value first given to a variable: its initial value if it is
    stored, the value it is about to be set to if not. *)
Definition first_value (name value : string) (w : World) : string :=
  match initial_of name w with
  | Some i => i
  | None => value
  end.

Lemma set_keeps_first_value (name value : string) (w : World) :
  unique_names w ->
  exists w', setPersistentVariable name value w = Returned tt w' /\
             unique_names w' /\
             initial_of name w' = Some (first_value name value w).
Proof.
  intros Hu. destruct (names_remove_first name _ Hu) as [Hnd Hin].
  rewrite set_spec. eexists. split; [reflexivity|]. split.
  { unfold unique_names. cbn [persistentVariables]. now apply nodup_names_snoc. }
  unfold initial_of at 1. cbn [persistentVariables].
  rewrite find_named_app, (find_after_remove _ _ Hu). cbn [find]. unfold named at 1.
  cbn [var_name]. now rewrite String.eqb_refl.
Qed.

(** X4: resetting a variable brings back the value it was first given,
    however often it was set since: after [setPersistentVariable] with
    [value] and then with each of [values], [resetPersistentVariable]
    returns the first value and [getPersistentVariable] reads it. *)
Theorem reset_restores_first_value (name value : string) (values : list string) (w : World) :
  unique_names w ->
  exists w',
    (run setPersistentVariable name value in
     run for_of values (fun v _ => setPersistentVariable name v) tt in
     let* restored := resetPersistentVariable name in
     let* read := getPersistentVariable name in
     ret (restored, read)) w
    = Returned (first_value name value w, first_value name value w) w'.
Proof.
  intros Hu.
  destruct (set_keeps_first_value name value w Hu) as (w1 & Hset & Hu1 & Hinit).
  rewrite (bind_returned _ _ _ _ _ Hset).
  generalize (first_value name value w) Hinit Hu1. clear. intros first.
  revert w1. induction values as [|v values IH]; intros w1 Hinit Hu1.
  - cbn [for_of]. rewrite (bind_returned (ret tt) _ w1 w1 tt eq_refl).
    pose proof (reset_spec name w1) as Hreset. rewrite Hinit in Hreset.
    rewrite (bind_returned _ _ _ _ _ Hreset). cbv beta.
    match type of Hreset with _ = Returned _ ?w2 =>
      assert (Hget : getPersistentVariable name w2 = Returned first w2)
    end.
    { rewrite value_of_get. unfold value_of. cbn [persistentVariables].
      rewrite find_named_app, (find_after_remove _ _ Hu1). cbn [find]. unfold named at 1.
      cbn [var_name]. now rewrite String.eqb_refl. }
    rewrite (bind_returned _ _ _ _ _ Hget). eexists. reflexivity.
  - cbn [for_of].
    destruct (set_keeps_first_value name v w1 Hu1) as (w2 & Hset & Hu2 & Hinit2).
    unfold first_value in Hinit2. rewrite Hinit in Hinit2.
    rewrite (bind_bind_returned _ _ _ _ _ _ Hset). apply (IH w2 Hinit2 Hu2).
Qed.

(** X5: a variable that was deleted is no longer listed and reads as the
    empty text, in a store that holds no name twice. *)
Theorem delete_then_get (name : string) (w : World) :
  unique_names w ->
  exists w',
    deletePersistentVariable name w = Returned tt w' /\
    getPersistentVariable name w' = Returned "" w' /\
    ~ In name (names (persistentVariables w')).
Proof.
  intros Hu. rewrite delete_spec. eexists. split; [reflexivity|].
  destruct (names_remove_first name _ Hu) as [_ Hin].
  rewrite value_of_get. unfold value_of. cbn [persistentVariables].
  rewrite (find_after_remove _ _ Hu). now split.
Qed.

End StoreFacts.

(** ** Numbers as the counters read and write them *)

Module JSNumberFacts.

Import JSString JSNumber.

Definition digit (d : N) : ascii := ascii_of_N (48 + d).

Lemma hex_value_digit (d : N) :
  (d < 10)%N -> RegExp.hex_value (digit d) = Some (N.to_nat d) /\ is_digit (digit d) = true.
Proof.
  intros H.
  assert (Hd : (d = 0 \/ d = 1 \/ d = 2 \/ d = 3 \/ d = 4 \/ d = 5 \/ d = 6 \/ d = 7 \/ d = 8
               \/ d = 9)%N) by lia.
  repeat (destruct Hd as [->|Hd]; [split; reflexivity|]). subst. split; reflexivity.
Qed.

(** The digits written are read back as the number, whatever follows them. *)
Lemma digits_value_digits_of (fuel : nat) :
  forall (n : N) (acc : string) (seen : bool),
    0 < fuel -> (n < 2 ^ N.of_nat fuel)%N ->
    digits_value 10 (digits_of fuel n acc) 0 seen = digits_value 10 acc n true.
Proof.
  induction fuel as [|fuel IH]; intros n acc seen Hfuel Hn; [lia|].
  cbn [digits_of]. fold (digit (n mod 10)).
  assert (Hmod : (n mod 10 < 10)%N) by (apply N.mod_lt; lia).
  destruct (hex_value_digit _ Hmod) as [Hhex _].
  destruct (n <? 10)%N eqn:Hsmall.
  - apply N.ltb_lt in Hsmall. cbn [digits_value]. rewrite Hhex.
    rewrite N.mod_small by exact Hsmall.
    replace (N.of_nat (N.to_nat n) <? 10)%N with true by (symmetry; apply N.ltb_lt; lia).
    f_equal. lia.
  - apply N.ltb_ge in Hsmall.
    assert (Hfuel' : 0 < fuel).
    { destruct fuel; [|lia]. cbn in Hn. lia. }
    rewrite IH; [|exact Hfuel'|].
    + cbn [digits_value]. rewrite Hhex.
      replace (N.of_nat (N.to_nat (n mod 10)) <? 10)%N with true
        by (symmetry; apply N.ltb_lt; lia).
      f_equal. rewrite N2Nat.id. pose proof (N.div_mod n 10). lia.
    + replace (N.of_nat (S fuel)) with (N.succ (N.of_nat fuel)) in Hn by lia.
      rewrite N.pow_succ_r' in Hn.
      apply N.Div0.div_lt_upper_bound. lia.
Qed.

Lemma digits_of_append (fuel : nat) :
  forall (n : N) (acc rest : string),
    digits_of fuel n acc +:+ rest = digits_of fuel n (acc +:+ rest).
Proof.
  induction fuel as [|fuel IH]; intros n acc rest; [reflexivity|].
  cbn [digits_of]. destruct (n <? 10)%N; [reflexivity|]. now rewrite IH.
Qed.

Lemma digits_of_digits (fuel : nat) :
  forall (n : N) (acc : string),
    0 < fuel ->
    exists d tail, (d < 10)%N /\ digits_of fuel n acc = String (digit d) tail /\
                   (tail = acc \/ exists d' tail', (d' < 10)%N /\ tail = String (digit d') tail').
Proof.
  induction fuel as [|fuel IH]; intros n acc Hfuel; [lia|].
  cbn [digits_of]. fold (digit (n mod 10)).
  assert (Hmod : (n mod 10 < 10)%N) by (apply N.mod_lt; lia).
  destruct (n <? 10)%N.
  - exists (n mod 10)%N, acc. repeat split; [exact Hmod|now left].
  - destruct fuel as [|fuel].
    + exists (n mod 10)%N, acc. repeat split; [exact Hmod|now left].
    + destruct (IH (n / 10)%N (String (digit (n mod 10)) acc) ltac:(lia))
        as (d & tail & Hd & Heq & Htail).
      exists d, tail. repeat split; [exact Hd|exact Heq|]. right.
      destruct Htail as [->|Htail]; [|exact Htail].
      now exists (n mod 10)%N, acc.
Qed.

(** What may follow a number for [parseInt] to stop there. *)
Definition ends_number (rest : string) : bool :=
  match rest with
  | EmptyString => true
  | String c _ => negb (is_digit c) && negb (Ascii.eqb c "x") && negb (Ascii.eqb c "X")
  end.

Lemma digits_value_stops (rest : string) (n : N) :
  ends_number rest = true -> digits_value 10 rest n true = Some n.
Proof.
  destruct rest as [|c rest]; [reflexivity|]. cbn [ends_number digits_value].
  intros H. apply andb_prop in H as [H _]. apply andb_prop in H as [H _].
  apply negb_true_iff in H. unfold RegExp.hex_value. rewrite H.
  destruct ((97 <=? code c) && (code c <=? 102))%N eqn:Hlow.
  - apply andb_prop in Hlow as [H1 H2]. apply N.leb_le in H1, H2.
    replace (N.of_nat (N.to_nat (code c) - 87) <? 10)%N with false; [reflexivity|].
    symmetry. apply N.ltb_ge. lia.
  - destruct ((65 <=? code c) && (code c <=? 70))%N eqn:Hup; [|reflexivity].
    apply andb_prop in Hup as [H1 H2]. apply N.leb_le in H1, H2.
    replace (N.of_nat (N.to_nat (code c) - 55) <? 10)%N with false; [reflexivity|].
    symmetry. apply N.ltb_ge. lia.
Qed.

Lemma digit_not_special (d : N) :
  (d < 10)%N ->
  is_space (digit d) = false /\ Ascii.eqb (digit d) "x" = false /\
  Ascii.eqb (digit d) "X" = false /\ Ascii.eqb (digit d) "-" = false /\
  Ascii.eqb (digit d) "+" = false.
Proof.
  intros H.
  assert (Hd : (d = 0 \/ d = 1 \/ d = 2 \/ d = 3 \/ d = 4 \/ d = 5 \/ d = 6 \/ d = 7 \/ d = 8
               \/ d = 9)%N) by lia.
  repeat (destruct Hd as [->|Hd]; [repeat split; reflexivity|]). subst. repeat split; reflexivity.
Qed.

(** A number written by [toString] is read back by [parseInt], also when
    it is followed by a text that does not go on with a digit or an x. *)
Lemma parseInt_toString (z : Z) (rest : string) :
  ends_number rest = true ->
  parseInt (toString (Int z) +:+ rest) = Int z.
Proof.
  intros Hrest. cbn [toString].
  set (n := Z.abs_N z). set (fuel := S (N.to_nat (N.log2 n))).
  assert (Hn : (n < 2 ^ N.of_nat fuel)%N).
  { unfold fuel. rewrite Nat2N.inj_succ, N2Nat.id.
    destruct (N.eq_dec n 0%N) as [Hz|Hne]; [rewrite Hz; reflexivity|].
    apply N.log2_spec. lia. }
  assert (Hparse : forall s : string, (exists d tail, (d < 10)%N /\ s = String (digit d) tail
                               /\ (tail = rest \/ exists d' tail', (d' < 10)%N
                                                     /\ tail = String (digit d') tail')) ->
                     digits_value 10 s 0 false = Some n ->
                     forall negative : bool,
                       (let '(radix, s3) :=
                          match s with
                          | String "0" (String "x" s') | String "0" (String "X" s') => (16%N, s')
                          | _ => (10%N, s)
                          end in
                        match digits_value radix s3 0 false with
                        | Some m => Int (if negative then - Z.of_N m else Z.of_N m)
                        | None => NaN
                        end) = Int (if negative then - Z.of_N n else Z.of_N n)).
  { intros s (d & tail & Hd & -> & Htail) Hval negative.
    assert (Hx : match tail with
                 | String c _ => Ascii.eqb c "x" = false /\ Ascii.eqb c "X" = false
                 | EmptyString => True
                 end).
    { destruct Htail as [->|(d' & tail' & Hd' & ->)].
      - destruct rest as [|c rest']; [exact I|]. cbn [ends_number] in Hrest.
        apply andb_prop in Hrest as [H HX]. apply andb_prop in H as [_ Hx].
        apply negb_true_iff in HX, Hx. now split.
      - destruct (digit_not_special d' Hd') as (_ & H1 & H2 & _). now split. }
    assert (Hshape : match String (digit d) tail with
                     | String "0" (String "x" s') | String "0" (String "X" s') => (16%N, s')
                     | _ => (10%N, String (digit d) tail)
                     end = (10%N, String (digit d) tail)).
    { destruct tail as [|c tail']; [now destruct (digit d) as [[] [] [] [] [] [] [] []]|].
      destruct Hx as [Hx HX].
      destruct (Ascii.eqb_spec c "x") as [->|Hnx]; [discriminate|].
      destruct (Ascii.eqb_spec c "X") as [->|HnX]; [discriminate|].
      destruct (digit d) as [[] [] [] [] [] [] [] []]; try reflexivity.
      destruct c as [[] [] [] [] [] [] [] []]; try reflexivity; congruence. }
    rewrite Hshape. cbv beta iota zeta. rewrite Hval. reflexivity. }
  assert (Hds : exists d tail, (d < 10)%N /\ digits_of fuel n "" +:+ rest = String (digit d) tail
                  /\ (tail = rest \/ exists d' tail', (d' < 10)%N
                                        /\ tail = String (digit d') tail')).
  { rewrite digits_of_append. cbn [String.append].
    apply digits_of_digits. unfold fuel. lia. }
  assert (Hval : digits_value 10 (digits_of fuel n "" +:+ rest) 0 false = Some n).
  { rewrite digits_of_append. cbn [String.append].
    rewrite digits_value_digits_of; [|unfold fuel; lia|exact Hn].
    now apply digits_value_stops. }
  unfold parseInt. destruct (z <? 0)%Z eqn:Hneg.
  - cbn [String.append trimStart]. change (is_space "-") with false. cbn iota.
    rewrite (Hparse _ Hds Hval true). f_equal. apply Z.ltb_lt in Hneg. unfold n. lia.
  - destruct Hds as (d & tail & Hd & Heq & Htail).
    destruct (digit_not_special d Hd) as (Hsp & _ & _ & Hminus & Hplus).
    rewrite Heq in *. cbn [trimStart]. rewrite Hsp.
    assert (Hsign : match String (digit d) tail with
                    | String "-" s' => (true, s')
                    | String "+" s' => (false, s')
                    | _ => (false, String (digit d) tail)
                    end = (false, String (digit d) tail)).
    { destruct (Ascii.eqb_spec (digit d) "-") as [->|Hm]; [discriminate|].
      destruct (Ascii.eqb_spec (digit d) "+") as [->|Hp]; [discriminate|].
      destruct (digit d) as [[] [] [] [] [] [] [] []]; try reflexivity; congruence. }
    rewrite Hsign.
    rewrite (Hparse _ (ex_intro _ d (ex_intro _ tail (conj Hd (conj eq_refl Htail)))) Hval false).
    f_equal. apply Z.ltb_ge in Hneg. unfold n. lia.
Qed.

End JSNumberFacts.

(** ** The counters *)

(** [n] evaluations of a directive on the same text, one after the other. *)
Definition evaluations (n : nat) (p : Placeholder) (str : string) (context : option Context)
  : M (list (JSObject.t string)) :=
  for_of (List.repeat tt n)
         (fun _ results => let* fields := apply p str context in ret (results ++ [fields])%list)
         [].

Definition counted (z : Z) : JSObject.t string :=
  [("result", JSNumber.toString (JSNumber.Int z))].

Lemma counter_step (directive str : string) (v : Z) (w : World) :
  (falsy (localStorage w !! counter_identifier directive str) = true /\ v = 0%Z
   \/ localStorage w !! counter_identifier directive str
      = Some (JSNumber.toString (JSNumber.Int v))) ->
  counter directive str w
  = Returned (counted (v + 1))
             (stored w (counter_identifier directive str)
                     (JSNumber.toString (JSNumber.Int (v + 1)))).
Proof.
  intros [[Hfalsy ->]|Hitem].
  - unfold counter. fold (counter_identifier directive str).
    unfold bind, Store.getItem, Store.setItem, ret. rewrite Hfalsy. reflexivity.
  - apply (counter_adds_one directive str _ v w Hitem).
    rewrite <- (JSStringFacts.append_nil_r (JSNumber.toString (JSNumber.Int v))).
    now apply JSNumberFacts.parseInt_toString.
Qed.

Lemma counter_steps (directive str : string) (p : Placeholder) (context : option Context) :
  (forall w, apply p str context w = counter directive str w) ->
  forall (n : nat) (v : Z) (w : World) (results : list (JSObject.t string)),
    (falsy (localStorage w !! counter_identifier directive str) = true /\ v = 0%Z
     \/ localStorage w !! counter_identifier directive str
        = Some (JSNumber.toString (JSNumber.Int v))) ->
    exists w',
      for_of (List.repeat tt n)
             (fun _ results => let* fields := apply p str context in
                               ret (results ++ [fields])%list)
             results w
      = Returned (results ++ map (fun i => counted (v + Z.of_nat i)) (seq 1 n))%list w' /\
      (0 < n ->
       localStorage w' !! counter_identifier directive str
       = Some (JSNumber.toString (JSNumber.Int (v + Z.of_nat n)))).
Proof.
  intros Happly. induction n as [|n IH]; intros v w results Hitem.
  - exists w. split; [|lia]. cbn [List.repeat for_of seq map]. now rewrite app_nil_r.
  - cbn [List.repeat for_of].
    assert (Hstep : (let* fields := apply p str context in ret (results ++ [fields])%list) w
                    = Returned (results ++ [counted (v + 1)])%list
                               (stored w (counter_identifier directive str)
                                       (JSNumber.toString (JSNumber.Int (v + 1))))).
    { unfold bind. now rewrite Happly, (counter_step _ _ v w Hitem). }
    rewrite (bind_returned _ _ _ _ _ Hstep).
    destruct (IH (v + 1)%Z (stored w (counter_identifier directive str)
                                  (JSNumber.toString (JSNumber.Int (v + 1))))
                 (results ++ [counted (v + 1)])%list) as (w' & Hrun & Hlast).
    { right. unfold stored. cbn [localStorage]. apply lookup_insert_eq. }
    exists w'. split.
    + rewrite Hrun. f_equal. rewrite <- app_assoc. f_equal. cbn [seq map app].
      f_equal. rewrite <- (List.seq_shift n 1), List.map_map. apply List.map_ext. intros i. f_equal. lia.
    + intros _. destruct n as [|n].
      * cbn [List.repeat for_of] in Hrun. unfold ret in Hrun. injection Hrun as _ <-.
        unfold stored. cbn [localStorage]. rewrite lookup_insert_eq. reflexivity.
      * rewrite Hlast by lia. do 3 f_equal. lia.
Qed.

(** X6: a counter counts: on a counter that is not stored, or is stored as
    the empty text, [n] evaluations of [{{increment:...}}] yield 1, 2, ...,
    [n], and leave [n] stored, for [n] a safe integer (below 2^53, where
    the doubles of the code are exact). *)
Theorem increment_counts (n : nat) (str : string) (context : option Context) (w : World) :
  falsy (localStorage w !! counter_identifier "increment" str) = true ->
  JSNumber.safe_integer (Z.of_nat n) ->
  exists w',
    evaluations n increment str context w
    = Returned (map (fun i => counted (Z.of_nat i)) (seq 1 n)) w' /\
    (0 < n ->
     localStorage w' !! counter_identifier "increment" str
     = Some (JSNumber.toString (JSNumber.Int (Z.of_nat n)))).
Proof.
  intros Hfresh _.
  destruct (counter_steps "increment" str increment context (fun w0 => eq_refl) n 0 w []
              (or_introl (conj Hfresh eq_refl))) as (w' & Hrun & Hlast).
  exists w'. split; [exact Hrun|exact Hlast].
Qed.

Lemma counter_NaN_steps (str : string) (context : option Context) (n : nat) :
  forall (item : string) (w : World) (results : list (JSObject.t string)),
    localStorage w !! counter_identifier "increment" str = Some item ->
    falsy (Some item) = false ->
    JSNumber.parseInt item = JSNumber.NaN ->
    exists w',
      for_of (List.repeat tt n)
             (fun _ results => let* fields := apply increment str context in
                               ret (results ++ [fields])%list)
             results w
      = Returned (results ++ List.repeat [("result", "NaN")] n)%list w'.
Proof.
  induction n as [|n IH]; intros item w results Hitem Hfull Hparse.
  - exists w. cbn [List.repeat for_of]. now rewrite app_nil_r.
  - cbn [List.repeat for_of].
    assert (Hstep : (let* fields := apply increment str context in
                     ret (results ++ [fields])%list) w
                    = Returned (results ++ [[("result", "NaN")]])%list
                               (stored w (counter_identifier "increment" str) "NaN")).
    { cbn [apply increment]. unfold counter. fold (counter_identifier "increment" str).
      unfold bind, Store.getItem, Store.setItem, ret. rewrite Hitem, Hfull.
      cbn [or_empty]. rewrite Hparse. reflexivity. }
    rewrite (bind_returned _ _ _ _ _ Hstep).
    destruct (IH "NaN" (stored w (counter_identifier "increment" str) "NaN")
                 (results ++ [[("result", "NaN")]])%list
                 ltac:(unfold stored; cbn [localStorage]; apply lookup_insert_eq)
                 eq_refl eq_refl) as (w' & Hrun).
    exists w'. rewrite Hrun. now rewrite <- app_assoc.
Qed.

(** X7: a counter that holds a text [parseInt] reads no number from turns
    into [NaN] and stays so, whatever the number of evaluations. *)
Theorem counter_without_number_is_NaN
    (n : nat) (str item : string) (context : option Context) (w : World) :
  localStorage w !! counter_identifier "increment" str = Some item ->
  falsy (Some item) = false ->
  JSNumber.parseInt item = JSNumber.NaN ->
  exists w',
    evaluations n increment str context w = Returned (List.repeat [("result", "NaN")] n) w'.
Proof.
  intros Hitem Hfull Hparse.
  exact (counter_NaN_steps str context n item w [] Hitem Hfull Hparse).
Qed.

(** ** The unique ids *)

(** [{{usedUUIDs}}] *)
Definition usedUUIDsDirective : Placeholder := {|
  name := "usedUUIDs";
  aliases := None;
  result_keys := Some ["usedUUIDs"];
  dependencies := None;
  constant := false;
  apply := fun str context =>
    let* used := Store.getUsedUUIDs in
    match used with
    | Some ids =>
        let joined := JSString.join ", " ids in
        ret (obj [("result", joined); ("usedUUIDs", joined)])
    | None => ret (obj [("result", ""); ("usedUUIDs", "")])
    end
|}.

(** X8: an evaluation of [{{uuid}}] yields a value that is not among the
    used ones and appends it to them; used ids that were distinct stay
    distinct.  The random source is taken never to repeat a value, so that
    the loop that draws again ends within its bound. *)
Theorem uuid_is_new_and_recorded
    (env : Env) (fuel : nat) (str : string) (context : option Context) (w : World) :
  never_repeats env ->
  List.length (used w) < fuel ->
  exists u w',
    apply (uuid env fuel) str context w = Returned [("result", u); ("uuid", u)] w' /\
    ~ In u (used w) /\
    usedUUIDs w' = Some (used w ++ [u])%list /\
    (List.NoDup (used w) -> List.NoDup (used w')).
Proof.
  intros Hinj Hfuel.
  destruct (uuid_apply env fuel str context w Hinj Hfuel)
    as (u & w' & Happly & Hfresh & Hused & _).
  assert (Hnew : ~ In u (used w)).
  { intros Hin. apply includes_In in Hin. congruence. }
  exists u, w'. repeat split; [exact Happly|exact Hnew|exact Hused|].
  intros Hnd. unfold used at 1. rewrite Hused.
  apply List.NoDup_app; repeat split; [exact Hnd|repeat constructor; intros []|].
  intros x Hx [<-|[]]. now apply Hnew.
Qed.

(** X9: the value that [{{uuid}}] yields is the last of those that
    [{{usedUUIDs}}] lists afterwards: the list is the one from before,
    with the new value appended, joined by commas. *)
Theorem usedUUIDs_lists_the_new_id
    (env : Env) (fuel : nat) (str str' : string) (context context' : option Context)
    (w : World) :
  never_repeats env ->
  List.length (used w) < fuel ->
  exists u w',
    apply (uuid env fuel) str context w = Returned [("result", u); ("uuid", u)] w' /\
    apply usedUUIDsDirective str' context' w'
    = Returned [("result", JSString.join ", " (used w ++ [u]));
                ("usedUUIDs", JSString.join ", " (used w ++ [u]))] w'.
Proof.
  intros Hinj Hfuel.
  destruct (uuid_apply env fuel str context w Hinj Hfuel)
    as (u & w' & Happly & _ & Hused & _).
  exists u, w'. split; [exact Happly|].
  cbn [apply usedUUIDsDirective]. unfold bind, Store.getUsedUUIDs. now rewrite Hused.
Qed.

(** ** [applyToString] and [applyToStrings]

    The first expansion function of the file: it goes through the
    built-in table only, reads no setting and keeps no context of its
    own. *)

Section ApplyToString.

(** the table of built-in directives *)
Variable placeholders : PlaceholderList.
Variable fuel : nat.

(** [aliases.every((alias) => !subbedStr.match(new RegExp(alias, "g")))] *)
Fixpoint none_matches (aliases : list string) (subbedStr : string) : M bool :=
  match aliases with
  | [] => ret true
  | alias :: rest =>
      let* re := new_RegExp alias in
      if RegExp.test re subbedStr then ret false else none_matches rest subbedStr
  end.

(** [while (subbedStr.match(new RegExp(pattern, "g")) != undefined)
       subbedStr = subbedStr.replace(new RegExp(pattern), (await placeholder.apply(...)).result)] *)
Definition replace_while (placeholder : Placeholder) (context : option Context)
    (pattern subbedStr : string) : M string :=
  while fuel
        (fun s => let* re := new_RegExp pattern in ret (RegExp.test re s))
        (fun s =>
           let* re := new_RegExp pattern in
           let* fields := apply placeholder s context in
           ret (RegExp.replace_first re (replacement_of fields) s, false))
        subbedStr.

Definition applyToString (str : string) (context : option Context) : M string :=
  for_of placeholders
    (fun entry subbedStr =>
       let '(key, placeholder) := entry in
       let* re := new_RegExp key in
       let* skip :=
         if RegExp.test re subbedStr then ret false
         else
           match aliases placeholder with
           | Some aliases => none_matches aliases subbedStr
           | None => ret true
           end in
       if skip then ret subbedStr
       else
         match aliases placeholder with
         | Some aliases =>
             if existsb (fun alias => JSString.includes alias subbedStr) aliases
             then for_of aliases (replace_while placeholder context) subbedStr
             else replace_while placeholder context key subbedStr
         | None => replace_while placeholder context key subbedStr
         end)
    str.

(** The context is not handed on. *)
Definition applyToStrings (strs : list string) (context : option Context) : M (list string) :=
  for_of strs
    (fun str subbedStrs => let* subbed := applyToString str None in
                           ret (subbedStrs ++ [subbed])%list)
    [].

End ApplyToString.

(** ** Texts without directives *)

(** The key, the key followed by the lookahead of [bulkApply], and the
    aliases of the entry begin with an opening brace. *)
Definition braces_first (entry : string * Placeholder) : bool :=
  brace_led entry && begins_with_brace (fst entry +:+ lookahead).

Lemma braces_first_seed_idle (all : PlaceholderList) (str : string) (context : option Context) :
  forallb braces_first all = true -> JSStringFacts.lacks "{" str = true ->
  seed_pass_idle all str context = true.
Proof.
  intros Hall Hstr. destruct context as [c|]; [|reflexivity]. cbn [seed_pass_idle].
  apply forallb_forall. intros [k v] _. cbn [fst]. unfold seed_idle.
  destruct (find (named k) all) as [holder|] eqn:Hfind; [|reflexivity].
  apply find_some in Hfind as [Hin _].
  apply (proj1 (forallb_forall _ _) Hall) in Hin. unfold braces_first in Hin.
  apply andb_prop in Hin as [_ Hla].
  now apply begins_with_brace_no_match.
Qed.

Lemma braces_first_brace_led (all : PlaceholderList) :
  forallb braces_first all = true -> forallb brace_led all = true.
Proof.
  intros H. apply forallb_forall. intros e He.
  apply (proj1 (forallb_forall _ _) H) in He. unfold braces_first in He.
  now apply andb_prop in He as [He _].
Qed.

(** X10: [bulkApply] returns a text without opening brace as it is, and
    leaves the state as it is, whatever the context: no directive is
    evaluated, nothing is counted.  The keys and aliases of the table in
    use begin with an opening brace, as those of the built-in table do. *)
Theorem bulkApply_leaves_plain_text
    (env : Env) (placeholders : PlaceholderList) (fuel : nat) (str : string)
    (context : option Context) (w : World) :
  forallb braces_first (sortedPlaceholders env placeholders) = true ->
  JSStringFacts.lacks "{" str = true ->
  bulkApply env placeholders fuel str context w = Returned str w.
Proof.
  intros Hall Hstr. unfold bulkApply. destruct (negb (processPlaceholders env)); [reflexivity|].
  set (all := sortedPlaceholders env placeholders) in *.
  rewrite (bind_returned _ _ _ _ _
             (seed_pass_idle_spec env all str context w
                (braces_first_seed_idle all str context Hall Hstr))).
  cbv beta.
  rewrite (bind_returned _ _ _ _ _
             (for_of_all_inert env fuel all all str _ w
                (brace_led_inert all str (braces_first_brace_led all Hall) Hstr))).
  reflexivity.
Qed.

Lemma none_matches_inert (aliases : list string) (str : string) (w : World) :
  forallb (fun a => no_match a str) aliases = true ->
  none_matches aliases str w = Returned true w.
Proof.
  induction aliases as [|a aliases IH]; cbn [forallb none_matches]; [reflexivity|].
  intros H. apply andb_prop in H as [Ha H]. unfold no_match in Ha.
  unfold new_RegExp, call, bind.
  destruct (RegExp.compile a) as [re|]; [|discriminate]. cbn [ret].
  destruct (RegExp.test re str); [discriminate|]. now apply IH.
Qed.

Lemma applyToString_inert (table rest : PlaceholderList) (fuel : nat) (str : string)
    (context : option Context) (w : World) :
  forallb (inert str) rest = true ->
  for_of rest
    (fun entry subbedStr =>
       let '(key, placeholder) := entry in
       let* re := new_RegExp key in
       let* skip :=
         if RegExp.test re subbedStr then ret false
         else
           match aliases placeholder with
           | Some aliases => none_matches aliases subbedStr
           | None => ret true
           end in
       if skip then ret subbedStr
       else
         match aliases placeholder with
         | Some aliases =>
             if existsb (fun alias => JSString.includes alias subbedStr) aliases
             then for_of aliases (replace_while fuel placeholder context) subbedStr
             else replace_while fuel placeholder context key subbedStr
         | None => replace_while fuel placeholder context key subbedStr
         end)
    str w
  = Returned str w.
Proof.
  induction rest as [|[key p] rest IH]; cbn [forallb for_of]; [reflexivity|].
  intros H. apply andb_prop in H as [He H]. unfold inert in He. cbn [fst snd] in He.
  apply andb_prop in He as [Ha Hk]. unfold no_match in Hk.
  unfold bind at 1. unfold bind at 1. unfold new_RegExp, call.
  destruct (RegExp.compile key) as [re|]; [|discriminate]. cbn [ret].
  destruct (RegExp.test re str); [discriminate|].
  unfold bind at 1.
  destruct (aliases p) as [al|].
  - rewrite (none_matches_inert al str w Ha). now apply IH.
  - cbn [ret]. now apply IH.
Qed.

(** X11: [applyToString] returns a text without opening brace as it is and
    leaves the state as it is, and so does [applyToStrings] for a list of
    such texts. *)
Theorem applyToString_leaves_plain_text
    (placeholders : PlaceholderList) (fuel : nat) (str : string) (strs : list string)
    (context : option Context) (w : World) :
  forallb brace_led placeholders = true ->
  JSStringFacts.lacks "{" str = true ->
  forallb (JSStringFacts.lacks "{") strs = true ->
  applyToString placeholders fuel str context w = Returned str w /\
  applyToStrings placeholders fuel strs context w = Returned strs w.
Proof.
  intros Hall Hstr Hstrs.
  assert (Hone : forall s c, JSStringFacts.lacks "{" s = true ->
                             applyToString placeholders fuel s c w = Returned s w).
  { intros s c Hs. apply (applyToString_inert placeholders), brace_led_inert; assumption. }
  split; [now apply Hone|].
  unfold applyToStrings.
  assert (Hall' : forall done,
             for_of strs
               (fun str subbedStrs =>
                  let* subbed := applyToString placeholders fuel str None in
                  ret (subbedStrs ++ [subbed])%list)
               done w
             = Returned (done ++ strs)%list w); [|exact (Hall' [])].
  induction strs as [|s strs IH]; intros done; cbn [for_of].
  - now rewrite app_nil_r.
  - cbn [forallb] in Hstrs. apply andb_prop in Hstrs as [Hs Hstrs].
    rewrite (bind_bind_returned _ _ _ _ _ _ (Hone s None Hs)). cbn [ret].
    unfold bind at 1. unfold ret at 1. rewrite (IH Hstrs). now rewrite <- app_assoc.
Qed.

(** ** Custom placeholders *)

Section CustomFacts.

Import JSString JSStringFacts.

(** [replaceAll] leaves a text alone that lacks the first character of
    the pattern. *)
Lemma replaceAll_loop_lacks (c : ascii) (pattern replacement : string) (fuel : nat) :
  forall (bef s : string),
    String.length s < fuel -> lacks c s = true ->
    replaceAll_loop fuel (String c pattern) replacement bef s = s.
Proof.
  induction fuel as [|fuel IH]; intros bef s Hfuel Hs; [lia|].
  destruct s as [|a s]; [reflexivity|].
  cbn [lacks] in Hs. apply andb_prop in Hs as [Ha Hs]. apply negb_true_iff in Ha.
  cbn [replaceAll_loop startsWith]. rewrite Ascii.eqb_sym, Ha.
  f_equal. apply IH; [cbn [String.length] in Hfuel; lia|exact Hs].
Qed.

Lemma fill_groups_plain (groups : list (option string)) :
  forall (index : nat) (value : string),
    lacks "$" value = true -> fill_groups groups index value = value.
Proof.
  induction groups as [|g groups IH]; intros index value Hvalue; [reflexivity|].
  cbn [fill_groups]. unfold replaceAll at 1. cbn [String.append].
  rewrite replaceAll_loop_lacks by (lia || exact Hvalue). now apply IH.
Qed.

End CustomFacts.

(** X12: a custom placeholder whose value has no dollar sign yields that
    value for every text, under [result] and under its name; for the name
    [__proto__] the assignment adds no field.  The key is a pattern of
    the modelled fragment. *)
Theorem custom_value_without_dollar
    (key : string) (placeholder : CustomPlaceholder) (str : string)
    (context : option Context) (w : World) :
  RegExp.compile key <> None ->
  JSStringFacts.lacks "$" (custom_value placeholder) = true ->
  apply (custom key placeholder) str context w
  = Returned (if String.eqb (custom_name placeholder) "__proto__"
              then [("result", custom_value placeholder)]
              else JSObject.set (custom_name placeholder) (custom_value placeholder)
                                [("result", custom_value placeholder)]) w.
Proof.
  intros Hkey Hvalue. cbn [apply custom]. unfold new_RegExp, call, bind.
  destruct (RegExp.compile key) as [re|]; [|contradiction]. cbn [ret].
  now rewrite (fill_groups_plain _ 0 _ Hvalue).
Qed.

Section LoaderFacts.

Lemma has_set (key k : string) (p : Placeholder) (table : PlaceholderList) :
  JSObject.has key (JSObject.set k p table)
  = String.eqb k key || JSObject.has key table.
Proof.
  unfold JSObject.has at 1. rewrite JSObjectFacts.get_set.
  destruct (String.eqb k key); [reflexivity|]. reflexivity.
Qed.

Lemma has_assign (key : string) (props table : PlaceholderList) :
  JSObject.has key (fold_left (fun acc kv => JSObject.set (fst kv) (snd kv) acc) props table)
  = existsb (fun kv => String.eqb (fst kv) key) props || JSObject.has key table.
Proof.
  revert table. induction props as [|kv props IH]; intros table; cbn [fold_left existsb].
  - reflexivity.
  - rewrite IH, has_set. now rewrite orb_assoc, (orb_comm (existsb _ props)).
Qed.

(** A key is in the table made of a file when the file has it, it
    compiles, and it is not [__proto__]. *)
Lemma has_newPlaceholders (key : string) (data : JSObject.t CustomPlaceholder) :
  JSObject.has key (newPlaceholders data) = true <->
  (exists p, In (key, p) data) /\ RegExp.compile key <> None /\ key <> "__proto__".
Proof.
  unfold newPlaceholders.
  assert (H : forall acc,
             JSObject.has key
               (fold_left
                  (fun acc kp =>
                     match RegExp.compile (fst kp) with
                     | Some _ => JSObject.assign (fst kp) (custom (fst kp) (snd kp)) acc
                     | None => acc
                     end) data acc) = true
             <-> ((exists p, In (key, p) data) /\ RegExp.compile key <> None
                  /\ key <> "__proto__")
                 \/ JSObject.has key acc = true).
  { induction data as [|[k p] data IH]; intros acc; cbn [fold_left fst snd].
    - split; [now right|]. intros [[[p []] _]|H]; exact H.
    - rewrite IH. clear IH.
      assert (Hstep : JSObject.has key
                        (match RegExp.compile k with
                         | Some _ => JSObject.assign k (custom k p) acc
                         | None => acc
                         end) = true
                      <-> (k = key /\ RegExp.compile key <> None /\ key <> "__proto__")
                          \/ JSObject.has key acc = true).
      { destruct (RegExp.compile k) as [re|] eqn:Hk.
        - unfold JSObject.assign. destruct (String.eqb_spec k "__proto__") as [->|Hproto].
          + split; [now right|]. intros [(<- & _ & Hne)|H]; [contradiction|exact H].
          + rewrite has_set. split.
            * intros H. apply orb_prop in H as [H|H]; [|now right].
              apply String.eqb_eq in H. subst. left. repeat split; congruence.
            * intros [(-> & _)|H]; [now rewrite String.eqb_refl|].
              rewrite H. apply orb_true_r.
        - split; [now right|]. intros [(-> & Hc & _)|H]; [congruence|exact H]. }
      rewrite Hstep. split.
      + intros [([q Hq] & Hc & Hne)|[(-> & Hc & Hne)|H]].
        * left. split; [exists q; now right|now split].
        * left. split; [exists p; now left|now split].
        * now right.
      + intros [([q [Hq|Hq]] & Hc & Hne)|H].
        * injection Hq as -> ->. right. left. now repeat split.
        * left. split; [now exists q|now split].
        * right. now right. }
  rewrite H. split; [intros [H'|H']; [exact H'|discriminate]|now left].
Qed.

Lemma has_spread (key : string) (o1 o2 : PlaceholderList) :
  JSObject.has key (JSObject.spread o1 o2)
  = existsb (fun kv => String.eqb (fst kv) key) o2
    || existsb (fun kv => String.eqb (fst kv) key) o1.
Proof.
  unfold JSObject.spread. rewrite !has_assign. cbn. now rewrite orb_false_r.
Qed.

Lemma has_existsb (key : string) (o : PlaceholderList) :
  JSObject.has key o = existsb (fun kv => String.eqb (fst kv) key) o.
Proof.
  unfold JSObject.has. induction o as [|[k p] o IH]; cbn [JSObject.get existsb fst];
    [reflexivity|].
  destruct (String.eqb k key); [reflexivity|exact IH].
Qed.

(** The keys of the loaded table, in the model: those of the files'
    entries that compile, but for [__proto__]. *)
Lemma has_loaded (env : Env) (key : string) :
  JSObject.has key (loadCustomPlaceholders env) = true <->
  (exists data p, In (Some data) (customPlaceholderFiles env) /\ In (key, p) data)
  /\ RegExp.compile key <> None /\ key <> "__proto__".
Proof.
  unfold loadCustomPlaceholders.
  assert (H : forall acc,
             JSObject.has key
               (fold_left
                  (fun acc file =>
                     match file with
                     | Some data => JSObject.spread acc (newPlaceholders data)
                     | None => acc
                     end) (customPlaceholderFiles env) acc) = true
             <-> ((exists data p, In (Some data) (customPlaceholderFiles env)
                                  /\ In (key, p) data)
                  /\ RegExp.compile key <> None /\ key <> "__proto__")
                 \/ JSObject.has key acc = true).
  { induction (customPlaceholderFiles env) as [|file files IH]; intros acc; cbn [fold_left].
    - split; [now right|]. intros [[(data & p & [] & _) _]|H]; exact H.
    - rewrite IH. destruct file as [data|].
      + rewrite has_spread, <- !has_existsb. split.
        * intros [[(d & p & Hd & Hp) Hc]|H].
          -- left. split; [|exact Hc]. exists d, p. split; [now right|exact Hp].
          -- apply orb_prop in H as [H|H]; [|now right].
             apply has_newPlaceholders in H as [[p Hp] Hc].
             left. split; [|exact Hc]. exists data, p. split; [now left|exact Hp].
        * intros [[(d & p & [Hd|Hd] & Hp) Hc]|H].
          -- injection Hd as ->. right. apply orb_true_iff. left.
             apply has_newPlaceholders. split; [now exists p|exact Hc].
          -- left. split; [|exact Hc]. now exists d, p.
          -- right. now rewrite H, orb_true_r.
      + split.
        * intros [[(d & p & Hd & Hp) Hc]|H]; [|now right].
          left. split; [|exact Hc]. exists d, p. split; [now right|exact Hp].
        * intros [[(d & p & [Hd|Hd] & Hp) Hc]|H]; [discriminate| |now right].
          left. split; [|exact Hc]. now exists d, p. }
  rewrite H. split; [intros [H'|H']; [exact H'|discriminate]|now left].
Qed.

(** X13: the loader keeps the entries of the files and adds none: a key
    that is a pattern of the modelled fragment, and not [__proto__], and
    that a file that could be read has, is a key of the loaded table,
    whatever else the files hold (a key that does not compile is left out
    and the loading goes on); and every key of the loaded table is the
    key of an entry of such a file. *)
Theorem loaded_keys_are_those_of_the_files (env : Env) (key : string) :
  ((exists data p, In (Some data) (customPlaceholderFiles env) /\ In (key, p) data) ->
   RegExp.compile key <> None ->
   key <> "__proto__" ->
   JSObject.has key (loadCustomPlaceholders env) = true) /\
  (JSObject.has key (loadCustomPlaceholders env) = true ->
   exists data p, In (Some data) (customPlaceholderFiles env) /\ In (key, p) data).
Proof.
  split.
  - intros Hfile Hkey Hproto. apply has_loaded. now repeat split.
  - intros H. now apply has_loaded in H as [Hfile _].
Qed.

(** X14: under a key that no built-in directive has, the table that
    [bulkApply] expands with holds what the custom files provide; with
    custom placeholders switched off it holds nothing under such a key. *)
Theorem custom_kept_under_new_key (env : Env) (builtins : PlaceholderList) (key : string) :
  JSObject.has key builtins = false ->
  JSObject.get key (sortedPlaceholders env builtins)
  = if allowCustomPlaceholders env then JSObject.get key (loadCustomPlaceholders env)
    else None.
Proof.
  intros Hnew. unfold sortedPlaceholders. rewrite JSObjectFacts.get_spread.
  rewrite (JSObjectFacts.assigned_not_in key builtins (JSObjectFacts.has_false_not_in _ _ Hnew)).
  destruct (allowCustomPlaceholders env); [|reflexivity].
  apply JSObjectFacts.assigned_wf. unfold loadCustomPlaceholders.
  assert (H : forall acc : PlaceholderList,
             JSObjectFacts.wf acc ->
             JSObjectFacts.wf
               (fold_left
                  (fun acc file =>
                     match file with
                     | Some data => JSObject.spread acc (newPlaceholders data)
                     | None => acc
                     end) (customPlaceholderFiles env) acc)).
  { induction (customPlaceholderFiles env) as [|file files IH]; intros acc Hacc;
      cbn [fold_left]; [exact Hacc|].
    apply IH. destruct file as [data|]; [|exact Hacc].
    unfold JSObject.spread. apply JSObjectFacts.wf_assign, JSObjectFacts.wf_assign.
    constructor. }
  apply H. constructor.
Qed.

End LoaderFacts.

(** ** Matching: repetitions over a run of characters *)

Module MatchFacts.

Import JSString RegExp JSStringFacts RegExpFacts.

(** Every character of the text has the property. *)
Fixpoint all_chars (p : ascii -> bool) (s : string) : bool :=
  match s with
  | EmptyString => true
  | String c s' => p c && all_chars p s'
  end.

Lemma lacks_all_chars (c : ascii) (s : string) :
  lacks c s = all_chars (fun a => negb (Ascii.eqb a c)) s.
Proof. induction s as [|a s IH]; [reflexivity|]. cbn [lacks all_chars]. now rewrite IH. Qed.

Lemma all_chars_impl (p q : ascii -> bool) (s : string) :
  (forall c, p c = true -> q c = true) -> all_chars p s = true -> all_chars q s = true.
Proof.
  intros H. induction s as [|a s IH]; [reflexivity|]. cbn [all_chars].
  intros Hs. apply andb_prop in Hs as [Ha Hs]. now rewrite (H a Ha), IH.
Qed.

Lemma all_chars_both (p q : ascii -> bool) (s : string) :
  all_chars p s = true -> all_chars q s = true ->
  all_chars (fun c => p c && q c) s = true.
Proof.
  induction s as [|a s IH]; [reflexivity|]. cbn [all_chars].
  intros Hp Hq. apply andb_prop in Hp as [Ha Hp]. apply andb_prop in Hq as [Hb Hq].
  now rewrite Ha, Hb, IH.
Qed.

(** The match comes to an end in a state with the property given. *)
Definition reaches (P : MatchState -> Prop) (o : option MatchState) : Prop :=
  exists z, o = Some z /\ P z.

(** The captures are those given but for the groups listed. *)
Definition agree_outside (gs : list nat) (caps caps' : list (option string)) : Prop :=
  List.length caps' = List.length caps /\ forall i, ~ In i gs -> caps' !! i = caps !! i.

Lemma agree_refl (gs : list nat) (caps : list (option string)) : agree_outside gs caps caps.
Proof. now split. Qed.

Lemma agree_trans (gs : list nat) (a b c : list (option string)) :
  agree_outside gs a b -> agree_outside gs b c -> agree_outside gs a c.
Proof.
  intros [Hl1 H1] [Hl2 H2]. split; [congruence|].
  intros i Hi. now rewrite H2, H1.
Qed.

Lemma agree_insert (gs : list nat) (i : nat) (v : option string) (caps : list (option string)) :
  In i gs -> agree_outside gs caps (<[i := v]> caps).
Proof.
  intros Hi. split; [apply length_insert|].
  intros j Hj. apply list_lookup_insert_ne. intros ->. contradiction.
Qed.

Lemma agree_clear (gs : list nat) (x : MatchState) :
  agree_outside gs (captures x) (captures (clear_captures gs x)).
Proof.
  unfold clear_captures. cbn [captures].
  assert (H : forall hs caps, incl hs gs ->
             agree_outside gs caps (fold_left (fun caps i => <[i := None]> caps) hs caps)).
  { induction hs as [|h hs IH]; intros caps Hincl; cbn [fold_left]; [apply agree_refl|].
    eapply agree_trans; [|apply IH; intros i Hi; apply Hincl; now right].
    apply agree_insert, Hincl. now left. }
  apply H. intros i Hi. exact Hi.
Qed.

Lemma agree_nil (caps caps' : list (option string)) :
  agree_outside [] caps caps' -> caps' = caps.
Proof. intros [_ H]. apply list_eq. intros i. apply H. intros []. Qed.

(** The subterm takes one character with property [p] and hands on. *)
Definition takes (p : ascii -> bool) (gs : list nat)
    (body : MatchState -> Cont -> option MatchState) : Prop :=
  forall bef c aft caps k,
    p c = true ->
    exists caps', agree_outside gs caps caps' /\
                  body (mkState bef (String c aft) caps) k
                  = k (mkState (String c bef) aft caps').

Lemma differs_in_position (bef bef' : string) (c : ascii) (aft : string)
    (caps caps' : list (option string)) :
  same_position (mkState bef (String c aft) caps) (mkState bef' aft caps') = false.
Proof. unfold same_position. cbn [after String.length]. apply Nat.eqb_neq. lia. Qed.

(** A lazy repetition goes over a run of characters that the subterm
    takes and before which what follows fails. *)
Lemma repeat_lazy_over (body : MatchState -> Cont -> option MatchState) (gs : list nat)
    (k : Cont) (p : ascii -> bool) (P : MatchState -> Prop) (rest : string) :
  takes p gs body ->
  (forall bef c aft caps, p c = true -> k (mkState bef (String c aft) caps) = None) ->
  forall (s : string) (fuel : nat) (bef : string) (caps : list (option string)),
    all_chars p s = true ->
    String.length s < fuel ->
    (forall caps', agree_outside gs caps caps' ->
                   reaches P (k (mkState (rev_append s bef) rest caps'))) ->
    reaches P (repeat body gs false k fuel 0 None (mkState bef (s +:+ rest) caps)).
Proof.
  intros Htakes Hfail. induction s as [|c s IH]; intros fuel bef caps Hs Hfuel Hk.
  - destruct fuel as [|fuel]; [cbn in Hfuel; lia|]. cbn [rev_append String.append] in *.
    destruct (Hk caps (agree_refl gs caps)) as (z & Hz & HP).
    exists z. split; [|exact HP]. cbn [repeat Nat.eqb negb]. now rewrite Hz.
  - destruct fuel as [|fuel]; [cbn in Hfuel; lia|].
    cbn [all_chars] in Hs. apply andb_prop in Hs as [Hc Hs].
    cbn [repeat String.append Nat.eqb negb]. rewrite (Hfail _ _ _ _ Hc).
    pose proof (agree_clear gs (mkState bef (String c (s +:+ rest)) caps)) as Hclear.
    unfold clear_captures in *. cbn [before after captures] in *.
    match goal with
    | |- reaches P (body (mkState _ _ ?cleared) ?d) =>
        destruct (Htakes bef c (s +:+ rest) cleared d Hc) as (caps' & Hagree & ->)
    end.
    cbn [andb]. rewrite differs_in_position. cbn [Nat.pred pred_max].
    apply IH; [exact Hs|cbn [String.length] in Hfuel; lia|].
    intros caps'' Hagree'. apply Hk.
    eapply agree_trans; [exact Hclear|]. eapply agree_trans; [exact Hagree|exact Hagree'].
Qed.

(** A greedy repetition goes over a run of characters that the subterm
    takes, up to where the subterm fails, when what follows matches there. *)
Lemma repeat_greedy_over (body : MatchState -> Cont -> option MatchState) (gs : list nat)
    (k : Cont) (p : ascii -> bool) (P : MatchState -> Prop) (rest : string) :
  takes p gs body ->
  (forall bef caps d, body (mkState bef rest caps) d = None) ->
  forall (s : string) (fuel mn : nat) (bef : string) (caps : list (option string)),
    all_chars p s = true ->
    String.length s < fuel ->
    mn <= String.length s ->
    (forall caps', agree_outside gs caps caps' ->
                   reaches P (k (mkState (rev_append s bef) rest caps'))) ->
    reaches P (repeat body gs true k fuel mn None (mkState bef (s +:+ rest) caps)).
Proof.
  intros Htakes Hstop. induction s as [|c s IH]; intros fuel mn bef caps Hs Hfuel Hmn Hk.
  - destruct fuel as [|fuel]; [cbn in Hfuel; lia|]. cbn [rev_append String.append] in *.
    cbn [String.length] in Hmn. replace mn with 0 by lia.
    cbn [repeat Nat.eqb negb]. unfold clear_captures. cbn [before after captures].
    rewrite Hstop. apply Hk, agree_refl.
  - destruct fuel as [|fuel]; [cbn in Hfuel; lia|].
    cbn [all_chars] in Hs. apply andb_prop in Hs as [Hc Hs].
    cbn [repeat String.append].
    pose proof (agree_clear gs (mkState bef (String c (s +:+ rest)) caps)) as Hclear.
    unfold clear_captures in *. cbn [before after captures] in *.
    assert (Hturn : forall d,
               (forall bef' caps', d (mkState bef' (s +:+ rest) caps')
                  = repeat body gs true k fuel (Nat.pred mn) None
                           (mkState bef' (s +:+ rest) caps')) ->
               reaches P (body (mkState bef (String c (s +:+ rest))
                                  (fold_left (fun caps i => <[i := None]> caps) gs caps)) d)).
    { intros d Hd.
      destruct (Htakes bef c (s +:+ rest)
                  (fold_left (fun caps i => <[i := None]> caps) gs caps) d Hc)
        as (caps' & Hagree & ->).
      rewrite Hd. apply IH; [exact Hs|cbn [String.length] in Hfuel; lia
                            |cbn [String.length] in Hmn; lia|].
      intros caps'' Hagree'. apply Hk.
      eapply agree_trans; [exact Hclear|]. eapply agree_trans; [exact Hagree|exact Hagree']. }
    destruct (Nat.eqb mn 0) eqn:Hzero; cbn [negb andb].
    + destruct (Hturn (fun y =>
                  if same_position (mkState bef (String c (s +:+ rest)) caps) y then None
                  else repeat body gs true k fuel (Nat.pred mn) (pred_max None) y))
        as (z & Hz & HP).
      { intros bef' caps'. now rewrite differs_in_position. }
      exists z. split; [|exact HP]. now rewrite Hz.
    + apply Hturn. reflexivity.
Qed.

(** A class is a subterm that takes the characters it holds. *)
Lemma class_takes (negated : bool) (items : list ClassItem) :
  takes (class_matches negated items) [] (m (Class negated items) true).
Proof.
  intros bef c aft caps k Hc. exists caps. split; [apply agree_refl|].
  cbn [m step_char before after captures]. now rewrite Hc.
Qed.

Lemma class_stops (negated : bool) (items : list ClassItem) (rest : string) :
  head_is (class_matches negated items) rest = false ->
  forall bef caps d, m (Class negated items) true (mkState bef rest caps) d = None.
Proof.
  intros H bef caps d. cbn [m step_char before after captures].
  destruct rest as [|c rest]; [reflexivity|]. cbn [head_is] in H. now rewrite H.
Qed.

End MatchFacts.

(** ** The directives on persistent variables, from text to store *)

Section VariableDirectives.

Import JSString RegExp JSStringFacts RegExpFacts MatchFacts.

Definition word_class : list ClassItem :=
  [CRange "a" "z"; CRange "A" "Z"; CRange "0" "9"; CChar "_"].

(** A name as the directives take it: letters, digits and underscores,
    at least one. *)
Definition is_name (n : string) : bool :=
  all_chars (class_matches false word_class) n && negb (String.eqb n "").

Definition words : Regex := Group 1 (Repeat 1 None true (Class false word_class)).
Definition any_text (g : nat) : Regex :=
  Group g (Repeat 0 None false (Class false [CEsc Space; CEsc NotSpace])).

Lemma variable_patterns :
  regex "{{get ([a-zA-Z0-9_]+)}}" = mkRegExp (chars_then "{{get " (Seq words closing)) 1 /\
  regex "{{delete ([a-zA-Z0-9_]+)}}"
  = mkRegExp (chars_then "{{delete " (Seq words closing)) 1 /\
  regex "{{reset ([a-zA-Z0-9_]+)}}" = mkRegExp (chars_then "{{reset " (Seq words closing)) 1 /\
  regex "{{set ([a-zA-Z0-9_]+):([\s\S]*?)}}"
  = mkRegExp (chars_then "{{set " (Seq words (Seq (Char ":") (Seq (any_text 2) closing)))) 2.
Proof. repeat split; vm_compute; reflexivity. Qed.

Lemma name_length (n : string) : is_name n = true -> 1 <= String.length n.
Proof.
  unfold is_name. intros H. apply andb_prop in H as [_ H].
  destruct n; [discriminate|cbn; lia].
Qed.

(** The name of a directive is matched in full when what follows it is
    no letter, digit or underscore. *)
Lemma words_reach (n rest bef : string) (caps : list (option string)) (k : Cont)
    (P : MatchState -> Prop) :
  is_name n = true ->
  head_is (class_matches false word_class) rest = false ->
  reaches P (k (mkState (rev_append n bef) rest (<[1 := Some n]> caps))) ->
  reaches P (m words true (mkState bef (n +:+ rest) caps) k).
Proof.
  intros Hname Hrest Hk. pose proof (name_length n Hname) as Hlen.
  unfold is_name in Hname. apply andb_prop in Hname as [Hchars _].
  unfold words. cbn [m groups before after].
  eapply (repeat_greedy_over _ _ _ _ _ rest (class_takes false word_class)
            (class_stops false word_class rest Hrest)).
  - exact Hchars.
  - rewrite length_append. lia.
  - exact Hlen.
  - intros caps' Hagree. apply agree_nil in Hagree. subst caps'.
    unfold set_capture, captured. cbn [before after captures].
    now rewrite take_matched.
Qed.

(** A text of any characters but the closing brace is matched in full
    before two closing braces. *)
Lemma any_text_reaches (g : nat) (v rest bef : string) (caps : list (option string))
    (P : MatchState -> Prop) :
  lacks "}" v = true ->
  P (mkState (String "}" (String "}" (rev_append v bef))) rest (<[g := Some v]> caps)) ->
  reaches P (m (Seq (any_text g) closing) true (mkState bef (v +:+ "}}" +:+ rest) caps) Some).
Proof.
  intros Hv HP. unfold any_text. cbn [m groups before after].
  eapply (repeat_lazy_over _ _ _ (fun c => negb (Ascii.eqb c "}")) _ ("}}" +:+ rest)).
  - intros bef' c aft caps' k' _. exists caps'. split; [apply agree_refl|].
    cbn [m step_char before after captures]. now rewrite any_character.
  - intros bef' c aft caps' Hc. apply negb_true_iff in Hc.
    unfold set_capture, closing. cbn [before after captures].
    now rewrite (closing_fails _ _ _ _ _ _ Hc).
  - now rewrite <- lacks_all_chars.
  - rewrite length_append. lia.
  - intros caps' Hagree. apply agree_nil in Hagree. subst caps'.
    unfold set_capture, captured. cbn [before after captures].
    rewrite take_matched. eexists. split; [reflexivity|exact HP].
Qed.

Lemma closing_not_word (rest : string) :
  head_is (class_matches false word_class) ("}}" +:+ rest) = false.
Proof. reflexivity. Qed.

(** What the patterns of [get], [delete] and [reset] find in a text
    [A{{verb n}}B] with no opening brace in [A]: the name. *)
Lemma verb_found (verb n A B : string) :
  lacks "{" A = true -> is_name n = true ->
  exists res,
    exec (mkRegExp (chars_then (String "{" (String "{" verb)) (Seq words closing)) 1)
         (A +:+ String "{" (String "{" verb) +:+ n +:+ "}}" +:+ B) = Some res /\
    group res 1 = Some n.
Proof.
  intros HA Hname. unfold exec. cbn [ast ngroups chars_then].
  rewrite (search_skip "{" _ 1 A "" _ HA).
  assert (Hm : reaches (fun z => captures z !! 1 = Some (Some n))
                 (m (Seq (Char "{") (Seq (Char "{") (chars_then verb (Seq words closing)))) true
                    (mkState (rev_append A "")
                             (String "{" (String "{" verb) +:+ n +:+ "}}" +:+ B)
                             (replicate 2 None)) Some)).
  { change (Seq (Char "{") (Seq (Char "{") (chars_then verb (Seq words closing))))
      with (chars_then (String "{" (String "{" verb)) (Seq words closing)).
    rewrite m_chars_then_here. cbn [m].
    apply words_reach; [exact Hname|apply closing_not_word|].
    cbn. eexists. split; reflexivity. }
  destruct Hm as (z & Hz & Hcap).
  rewrite (search_here _ _ _ _ _ Hz). eexists. split; [reflexivity|].
  unfold group, finish. cbn [result_groups].
  rewrite list_lookup_insert_ne by discriminate. now rewrite Hcap.
Qed.

(** ... and what the pattern of [set] finds in [A{{set n:v}}B]: the name
    and the value. *)
Lemma set_found (n v A B : string) :
  lacks "{" A = true -> is_name n = true -> lacks "}" v = true ->
  exists res,
    exec (mkRegExp (chars_then "{{set "
                      (Seq words (Seq (Char ":") (Seq (any_text 2) closing)))) 2)
         (A +:+ "{{set " +:+ n +:+ ":" +:+ v +:+ "}}" +:+ B) = Some res /\
    group res 1 = Some n /\ group res 2 = Some v.
Proof.
  intros HA Hname Hv. unfold exec. cbn [ast ngroups chars_then].
  rewrite (search_skip "{" _ 2 A "" _ HA).
  assert (Hm : reaches (fun z => captures z !! 1 = Some (Some n)
                                 /\ captures z !! 2 = Some (Some v))
                 (m (chars_then "{{set "
                       (Seq words (Seq (Char ":") (Seq (any_text 2) closing)))) true
                    (mkState (rev_append A "")
                             ("{{set " +:+ n +:+ ":" +:+ v +:+ "}}" +:+ B)
                             (replicate 3 None)) Some)).
  { rewrite m_chars_then_here. cbn [m].
    apply words_reach; [exact Hname|reflexivity|].
    cbn [m step_char before after captures String.append].
    change (Ascii.eqb ":" ":") with true. cbn iota.
    apply (any_text_reaches 2 v B); [exact Hv|]. cbn [captures]. split; reflexivity. }
  destruct Hm as (z & Hz & Hcap1 & Hcap2). cbn [chars_then] in Hz.
  rewrite (search_here _ _ _ _ _ Hz). eexists. split; [reflexivity|].
  unfold group, finish. cbn [result_groups].
  rewrite !list_lookup_insert_ne by discriminate. rewrite Hcap1, Hcap2. split; reflexivity.
Qed.

End VariableDirectives.

(** X15: the directives on persistent variables act on the name, and the
    value, written in them: in a text [A{{get n}}B], [A{{delete n}}B] or
    [A{{set n:v}}B] with no opening brace in [A], a name [n] of letters,
    digits and underscores and a value [v] without closing brace, [get]
    yields what [getPersistentVariable] reads for [n], [delete] deletes
    [n] and [set] sets [n] to [v]; [delete] and [set] yield the empty
    text. *)
Theorem variable_directives_call_the_store
    (n v A B : string) (context : option Context) (w : World) :
  JSStringFacts.lacks "{" A = true ->
  is_name n = true ->
  JSStringFacts.lacks "}" v = true ->
  apply get (A +:+ "{{get " +:+ n +:+ "}}" +:+ B) context w
  = (let* value := Store.getPersistentVariable n in ret [("result", value)]) w /\
  apply delete (A +:+ "{{delete " +:+ n +:+ "}}" +:+ B) context w
  = (run Store.deletePersistentVariable n in ret [("result", "")]) w /\
  apply setPersistentVariable (A +:+ "{{set " +:+ n +:+ ":" +:+ v +:+ "}}" +:+ B) context w
  = (run Store.setPersistentVariable n v in ret [("result", "")]) w.
Proof.
  intros HA Hname Hv.
  destruct variable_patterns as (Hget & Hdelete & _ & Hset).
  destruct (verb_found "get " n A B HA Hname) as (r1 & Hr1 & Hn1).
  destruct (verb_found "delete " n A B HA Hname) as (r2 & Hr2 & Hn2).
  destruct (set_found n v A B HA Hname Hv) as (r3 & Hr3 & Hn3 & Hv3).
  repeat split.
  - cbn [apply get]. rewrite Hget. cbn [String.append] in Hr1 |- *.
    rewrite Hr1, Hn1. reflexivity.
  - cbn [apply delete]. rewrite Hdelete. cbn [String.append] in Hr2 |- *.
    rewrite Hr2, Hn2. reflexivity.
  - cbn [apply setPersistentVariable]. rewrite Hset. cbn [String.append] in Hr3 |- *.
    rewrite Hr3, Hn3, Hv3. reflexivity.
Qed.

(** ** The directive that cuts a text off *)

(** [s.slice(0, end)] *)
Definition slice_to (s : string) (end_ : JSNumber.t) : string :=
  match end_ with
  | JSNumber.NaN => ""
  | JSNumber.Int z =>
      if (z <? 0)%Z then JSString.take (String.length s - Z.to_nat (- z)) s
      else JSString.take (Z.to_nat z) s
  end.

(** [{{cutoff [0-9]+:...}}] *)
Definition cutoff : Placeholder := {|
  name := "cutoff";
  aliases := None;
  result_keys := None;
  dependencies := None;
  constant := false;
  apply := fun str context =>
    match RegExp.exec (regex "(?<=(cutoff ))[0-9]+:(([^{]|{(?!{)|{{[\s\S]*?}})*?)}}") str with
    | Some matches =>
        let cutoff := JSNumber.parseInt (or_empty (RegExp.group matches 0)) in
        match RegExp.group matches 2 with
        | Some content => ret (obj [("result", slice_to content cutoff)])
        | None => throw "TypeError"
        end
    | None => ret (obj [("result", "")])
    end
|}.

Definition cutoff_key : string := "{{cutoff [0-9]+:(([^{]|{(?!{)|{{[\s\S]*?}})*?)}}".

Section CutoffPattern.

Import JSString RegExp JSStringFacts RegExpFacts MatchFacts.

(** One step of the body of a directive's argument: a character that is
    no opening brace, an opening brace that no other follows, or a nested
    directive. *)
Definition argument_step (g : nat) : Regex :=
  Group g
    (Alt (Class true [CChar "{"])
       (Alt (Seq (Char "{") (Look true true (Char "{")))
          (Seq (Char "{")
             (Seq (Char "{")
                (Seq (Repeat 0 None false (Class false [CEsc Space; CEsc NotSpace]))
                   closing))))).

Definition digits : Regex := Repeat 1 None true (Class false [CRange "0" "9"]).

Definition cutoff_ast : Regex :=
  Seq (Look false false (Group 1 (chars "cutoff ")))
      (Seq digits
           (Seq (Char ":")
                (Seq (Group 2 (Repeat 0 None false (argument_step 3))) closing))).

Lemma cutoff_pattern :
  regex "(?<=(cutoff ))[0-9]+:(([^{]|{(?!{)|{{[\s\S]*?}})*?)}}" = mkRegExp cutoff_ast 3.
Proof. vm_compute. reflexivity. Qed.

Definition plain (c : ascii) : bool := negb (Ascii.eqb c "{") && negb (Ascii.eqb c "}").

(** A step takes a character that is no opening brace. *)
Lemma argument_step_takes (g : nat) :
  takes (fun c => negb (Ascii.eqb c "{")) [g] (m (argument_step g) true).
Proof.
  intros bef c aft caps k Hc. apply negb_true_iff in Hc.
  exists (<[g := Some (String c "")]> caps). split; [apply agree_insert; now left|].
  assert (Hclass : class_matches true [CChar "{"] c = true).
  { unfold class_matches. cbn [existsb item_matches]. rewrite Ascii.eqb_sym, Hc. reflexivity. }
  unfold argument_step. cbn [m step_char before after captures]. rewrite Hclass.
  unfold set_capture, captured. cbn [before after captures String.length].
  replace (S (String.length aft) - String.length aft) with 1 by lia. cbn [take].
  rewrite (Ascii.eqb_sym "{" c), Hc. now destruct (k _).
Qed.

Lemma plain_lacks (s : string) :
  lacks "{" s = true -> lacks "}" s = true -> all_chars plain s = true.
Proof.
  intros H1 H2. rewrite lacks_all_chars in H1, H2. now apply all_chars_both.
Qed.

(** The argument of a directive is matched in full when what follows
    fails before each of its characters, none of which is an opening
    brace. *)
Lemma argument_over (g h : nat) (p : ascii -> bool) (k : Cont) (s rest bef : string)
    (caps : list (option string)) (P : MatchState -> Prop) :
  (forall c, p c = true -> Ascii.eqb c "{" = false) ->
  (forall bef' c aft caps', p c = true -> k (mkState bef' (String c aft) caps') = None) ->
  all_chars p s = true ->
  (forall caps', agree_outside [h] caps caps' ->
     reaches P (k (mkState (rev_append s bef) rest (<[g := Some s]> caps')))) ->
  reaches P (m (Group g (Repeat 0 None false (argument_step h))) true
               (mkState bef (s +:+ rest) caps) k).
Proof.
  intros Hp Hfail Hs HP. cbn [m groups argument_step before after app].
  eapply (repeat_lazy_over _ _ _ p _ rest).
  - intros bef' c aft caps' k' Hc.
    apply (argument_step_takes h bef' c aft caps' k'). now rewrite (Hp c Hc).
  - intros bef' c aft caps' Hc. unfold set_capture. cbn [before after captures].
    apply Hfail, Hc.
  - exact Hs.
  - rewrite length_append. lia.
  - intros caps' Hagree. unfold set_capture, captured. cbn [before after captures].
    rewrite take_matched. now apply HP.
Qed.

Lemma plain_no_opening (c : ascii) : plain c = true -> Ascii.eqb c "{" = false.
Proof. intros H. apply andb_prop in H as [H _]. now apply negb_true_iff. Qed.

Lemma plain_no_closing (c : ascii) : plain c = true -> Ascii.eqb c "}" = false.
Proof. intros H. apply andb_prop in H as [_ H]. now apply negb_true_iff. Qed.

(** The argument of a directive, without braces, is matched in full
    before the two closing braces. *)
Lemma argument_reaches (g h : nat) (s rest bef : string) (caps : list (option string))
    (P : MatchState -> Prop) :
  all_chars plain s = true ->
  (forall caps', agree_outside [h] caps caps' ->
     P (mkState (String "}" (String "}" (rev_append s bef))) rest (<[g := Some s]> caps'))) ->
  reaches P (m (Seq (Group g (Repeat 0 None false (argument_step h))) closing) true
               (mkState bef (s +:+ "}}" +:+ rest) caps) Some).
Proof.
  intros Hs HP.
  change (reaches P (m (Group g (Repeat 0 None false (argument_step h))) true
                       (mkState bef (s +:+ "}}" +:+ rest) caps)
                       (fun y => m closing true y Some))).
  apply (argument_over g h plain); [exact plain_no_opening| |exact Hs|].
  - intros bef' c aft caps' Hc. apply closing_fails, plain_no_closing, Hc.
  - intros caps' Hagree. eexists. split; [reflexivity|]. now apply HP.
Qed.

Lemma digit_in_class (d : N) :
  (d < 10)%N -> class_matches false [CRange "0" "9"] (JSNumberFacts.digit d) = true.
Proof.
  intros H.
  assert (Hd : (d = 0 \/ d = 1 \/ d = 2 \/ d = 3 \/ d = 4 \/ d = 5 \/ d = 6 \/ d = 7 \/ d = 8
               \/ d = 9)%N) by lia.
  repeat (destruct Hd as [->|Hd]; [reflexivity|]). subst. reflexivity.
Qed.

Lemma digits_of_in_class (fuel : nat) :
  forall (n : N) (acc : string),
    all_chars (class_matches false [CRange "0" "9"]) acc = true ->
    all_chars (class_matches false [CRange "0" "9"]) (JSNumber.digits_of fuel n acc) = true.
Proof.
  induction fuel as [|fuel IH]; intros n acc Hacc; [exact Hacc|].
  cbn [JSNumber.digits_of].
  assert (Hhead : all_chars (class_matches false [CRange "0" "9"])
                    (String (ascii_of_N (48 + n mod 10)) acc) = true).
  { cbn [all_chars]. rewrite Hacc, andb_true_r.
    apply (digit_in_class (n mod 10)). apply N.mod_lt. lia. }
  destruct (n <? 10)%N; [exact Hhead|]. now apply IH.
Qed.

(** The decimal notation of a natural number. *)
Definition decimal (n : nat) : string := JSNumber.toString (JSNumber.Int (Z.of_nat n)).

Lemma decimal_digits (n : nat) :
  all_chars (class_matches false [CRange "0" "9"]) (decimal n) = true /\
  1 <= String.length (decimal n).
Proof.
  unfold decimal. cbn [JSNumber.toString].
  replace (Z.of_nat n <? 0)%Z with false by (symmetry; apply Z.ltb_ge; lia).
  split; [now apply digits_of_in_class|].
  destruct (JSNumberFacts.digits_of_digits (S (N.to_nat (N.log2 (Z.abs_N (Z.of_nat n)))))
              (Z.abs_N (Z.of_nat n)) "" ltac:(lia)) as (d & tail & _ & -> & _).
  cbn [String.length]. lia.
Qed.

(** The lookbehind of the pattern fails where the token does not precede. *)
Lemma search_behind_group_skip (token : string) (g : nat) (r : Regex) (n : nat)
    (skipped : string) :
  forall (bef : string) (c : ascii) (rest : string),
    never_after (rev token) bef skipped = true ->
    search (Seq (Look false false (Group g (chars token))) r) n bef (skipped +:+ String c rest)
    = search (Seq (Look false false (Group g (chars token))) r) n
             (String c (rev_append skipped bef)) rest.
Proof.
  induction skipped as [|a skipped IH]; intros bef c rest H; cbn [never_after] in H;
    apply andb_prop in H as [Hhere H]; apply negb_true_iff in Hhere;
    cbn [String.append rev_append]; rewrite search_cons; cbn [m];
    rewrite m_chars_backward; cbn [before]; rewrite Hhere.
  - reflexivity.
  - now apply IH.
Qed.

Lemma cutoff_found (n : nat) (content A B : string) :
  JSString.includes "cutoff " A = false ->
  all_chars plain content = true ->
  exists res,
    exec (mkRegExp cutoff_ast 3)
         (A +:+ "{{cutoff " +:+ decimal n +:+ ":" +:+ content +:+ "}}" +:+ B) = Some res /\
    group res 0 = Some (decimal n +:+ ":" +:+ content +:+ "}}") /\
    group res 2 = Some content.
Proof.
  intros HA Hcontent. unfold exec. cbn [ast ngroups].
  destruct (decimal_digits n) as [Hdigits Hlen].
  unfold cutoff_ast at 1.
  change (A +:+ "{{cutoff " +:+ decimal n +:+ ":" +:+ content +:+ "}}" +:+ B)
    with (A +:+ String "{" ("{cutoff " +:+ decimal n +:+ ":" +:+ content +:+ "}}" +:+ B)).
  rewrite search_behind_group_skip
    by (apply (never_after_includes "cutoff " "" A); exact HA).
  cbn [String.append].
  do 8 (rewrite search_cons; cbn [m]; rewrite m_chars_backward;
        cbn [before rev rev_append startsWith Ascii.eqb Bool.eqb]).
  fold cutoff_ast.
  set (bef := String " " (String "f" (String "f" (String "o" (String "t" (String "u"
                (String "c" (String "{" (String "{" (rev_append A "")))))))))).
  set (whole := decimal n +:+ ":" +:+ content +:+ "}}").
  assert (Hm : reaches (fun z => after z = B /\ 0 < List.length (captures z)
                                 /\ captures z !! 2 = Some (Some content))
                 (m cutoff_ast true
                    (mkState bef (decimal n +:+ String ":" (content +:+ String "}" (String "}" B)))
                             (replicate 4 None)) Some)).
  { unfold cutoff_ast. cbn [m]. rewrite m_chars_backward. unfold bef at 1.
    cbn [before after captures rev rev_append startsWith Ascii.eqb Bool.eqb String.length drop].
    unfold digits. cbn [m groups before after].
    eapply (repeat_greedy_over _ _ _ _ _ (String ":" (content +:+ String "}" (String "}" B)))
              (class_takes false [CRange "0" "9"])
              (class_stops false [CRange "0" "9"]
                 (String ":" (content +:+ String "}" (String "}" B))) eq_refl)).
    - exact Hdigits.
    - rewrite length_append. lia.
    - exact Hlen.
    - intros caps' Hagree. apply agree_nil in Hagree. subst caps'.
      cbn [m step_char before after captures]. change (Ascii.eqb ":" ":") with true. cbn iota.
      change (content +:+ String "}" (String "}" B)) with (content +:+ "}}" +:+ B).
      apply argument_reaches; [exact Hcontent|].
      intros caps' [Hlength _]. unfold set_capture in Hlength. cbn [captures] in Hlength.
      rewrite length_insert, length_replicate in Hlength.
      cbn [after captures]. split; [reflexivity|].
      rewrite length_insert, Hlength. split; [lia|].
      apply list_lookup_insert_eq. lia. }
  destruct Hm as (z & Hz & Hafter & Hslots & Hcap).
  rewrite (search_here _ _ _ _ _ Hz). eexists. split; [reflexivity|].
  unfold group, finish. cbn [result_groups]. split.
  - rewrite list_lookup_insert_eq by exact Hslots. f_equal. rewrite Hafter.
    replace (decimal n +:+ String ":" (content +:+ String "}" (String "}" B)))
      with (whole +:+ B).
    + apply take_matched.
    + unfold whole. rewrite !append_assoc. reflexivity.
  - rewrite list_lookup_insert_ne by discriminate. now rewrite Hcap.
Qed.

End CutoffPattern.

(** X16: [{{cutoff n:content}}] yields the first [n] characters of the
    content, all of it when it has no more, in a text
    [A{{cutoff n:content}}B] whose content has no brace and where the
    word [cutoff] followed by a space does not occur in [A]. *)
Theorem cutoff_keeps_the_first_characters
    (n : nat) (content A B : string) (context : option Context) (w : World) :
  JSString.includes "cutoff " A = false ->
  JSStringFacts.lacks "{" content = true ->
  JSStringFacts.lacks "}" content = true ->
  apply cutoff (A +:+ "{{cutoff " +:+ decimal n +:+ ":" +:+ content +:+ "}}" +:+ B) context w
  = Returned [("result", JSString.take n content)] w /\
  String.length (JSString.take n content) = Nat.min n (String.length content).
Proof.
  intros HA Hopen Hclose.
  destruct (cutoff_found n content A B HA (plain_lacks content Hopen Hclose))
    as (res & Hres & Hwhole & Hcontent).
  split.
  - cbn [apply cutoff]. rewrite cutoff_pattern, Hres, Hwhole, Hcontent. cbn [or_empty].
    unfold decimal. rewrite JSNumberFacts.parseInt_toString by reflexivity.
    cbn [slice_to]. replace (Z.of_nat n <? 0)%Z with false by (symmetry; apply Z.ltb_ge; lia).
    now rewrite Nat2Z.id.
  - clear. revert n. induction content as [|c content IH]; intros [|n]; cbn; try reflexivity.
    now rewrite IH.
Qed.

(** ** The branches of the flow-control directives *)

Section FlowPattern.

Import JSString RegExp JSStringFacts RegExpFacts MatchFacts.

(** The optional second branch. *)
Definition otherwise_ast : Regex :=
  Repeat 0 (Some 1) true
         (Group 3 (Seq (Char ":") (Group 4 (Repeat 0 None false (argument_step 5))))).

Definition branches_ast : Regex :=
  Seq (Group 1 (Repeat 0 None false (argument_step 2))) (Seq otherwise_ast closing).

Lemma flow_patterns :
  compile ("{{images" +:+ branches) = Some (mkRegExp (chars_then "{{images:" branches_ast) 5) /\
  compile ("{{videos" +:+ branches) = Some (mkRegExp (chars_then "{{videos:" branches_ast) 5) /\
  compile ("{{audio" +:+ branches) = Some (mkRegExp (chars_then "{{audio:" branches_ast) 5) /\
  compile ("{{pdf" +:+ branches) = Some (mkRegExp (chars_then "{{pdf:" branches_ast) 5).
Proof. repeat split; vm_compute; reflexivity. Qed.

(** A character of the first branch: no brace and no colon. *)
Definition branch_char (c : ascii) : bool := plain c && negb (Ascii.eqb c ":").

(** The second branch as it is written, if there is one. *)
Definition else_text (Y : option string) : string :=
  match Y with
  | Some y => ":" +:+ y
  | None => ""
  end.

Lemma m_group (g : nat) (r : Regex) (x : MatchState) (k : Cont) :
  m (Group g r) true x k = m r true x (fun y => k (set_capture g (captured true x y) y)).
Proof. reflexivity. Qed.

Lemma m_seq (r1 r2 : Regex) (x : MatchState) (k : Cont) :
  m (Seq r1 r2) true x k = m r1 true x (fun y => m r2 true y k).
Proof. reflexivity. Qed.

Lemma m_char_here (c : ascii) (bef aft : string) (caps : list (option string)) (k : Cont) :
  m (Char c) true (mkState bef (String c aft) caps) k = k (mkState (String c bef) aft caps).
Proof. cbn [m step_char before after captures]. now rewrite Ascii.eqb_refl. Qed.

(** An optional subterm that matches is taken. *)
Lemma optional_taken (r : Regex) (k : Cont) (x : MatchState) (P : MatchState -> Prop) :
  0 < String.length (after x) ->
  (forall d : Cont,
      (forall y, d y = None \/ d y = k y) ->
      (forall y, same_position x y = false -> d y = k y) ->
      reaches P (m r true (clear_captures (groups r) x) d)) ->
  reaches P (m (Repeat 0 (Some 1) true r) true x k).
Proof.
  intros Hpos H. cbn [m repeat Nat.eqb negb Nat.add andb Nat.pred pred_max].
  destruct (String.length (before x) + String.length (after x)) as [|fuel] eqn:Hfuel; [lia|].
  match goal with
  | |- reaches P (match m r true _ ?d with _ => _ end) =>
      destruct (H d) as (z & -> & HP)
  end.
  - intros y. destruct (same_position x y); [now left|right; reflexivity].
  - intros y ->. reflexivity.
  - now exists z.
Qed.

(** Before a character that is neither a colon nor a closing brace, the
    end of the directive is not met. *)
Lemma otherwise_fails (bef : string) (c : ascii) (aft : string) (caps : list (option string)) :
  Ascii.eqb c ":" = false -> Ascii.eqb c "}" = false ->
  m (Seq otherwise_ast closing) true (mkState bef (String c aft) caps) Some = None.
Proof.
  intros Hcolon Hclose. rewrite m_seq. unfold otherwise_ast.
  cbn [m repeat Nat.eqb negb Nat.add andb Nat.pred pred_max groups app].
  unfold clear_captures. cbn [m step_char before after captures].
  rewrite (Ascii.eqb_sym ":" c), Hcolon.
  unfold closing. cbn [m step_char before after captures].
  now rewrite (Ascii.eqb_sym "}" c), Hclose.
Qed.

(** Where the directive ends after its first branch, the second is left
    undefined. *)
Lemma otherwise_absent (bef rest : string) (caps : list (option string)) :
  m (Seq otherwise_ast closing) true (mkState bef (String "}" (String "}" rest)) caps) Some
  = Some (mkState (String "}" (String "}" bef)) rest caps).
Proof. reflexivity. Qed.

(** A second branch without braces is matched in full. *)
Lemma otherwise_present (y bef rest : string) (caps : list (option string)) :
  all_chars plain y = true ->
  4 < List.length caps ->
  reaches (fun z => captures z !! 1 = caps !! 1 /\ captures z !! 4 = Some (Some y))
          (m (Seq otherwise_ast closing) true
             (mkState bef (String ":" (y +:+ "}}" +:+ rest)) caps) Some).
Proof.
  intros Hy Hcaps. rewrite m_seq. unfold otherwise_ast.
  apply optional_taken; [cbn [after String.length]; lia|].
  intros d Hd Hmoved. rewrite m_group, m_seq.
  pose proof (agree_clear [3; 4; 5] (mkState bef (String ":" (y +:+ "}}" +:+ rest)) caps))
    as [Hlength Hclear].
  cbn [groups app argument_step]. change (groups closing) with (@nil nat).
  unfold clear_captures in *.
  cbn [before after captures] in *. rewrite m_char_here.
  apply (argument_over 4 5 plain); [exact plain_no_opening| |exact Hy|].
  - intros bef' c aft caps' Hc.
    match goal with |- d ?st = None => destruct (Hd st) as [->| ->]; [reflexivity|] end.
    unfold set_capture. cbn [before after captures].
    apply closing_fails, plain_no_closing, Hc.
  - intros caps' [Hlength' Hagree].
    rewrite Hmoved.
    + eexists. split; [reflexivity|]. unfold set_capture. cbn [before after captures]. split.
      * rewrite !list_lookup_insert_ne by discriminate.
        rewrite Hagree by (cbn; intuition discriminate). apply Hclear. cbn. intuition discriminate.
      * rewrite list_lookup_insert_ne by discriminate.
        apply list_lookup_insert_eq. rewrite Hlength', Hlength. exact Hcaps.
    + unfold same_position, set_capture. cbn [before after captures String.length].
      apply Nat.eqb_neq. rewrite !length_append. cbn [String.length]. lia.
Qed.

(** The two branches of a directive [A{{name:X:Y}}B], or the one branch
    of [A{{name:X}}B], are its groups 1 and 4. *)
Lemma branches_found (token X : string) (Y : option string) (A B : string) :
  lacks "{" A = true ->
  all_chars branch_char X = true ->
  (forall y, Y = Some y -> all_chars plain y = true) ->
  exists res,
    exec (mkRegExp (chars_then (String "{" token) branches_ast) 5)
         (A +:+ String "{" token +:+ X +:+ else_text Y +:+ "}}" +:+ B) = Some res /\
    group res 1 = Some X /\ group res 4 = Y.
Proof.
  intros HA HX HY. unfold exec. cbn [ast ngroups chars_then].
  rewrite (search_skip "{" _ 5 A "" _ HA).
  assert (Hm : reaches (fun z => captures z !! 1 = Some (Some X) /\ captures z !! 4 = Some Y)
                 (m (chars_then (String "{" token) branches_ast) true
                    (mkState (rev_append A "")
                             (String "{" token +:+ X +:+ else_text Y +:+ "}}" +:+ B)
                             (replicate 6 None)) Some)).
  { rewrite m_chars_then_here. unfold branches_ast. rewrite m_seq.
    apply (argument_over 1 2 branch_char).
    - intros c Hc. apply andb_prop in Hc as [Hc _]. now apply plain_no_opening.
    - intros bef' c aft caps' Hc. apply andb_prop in Hc as [Hplain Hcolon].
      apply negb_true_iff in Hcolon. apply otherwise_fails; [exact Hcolon|].
      now apply plain_no_closing.
    - exact HX.
    - intros caps' [Hlength Hagree]. rewrite length_replicate in Hlength.
      assert (Hfirst : <[1 := Some X]> caps' !! 1 = Some (Some X))
        by (apply list_lookup_insert_eq; lia).
      destruct Y as [y|]; cbn [else_text String.append].
      + destruct (otherwise_present y (rev_append X (rev_append (String "{" token)
                                                       (rev_append A "")))
                    B (<[1 := Some X]> caps') (HY y eq_refl))
          as (z & Hz & Hone & Hfour); [rewrite length_insert; lia|].
        exists z. split; [exact Hz|]. split; [now rewrite Hone|exact Hfour].
      + rewrite otherwise_absent. eexists. split; [reflexivity|]. cbn [captures].
        split; [exact Hfirst|].
        rewrite list_lookup_insert_ne by discriminate.
        rewrite Hagree by (cbn; intuition discriminate). reflexivity. }
  destruct Hm as (z & Hz & Hone & Hfour). cbn [chars_then] in Hz.
  rewrite (search_here _ _ _ _ _ Hz). eexists. split; [reflexivity|].
  unfold group, finish. cbn [result_groups].
  rewrite !list_lookup_insert_ne by discriminate. rewrite Hone, Hfour. split; reflexivity.
Qed.

End FlowPattern.

(** X17: a flow-control directive yields its first branch when one of the
    selected files has an extension of its kind, and otherwise its second
    branch, or the empty text when it has none: the branches are those of
    [A{{images:X:Y}}B] or [A{{images:X}}B], and likewise for [videos],
    [audio] and [pdf], with no opening brace in [A], no brace and no colon
    in [X], no brace in [Y], and a selection that is not empty. *)
Theorem flow_control_picks_a_branch
    (env : Env) (X : string) (Y : option string) (A B selected : string)
    (context : Context) (w : World) :
  JSStringFacts.lacks "{" A = true ->
  MatchFacts.all_chars branch_char X = true ->
  MatchFacts.all_chars plain (or_empty Y) = true ->
  JSObject.get "selectedFiles" context = Some selected ->
  selected <> "" ->
  let chosen exts := if some_file_ends_with selected exts then X else or_empty Y in
  apply (contentForImages env) (A +:+ "{{images:" +:+ X +:+ else_text Y +:+ "}}" +:+ B)
        (Some context) w
  = Returned [("result", chosen (imageFileExtensions env));
              ("contentForImages", chosen (imageFileExtensions env))] w /\
  apply (contentForVideos env) (A +:+ "{{videos:" +:+ X +:+ else_text Y +:+ "}}" +:+ B)
        (Some context) w
  = Returned [("result", chosen (videoFileExtensions env));
              ("contentForVideos", chosen (videoFileExtensions env))] w /\
  apply (contentForAudio env) (A +:+ "{{audio:" +:+ X +:+ else_text Y +:+ "}}" +:+ B)
        (Some context) w
  = Returned [("result", chosen (audioFileExtensions env));
              ("contentForAudio", chosen (audioFileExtensions env))] w /\
  apply contentForPDFs (A +:+ "{{pdf:" +:+ X +:+ else_text Y +:+ "}}" +:+ B) (Some context) w
  = Returned [("result", chosen ["pdf"]); ("image:pdf", chosen ["pdf"])] w.
Proof.
  intros HA HX HY Hselected Hsome chosen.
  assert (HY' : forall y, Y = Some y -> MatchFacts.all_chars plain y = true)
    by (intros y ->; exact HY).
  assert (Hfalsy : falsy (Some selected) = false) by (destruct selected; [contradiction|reflexivity]).
  destruct flow_patterns as (Himages & Hvideos & Haudio & Hpdf).
  destruct (branches_found "{images:" X Y A B HA HX HY') as (r1 & Hr1 & Hx1 & Hy1).
  destruct (branches_found "{videos:" X Y A B HA HX HY') as (r2 & Hr2 & Hx2 & Hy2).
  destruct (branches_found "{audio:" X Y A B HA HX HY') as (r3 & Hr3 & Hx3 & Hy3).
  destruct (branches_found "{pdf:" X Y A B HA HX HY') as (r4 & Hr4 & Hx4 & Hy4).
  unfold chosen.
  repeat split; cbn [apply contentForImages contentForVideos contentForAudio contentForPDFs flow];
    unfold flow_control, lookup; rewrite Hselected, Hfalsy; unfold new_RegExp, call, bind.
  - rewrite Himages. cbn [ret]. unfold match_group. rewrite Hr1, Hx1, Hy1. cbn [or_empty].
    now destruct (some_file_ends_with selected (imageFileExtensions env)).
  - rewrite Hvideos. cbn [ret]. unfold match_group. rewrite Hr2, Hx2, Hy2. cbn [or_empty].
    now destruct (some_file_ends_with selected (videoFileExtensions env)).
  - rewrite Haudio. cbn [ret]. unfold match_group. rewrite Hr3, Hx3, Hy3. cbn [or_empty].
    now destruct (some_file_ends_with selected (audioFileExtensions env)).
  - rewrite Hpdf. cbn [ret]. unfold match_group. rewrite Hr4, Hx4, Hy4. cbn [or_empty].
    now destruct (some_file_ends_with selected ["pdf"]).
Qed.

(** A pattern that begins with a text matches nowhere in a text that
    does not contain it. *)
Lemma search_chars_then_absent (token : string) (r : RegExp.Regex) (n : nat) (text : string) :
  forall bef : string,
    JSString.includes token text = false ->
    RegExp.search (RegExpFacts.chars_then token r) n bef text = None.
Proof.
  induction text as [|a text IH]; intros bef H; cbn [JSString.includes] in H;
    apply orb_false_elim in H as [Hhere H].
  - rewrite RegExpFacts.search_nil, RegExpFacts.m_chars_then. cbn [RegExp.after].
    now rewrite Hhere.
  - rewrite RegExpFacts.search_cons, RegExpFacts.m_chars_then. cbn [RegExp.after].
    rewrite Hhere. now apply IH.
Qed.

(** X18: the directive for PDF files looks for its branches after
    [{{pdf:] in lower case only: in a text without it, such as one that
    has the directive as [{{PDF:X:Y}}], which its key accepts, it yields
    the empty text whatever is selected. *)
Theorem pdf_branches_need_lower_case (str : string) (context : option Context) (w : World) :
  JSString.includes "{{pdf:" str = false ->
  apply contentForPDFs str context w = Returned [("result", ""); ("image:pdf", "")] w.
Proof.
  intros H. destruct flow_patterns as (_ & _ & _ & Hpdf).
  cbn [apply contentForPDFs flow]. unfold flow_control.
  destruct context as [context|]; [|reflexivity].
  destruct (falsy (lookup (Some context) "selectedFiles")); [reflexivity|].
  unfold new_RegExp, call, bind. rewrite Hpdf. cbn [ret]. unfold match_group, RegExp.exec.
  cbn [RegExp.ast RegExp.ngroups]. rewrite (search_chars_then_absent _ _ _ _ _ H).
  cbn [or_empty]. now destruct (negb _).
Qed.

(** ** Placeholders in the values of an object

    The values are those JSON has, [undefined], and the functions that an
    object inherits, each with the text [toString] gives for it; the
    numbers are those of [JSNumber].  An object is the list of its own
    properties; what it inherits is the same for all objects. *)

#[local] Set Warnings "-register-all".

Inductive JSValue : Type :=
| VUndefined
| VNull
| VBoolean (b : bool)
| VNumber (n : JSNumber.t)
| VString (s : string)
| VArray (items : list JSValue)
| VObject (props : list (string * JSValue))
| VFunction (source : string).

(** [Object.keys(o)] *)
Definition keys_of (o : JSObject.t JSValue) : list string := map fst o.

Section ApplyToObject.

(** the table of built-in directives *)
Variable placeholders : PlaceholderList.
Variable fuel : nat.
(** what a read finds along the prototype chain under a key that the
    object does not have itself: the functions of [Object.prototype], and
    the prototype under [__proto__] *)
Variable inherited : string -> option JSValue.

(** [obj[key]] *)
Definition read (obj : JSObject.t JSValue) (key : string) : option JSValue :=
  match JSObject.get key obj with
  | Some value => Some value
  | None => inherited key
  end.

(** [applyToString(item)] for an item of an array, which need not be a
    text: with any other value the first test of the loop,
    [subbedStr.match(new RegExp(key, "g"))], throws, at [subbedStr.match]
    for [undefined] and [null] and at the call otherwise. *)
Definition applyToItem (item : JSValue) : M JSValue :=
  match item with
  | VString str =>
      let* subbed := applyToString placeholders fuel str None in
      ret (VString subbed)
  | VUndefined | VNull =>
      match placeholders with
      | [] => ret item
      | _ :: _ => throw "TypeError"
      end
  | _ =>
      match placeholders with
      | [] => ret item
      | (key, _) :: _ => run new_RegExp key in throw "TypeError"
      end
  end.

(** [applyToStrings(value)] for the items of an array *)
Definition applyToItems (items : list JSValue) : M (list JSValue) :=
  for_of items
    (fun item subbedStrs => let* subbed := applyToItem item in
                            ret (subbedStrs ++ [subbed])%list)
    [].

(** [(value || "undefined").toString()] for a value that is no text, no
    array and no object *)
Definition text_of (value : option JSValue) : string :=
  match value with
  | Some (VBoolean true) => "true"
  | Some (VNumber (JSNumber.Int z)) =>
      if (z =? 0)%Z then "undefined" else JSNumber.toString (JSNumber.Int z)
  | Some (VFunction source) => source
  | _ => "undefined"
  end.

(** [bound] bounds the depth of the calls; no context is handed on. *)
Fixpoint applyToObjectValueWithKey (bound : nat) (obj : JSObject.t JSValue) (key : string)
    {struct bound} : M JSValue :=
  match bound with
  | O => fun _ => Diverged
  | S bound' =>
      let value := read obj key in
      match value with
      | Some (VString value) =>
          let* subbed := applyToString placeholders fuel value None in
          ret (VString subbed)
      | Some (VArray value) =>
          let* subbed := applyToItems value in
          ret (VArray subbed)
      | Some (VObject value) =>
          let* subbed := applyToObjectValuesWithKeys bound' value (keys_of value) in
          ret (VObject subbed)
      | Some VNull => throw "TypeError"
      | _ => ret (VString (text_of value))
      end
  end
with applyToObjectValuesWithKeys (bound : nat) (obj : JSObject.t JSValue) (keys : list string)
    {struct bound} : M (JSObject.t JSValue) :=
  match bound with
  | O => fun _ => Diverged
  | S bound' =>
      for_of keys
        (fun key subbedObj =>
           let* subbed := applyToObjectValueWithKey bound' obj key in
           ret (JSObject.assign key subbed subbedObj))
        []
  end.

End ApplyToObject.

(** What every object inherits from [Object.prototype]: its functions,
    and itself under [__proto__], an object without keys of its own. *)
Definition native (name : string) : JSValue :=
  VFunction ("function " +:+ name +:+ "() { [native code] }").

Definition object_prototype (key : string) : option JSValue :=
  if String.eqb key "__proto__" then Some (VObject [])
  else if String.eqb key "constructor" then Some (native "Object")
  else if existsb (String.eqb key)
            ["hasOwnProperty"; "isPrototypeOf"; "propertyIsEnumerable"; "toLocaleString";
             "toString"; "valueOf"; "__defineGetter__"; "__defineSetter__";
             "__lookupGetter__"; "__lookupSetter__"]
       then Some (native key)
  else None.

(** A text without opening brace, and a value made of such texts: a
    text, an array of texts, or an object of such values. *)
Definition plain_item (item : JSValue) : bool :=
  match item with
  | VString s => JSStringFacts.lacks "{" s
  | _ => false
  end.

Fixpoint plain_value (v : JSValue) : bool :=
  match v with
  | VString s => JSStringFacts.lacks "{" s
  | VArray items => forallb plain_item items
  | VObject props => forallb (fun kv => let '(_, x) := kv in plain_value x) props
  | _ => false
  end.

(** The calls that the objects nested in a value take, one inside the
    other. *)
Fixpoint calls_deep (v : JSValue) : nat :=
  match v with
  | VObject props => S (S (list_max (map (fun kv => let '(_, x) := kv in calls_deep x) props)))
  | _ => 0
  end.

(** The properties of every object in the value are in the order in
    which JavaScript keeps them, no key twice, and none of them is named
    [__proto__]. *)
Fixpoint kept (v : JSValue) : Prop :=
  match v with
  | VObject props =>
      JSObject.literal props = props /\
      ~ In "__proto__" (keys_of props) /\
      fold_right (fun kv rest => let '(_, x) := kv in kept x /\ rest) True props
  | _ => True
  end.

Section ObjectFacts.

Variable placeholders : PlaceholderList.
Variable fuel : nat.
Variable inherited : string -> option JSValue.

Lemma applyToString_plain (s : string) (context : option Context) (w : World) :
  forallb brace_led placeholders = true ->
  JSStringFacts.lacks "{" s = true ->
  applyToString placeholders fuel s context w = Returned s w.
Proof.
  intros Hled Hs. apply (applyToString_inert placeholders), brace_led_inert; assumption.
Qed.

Lemma applyToItem_plain (item : JSValue) (w : World) :
  forallb brace_led placeholders = true ->
  plain_item item = true ->
  applyToItem placeholders fuel item w = Returned item w.
Proof.
  intros Hled Hitem. destruct item as [| | | |s| | |]; try discriminate.
  cbn [plain_item] in Hitem. cbn [applyToItem].
  now rewrite (bind_returned _ _ _ _ _ (applyToString_plain s None w Hled Hitem)).
Qed.

Lemma applyToItems_plain (items : list JSValue) (w : World) :
  forallb brace_led placeholders = true ->
  forallb plain_item items = true ->
  applyToItems placeholders fuel items w = Returned items w.
Proof.
  intros Hled Hitems. unfold applyToItems.
  assert (H : forall done,
             for_of items
               (fun item subbedStrs =>
                  let* subbed := applyToItem placeholders fuel item in
                  ret (subbedStrs ++ [subbed])%list)
               done w
             = Returned (done ++ items)%list w); [|exact (H [])].
  induction items as [|item items IH]; intros done; cbn [for_of].
  - now rewrite app_nil_r.
  - cbn [forallb] in Hitems. apply andb_prop in Hitems as [Hitem Hitems].
    rewrite (bind_bind_returned _ _ _ _ _ _ (applyToItem_plain item w Hled Hitem)).
    cbn [ret]. unfold bind at 1. unfold ret at 1. rewrite (IH Hitems).
    now rewrite <- app_assoc.
Qed.

(** A loop that stores, under every key, a value that the key
    determines. *)
Lemma for_of_sets (f : string -> M JSValue) (val : string -> JSValue) (w : World)
    (keys : list string) :
  (forall key, In key keys -> f key w = Returned (val key) w) ->
  forall acc,
    for_of keys
      (fun key subbedObj => let* subbed := f key in ret (JSObject.assign key subbed subbedObj))
      acc w
    = Returned (fold_left (fun acc key => JSObject.assign key (val key) acc) keys acc) w.
Proof.
  induction keys as [|key keys IH]; intros Hf acc; cbn [for_of fold_left]; [reflexivity|].
  rewrite (bind_bind_returned _ _ _ _ _ _ (Hf key (or_introl eq_refl))).
  cbn [ret]. unfold bind at 1. unfold ret at 1.
  apply IH. intros k Hk. apply Hf. now right.
Qed.

Lemma get_in_wf (o : JSObject.t JSValue) (k : string) (v : JSValue) :
  JSObjectFacts.wf o -> In (k, v) o -> JSObject.get k o = Some v.
Proof.
  unfold JSObjectFacts.wf. induction o as [|[k' v'] o IH]; intros Hwf Hin; [destruct Hin|].
  cbn [map fst] in Hwf. apply NoDup_cons in Hwf as [Hnew Hwf].
  rewrite list_elem_of_In in Hnew.
  cbn [JSObject.get]. destruct Hin as [[= -> ->]|Hin].
  - now rewrite String.eqb_refl.
  - destruct (String.eqb_spec k' k) as [->|_]; [|now apply IH].
    exfalso. apply Hnew. apply in_map_iff. now exists (k, v).
Qed.

(** Stored again key by key, an object that is kept in order is itself. *)
Lemma stored_again (o : JSObject.t JSValue) (val : string -> JSValue) :
  JSObject.literal o = o ->
  ~ In "__proto__" (keys_of o) ->
  (forall k v, In (k, v) o -> val k = v) ->
  fold_left (fun acc key => JSObject.assign key (val key) acc) (keys_of o) [] = o.
Proof.
  intros Hkept Hproto Hval. rewrite <- Hkept at 2. unfold JSObject.literal, keys_of in *.
  generalize (@nil (string * JSValue)) as acc.
  clear Hkept. induction o as [|[k v] o IH]; intros acc; cbn [map fold_left fst snd] in *;
    [reflexivity|].
  rewrite (Hval k v (or_introl eq_refl)). unfold JSObject.assign at 2.
  destruct (String.eqb_spec k "__proto__") as [->|_]; [exfalso; apply Hproto; now left|].
  apply IH; [intros H; apply Hproto; now right|].
  intros k' v' Hin. apply Hval. now right.
Qed.

Lemma kept_wf (o : JSObject.t JSValue) : JSObject.literal o = o -> JSObjectFacts.wf o.
Proof. intros <-. apply JSObjectFacts.wf_literal. Qed.

Lemma read_own (obj : JSObject.t JSValue) (key : string) (v : JSValue) :
  JSObject.get key obj = Some v -> read inherited obj key = Some v.
Proof. unfold read. now intros ->. Qed.

Lemma kept_in (props : list (string * JSValue)) (k : string) (v : JSValue) :
  fold_right (fun kv rest => let '(_, x) := kv in kept x /\ rest) True props ->
  In (k, v) props -> kept v.
Proof.
  induction props as [|[k' v'] props IH]; intros H Hin; [destruct Hin|].
  cbn [fold_right] in H. destruct H as [Hv H].
  destruct Hin as [[= -> ->]|Hin]; [exact Hv|now apply IH].
Qed.

Lemma calls_deep_in (props : list (string * JSValue)) (k : string) (v : JSValue) :
  In (k, v) props ->
  calls_deep v <= list_max (map (fun kv => let '(_, x) := kv in calls_deep x) props).
Proof.
  intros Hin.
  assert (H := proj1 (list_max_le (map (fun kv : string * JSValue =>
                                           let '(_, x) := kv in calls_deep x) props) _)
                     (le_n _)).
  rewrite List.Forall_forall in H. apply H. apply in_map_iff. now exists (k, v).
Qed.

Lemma get_assigned (k key : string) (v : JSValue) (acc : JSObject.t JSValue) :
  JSObject.get k (JSObject.assign key v acc)
  = if String.eqb key "__proto__" then JSObject.get k acc
    else if String.eqb key k then Some v else JSObject.get k acc.
Proof.
  unfold JSObject.assign. destruct (String.eqb key "__proto__"); [reflexivity|].
  apply JSObjectFacts.get_set.
Qed.

(** What the loop over the keys has stored when it returns. *)
Lemma stored_keys (bound : nat) (obj : JSObject.t JSValue) (keys : list string) :
  forall (acc result : JSObject.t JSValue) (w w' : World),
    for_of keys
      (fun key subbedObj =>
         let* subbed := applyToObjectValueWithKey placeholders fuel inherited bound obj key in
         ret (JSObject.assign key subbed subbedObj))
      acc w = Returned result w' ->
    forall k,
      k <> "__proto__" ->
      (JSObject.get k result <> None <-> In k keys \/ JSObject.get k acc <> None) /\
      (In k keys -> read inherited obj k = None ->
       JSObject.get k result = Some (VString "undefined")) /\
      (~ In k keys -> JSObject.get k result = JSObject.get k acc).
Proof.
  induction keys as [|key keys IH]; intros acc result w w' Hrun k Hproto; cbn [for_of] in Hrun.
  - injection Hrun as <- _. cbn [In]. repeat split; tauto.
  - unfold bind at 1 in Hrun. unfold bind at 1 in Hrun.
    destruct (applyToObjectValueWithKey placeholders fuel inherited bound obj key w)
      as [v w1| |] eqn:Hv; try discriminate.
    cbn [ret] in Hrun. destruct (IH _ _ _ _ Hrun k Hproto) as (Hhas & Hmissing & Hother).
    rewrite get_assigned in Hhas, Hother.
    repeat split.
    + intros H. apply Hhas in H as [H|H]; [left; now right|].
      destruct (String.eqb key "__proto__"); [now right|].
      destruct (String.eqb_spec key k) as [->|_]; [left; now left|now right].
    + intros [[->|H]|H]; apply Hhas.
      * right. apply String.eqb_neq in Hproto. rewrite Hproto, String.eqb_refl. discriminate.
      * now left.
      * right. destruct (String.eqb key "__proto__"); [exact H|].
        destruct (String.eqb key k); [discriminate|exact H].
    + intros Hin Hnone. destruct (in_dec string_dec k keys) as [Hk|Hk]; [now apply Hmissing|].
      destruct Hin as [->|Hin]; [|contradiction].
      rewrite (Hother Hk). apply String.eqb_neq in Hproto. rewrite Hproto, String.eqb_refl.
      destruct bound as [|bound]; [discriminate|].
      cbn [applyToObjectValueWithKey] in Hv. rewrite Hnone in Hv.
      cbn [text_of] in Hv. now injection Hv as <- _.
    + intros Hin. rewrite (Hother (fun H => Hin (or_intror H))).
      destruct (String.eqb key "__proto__"); [reflexivity|].
      destruct (String.eqb_spec key k) as [->|_]; [|reflexivity].
      exfalso. apply Hin. now left.
Qed.

(** Nothing is stored under [__proto__]. *)
Lemma nothing_under_proto (bound : nat) (obj : JSObject.t JSValue) (keys : list string) :
  forall (acc result : JSObject.t JSValue) (w w' : World),
    for_of keys
      (fun key subbedObj =>
         let* subbed := applyToObjectValueWithKey placeholders fuel inherited bound obj key in
         ret (JSObject.assign key subbed subbedObj))
      acc w = Returned result w' ->
    JSObject.get "__proto__" result = JSObject.get "__proto__" acc.
Proof.
  induction keys as [|key keys IH]; intros acc result w w' Hrun; cbn [for_of] in Hrun.
  - now injection Hrun as <- _.
  - unfold bind at 1 in Hrun. unfold bind at 1 in Hrun.
    destruct (applyToObjectValueWithKey placeholders fuel inherited bound obj key w)
      as [v w1| |] eqn:Hv; try discriminate.
    cbn [ret] in Hrun. rewrite (IH _ _ _ _ Hrun), get_assigned.
    destruct (String.eqb_spec key "__proto__") as [->|Hne]; [reflexivity|].
    now destruct (String.eqb_spec key "__proto__").
Qed.

End ObjectFacts.

(** X19: an object made of texts without opening brace, of arrays of such
    texts and of objects of the kind comes back from
    [applyToObjectValuesWithKeys] as it is when all its keys are asked
    for, and the state is left as it is.  No object in it has a key
    [__proto__], and the keys and aliases of the table begin with an
    opening brace. *)
Theorem applyToObjectValues_leaves_plain_objects
    (placeholders : PlaceholderList) (fuel : nat) (inherited : string -> option JSValue)
    (bound : nat) (obj : JSObject.t JSValue) (w : World) :
  forallb brace_led placeholders = true ->
  plain_value (VObject obj) = true ->
  kept (VObject obj) ->
  calls_deep (VObject obj) <= bound ->
  applyToObjectValuesWithKeys placeholders fuel inherited bound obj (keys_of obj) w
  = Returned obj w.
Proof.
  intros Hled. revert obj w. induction bound as [bound IH] using lt_wf_ind.
  intros obj w Hplain (Hkept & Hproto & Hall) Hdeep.
  cbn [calls_deep] in Hdeep. destruct bound as [|[|bound]]; [lia|lia|].
  cbn [plain_value] in Hplain. rewrite forallb_forall in Hplain.
  pose proof (kept_wf obj Hkept) as Hwf.
  cbn [applyToObjectValuesWithKeys].
  rewrite (for_of_sets _ (fun key => match JSObject.get key obj with
                                     | Some v => v
                                     | None => VUndefined
                                     end)).
  - f_equal. apply stored_again; [exact Hkept|exact Hproto|].
    intros k v Hin. now rewrite (get_in_wf obj k v Hwf Hin).
  - intros key Hkey. unfold keys_of in Hkey. apply in_map_iff in Hkey as ([k v] & <- & Hin).
    cbn [fst]. cbn [applyToObjectValueWithKey].
    rewrite (read_own inherited obj k v (get_in_wf obj k v Hwf Hin)),
      (get_in_wf obj k v Hwf Hin).
    pose proof (Hplain _ Hin) as Hv. cbn beta iota in Hv.
    destruct v as [| | | |s|items|child|]; try discriminate; cbn [plain_value] in Hv.
    + now rewrite (bind_returned _ _ _ _ _
                     (applyToString_plain placeholders fuel s None w Hled Hv)).
    + now rewrite (bind_returned _ _ _ _ _
                     (applyToItems_plain placeholders fuel items w Hled Hv)).
    + assert (Hchild : applyToObjectValuesWithKeys placeholders fuel inherited bound child
                         (keys_of child) w = Returned child w).
      { apply IH; [lia|exact Hv|exact (kept_in obj k _ Hall Hin)|].
        pose proof (calls_deep_in obj k _ Hin). lia. }
      now rewrite (bind_returned _ _ _ _ _ Hchild).
Qed.

(** X20: the object that [applyToObjectValuesWithKeys] returns has the keys
    asked for, but for [__proto__], and no other; under a key that is
    neither a property of the object given nor inherited by it, it has
    the text [undefined]. *)
Theorem applyToObjectValues_answers_every_key
    (placeholders : PlaceholderList) (fuel : nat) (inherited : string -> option JSValue)
    (bound : nat) (obj result : JSObject.t JSValue) (keys : list string) (w w' : World) :
  applyToObjectValuesWithKeys placeholders fuel inherited bound obj keys w
  = Returned result w' ->
  forall k,
    (JSObject.has k result = true <-> In k keys /\ k <> "__proto__") /\
    (In k keys -> k <> "__proto__" -> JSObject.get k obj = None -> inherited k = None ->
     JSObject.get k result = Some (VString "undefined")).
Proof.
  intros Hrun k. destruct bound as [|bound]; [discriminate|].
  cbn [applyToObjectValuesWithKeys] in Hrun.
  pose proof (nothing_under_proto placeholders fuel inherited bound obj keys _ _ _ _ Hrun)
    as Hnone.
  unfold JSObject.has. split.
  - destruct (String.eqb_spec k "__proto__") as [->|Hproto].
    + rewrite Hnone. cbn. split; [discriminate|tauto].
    + destruct (stored_keys placeholders fuel inherited bound obj keys _ _ _ _ Hrun k Hproto)
        as (Hhas & _ & _).
      cbn [JSObject.get] in Hhas. split.
      * intros H. split; [|exact Hproto].
        destruct (JSObject.get k result); [|discriminate].
        destruct (proj1 Hhas ltac:(discriminate)) as [Hin|[]]; [exact Hin|reflexivity].
      * intros [Hin _]. destruct (JSObject.get k result) eqn:Hget; [reflexivity|].
        exfalso. apply (proj2 Hhas (or_introl Hin)). reflexivity.
  - intros Hin Hproto Hown Hinherited.
    destruct (stored_keys placeholders fuel inherited bound obj keys _ _ _ _ Hrun k Hproto)
      as (_ & Hmissing & _).
    apply Hmissing; [exact Hin|]. unfold read. now rewrite Hown.
Qed.
(** ** The properties at work *)

Definition world_two : World :=
  mkWorld ∅ [mkVar "a" "1" "0"; mkVar "b" "2" "2"] None 0 [].

Lemma world_two_unique_names : StoreFacts.unique_names world_two.
Proof. repeat constructor; cbn; intuition discriminate. Qed.

Lemma set_then_get_witness :
  StoreFacts.unique_names world_two /\
  (run Store.setPersistentVariable "a" "5" in Store.getPersistentVariable "a") world_two
  = (run Store.setPersistentVariable "a" "5" in ret "5") world_two.
Proof.
  split; [exact world_two_unique_names|].
  exact (StoreFacts.set_then_get "a" "5" world_two world_two_unique_names).
Defined.

Lemma unique_names_kept_witness :
  StoreFacts.unique_names world_two /\
  (exists w', Store.setPersistentVariable "a" "5" world_two = Returned tt w'
              /\ StoreFacts.unique_names w') /\
  (exists r w', Store.resetPersistentVariable "a" world_two = Returned r w'
                /\ StoreFacts.unique_names w') /\
  (exists w', Store.deletePersistentVariable "a" world_two = Returned tt w'
              /\ StoreFacts.unique_names w').
Proof.
  split; [exact world_two_unique_names|].
  exact (StoreFacts.unique_names_kept "a" "5" world_two world_two_unique_names).
Defined.

Lemma other_variables_untouched_witness :
  "b" <> "a" /\
  (exists w', Store.setPersistentVariable "a" "5" world_two = Returned tt w'
              /\ StoreFacts.value_of "b" w' = StoreFacts.value_of "b" world_two
              /\ StoreFacts.initial_of "b" w' = StoreFacts.initial_of "b" world_two) /\
  (exists r w', Store.resetPersistentVariable "a" world_two = Returned r w'
                /\ StoreFacts.value_of "b" w' = StoreFacts.value_of "b" world_two
                /\ StoreFacts.initial_of "b" w' = StoreFacts.initial_of "b" world_two) /\
  (exists w', Store.deletePersistentVariable "a" world_two = Returned tt w'
              /\ StoreFacts.value_of "b" w' = StoreFacts.value_of "b" world_two
              /\ StoreFacts.initial_of "b" w' = StoreFacts.initial_of "b" world_two).
Proof.
  assert (H : "b" <> "a") by discriminate.
  split; [exact H|].
  exact (StoreFacts.other_variables_untouched "a" "b" "5" world_two H).
Defined.

Lemma reset_restores_first_value_witness :
  StoreFacts.unique_names world_two /\
  exists w',
    (run Store.setPersistentVariable "c" "first" in
     run for_of ["second"; "third"] (fun v _ => Store.setPersistentVariable "c" v) tt in
     let* restored := Store.resetPersistentVariable "c" in
     let* read := Store.getPersistentVariable "c" in
     ret (restored, read)) world_two
    = Returned (StoreFacts.first_value "c" "first" world_two,
                StoreFacts.first_value "c" "first" world_two) w'.
Proof.
  split; [exact world_two_unique_names|].
  exact (StoreFacts.reset_restores_first_value "c" "first" ["second"; "third"] world_two
           world_two_unique_names).
Defined.

Lemma delete_then_get_witness :
  StoreFacts.unique_names world_two /\
  exists w',
    Store.deletePersistentVariable "a" world_two = Returned tt w' /\
    Store.getPersistentVariable "a" w' = Returned "" w' /\
    ~ In "a" (StoreFacts.names (persistentVariables w')).
Proof.
  split; [exact world_two_unique_names|].
  exact (StoreFacts.delete_then_get "a" world_two world_two_unique_names).
Defined.

Lemma three_is_safe : JSNumber.safe_integer (Z.of_nat 3).
Proof. reflexivity. Qed.

Lemma increment_counts_witness :
  falsy (localStorage world_empty !! counter_identifier "increment" "{{increment:c}}") = true /\
  JSNumber.safe_integer (Z.of_nat 3) /\
  exists w',
    evaluations 3 increment "{{increment:c}}" None world_empty
    = Returned (map (fun i => counted (Z.of_nat i)) (seq 1 3)) w' /\
    (0 < 3 ->
     localStorage w' !! counter_identifier "increment" "{{increment:c}}"
     = Some (JSNumber.toString (JSNumber.Int (Z.of_nat 3)))).
Proof.
  assert (H : falsy (localStorage world_empty
                     !! counter_identifier "increment" "{{increment:c}}") = true)
    by (vm_compute; reflexivity).
  split; [exact H|]. split; [exact three_is_safe|].
  exact (increment_counts 3 "{{increment:c}}" None world_empty H three_is_safe).
Defined.

Definition world_text_counter : World := mkWorld {[ "id-c" := "many" ]} [] None 0 [].

Lemma counter_without_number_witness :
  localStorage world_text_counter !! counter_identifier "increment" "{{increment:c}}"
  = Some "many" /\
  falsy (Some "many") = false /\
  JSNumber.parseInt "many" = JSNumber.NaN /\
  exists w',
    evaluations 2 increment "{{increment:c}}" None world_text_counter
    = Returned (List.repeat [("result", "NaN")] 2) w'.
Proof.
  assert (H : localStorage world_text_counter
              !! counter_identifier "increment" "{{increment:c}}" = Some "many")
    by (vm_compute; reflexivity).
  split; [exact H|]. split; [reflexivity|]. split; [reflexivity|].
  exact (counter_without_number_is_NaN 2 "{{increment:c}}" "many" None world_text_counter
           H eq_refl eq_refl).
Defined.

Lemma uuid_is_new_and_recorded_witness :
  never_repeats env_ids /\
  List.length (used world_ids) < 3 /\
  exists u w',
    apply (uuid env_ids 3) "{{uuid}}" None world_ids
    = Returned [("result", u); ("uuid", u)] w' /\
    ~ In u (used world_ids) /\
    usedUUIDs w' = Some (used world_ids ++ [u])%list /\
    (List.NoDup (used world_ids) -> List.NoDup (used w')).
Proof.
  split; [exact tally_never_repeats|]. split; [exact (le_S _ _ (le_n 2))|].
  exact (uuid_is_new_and_recorded env_ids 3 "{{uuid}}" None world_ids tally_never_repeats
           (le_S _ _ (le_n 2))).
Defined.

Lemma usedUUIDs_lists_the_new_id_witness :
  never_repeats env_ids /\
  List.length (used world_ids) < 3 /\
  exists u w',
    apply (uuid env_ids 3) "{{uuid}}" None world_ids
    = Returned [("result", u); ("uuid", u)] w' /\
    apply usedUUIDsDirective "{{usedUUIDs}}" None w'
    = Returned [("result", JSString.join ", " (used world_ids ++ [u]));
                ("usedUUIDs", JSString.join ", " (used world_ids ++ [u]))] w'.
Proof.
  split; [exact tally_never_repeats|]. split; [exact (le_S _ _ (le_n 2))|].
  exact (usedUUIDs_lists_the_new_id env_ids 3 "{{uuid}}" "{{usedUUIDs}}" None None world_ids
           tally_never_repeats (le_S _ _ (le_n 2))).
Defined.

Lemma table_hi_braces_first :
  forallb braces_first (sortedPlaceholders env_hi (placeholders env_hi 2)) = true.
Proof. vm_compute. reflexivity. Qed.

Lemma bulkApply_leaves_plain_text_witness :
  forallb braces_first (sortedPlaceholders env_hi (placeholders env_hi 2)) = true /\
  JSStringFacts.lacks "{" "Hello, world" = true /\
  bulkApply env_hi (placeholders env_hi 2) 2 "Hello, world" (Some [("uuid", "x")]) world_a
  = Returned "Hello, world" world_a.
Proof.
  split; [exact table_hi_braces_first|]. split; [reflexivity|].
  exact (bulkApply_leaves_plain_text env_hi (placeholders env_hi 2) 2 "Hello, world"
           (Some [("uuid", "x")]) world_a table_hi_braces_first eq_refl).
Defined.

Lemma builtins_brace_led : forallb brace_led (placeholders env_hi 2) = true.
Proof. vm_compute. reflexivity. Qed.

Lemma applyToString_leaves_plain_text_witness :
  forallb brace_led (placeholders env_hi 2) = true /\
  JSStringFacts.lacks "{" "Hello" = true /\
  forallb (JSStringFacts.lacks "{") ["a"; "b"] = true /\
  applyToString (placeholders env_hi 2) 2 "Hello" None world_a = Returned "Hello" world_a /\
  applyToStrings (placeholders env_hi 2) 2 ["a"; "b"] None world_a
  = Returned ["a"; "b"] world_a.
Proof.
  split; [exact builtins_brace_led|]. split; [reflexivity|]. split; [reflexivity|].
  exact (applyToString_leaves_plain_text (placeholders env_hi 2) 2 "Hello" ["a"; "b"] None
           world_a builtins_brace_led eq_refl eq_refl).
Defined.

Lemma custom_pattern_compiles : RegExp.compile "{{hi}}" <> None.
Proof. vm_compute. discriminate. Qed.

Lemma custom_value_without_dollar_witness :
  RegExp.compile "{{hi}}" <> None /\
  JSStringFacts.lacks "$" (custom_value (mkCustom "hi" "Hello")) = true /\
  apply (custom "{{hi}}" (mkCustom "hi" "Hello")) "Say {{hi}}" None world_a
  = Returned (JSObject.set "hi" "Hello" [("result", "Hello")]) world_a.
Proof.
  split; [exact custom_pattern_compiles|]. split; [reflexivity|].
  exact (custom_value_without_dollar "{{hi}}" (mkCustom "hi" "Hello") "Say {{hi}}" None
           world_a custom_pattern_compiles eq_refl).
Defined.

Lemma custom_kept_under_new_key_witness :
  JSObject.has "{{hi (\w+)}}" (placeholders env_hi 2) = false /\
  JSObject.get "{{hi (\w+)}}" (sortedPlaceholders env_hi (placeholders env_hi 2))
  = if allowCustomPlaceholders env_hi
    then JSObject.get "{{hi (\w+)}}" (loadCustomPlaceholders env_hi)
    else None.
Proof.
  assert (H : JSObject.has "{{hi (\w+)}}" (placeholders env_hi 2) = false)
    by (vm_compute; reflexivity).
  split; [exact H|].
  exact (custom_kept_under_new_key env_hi (placeholders env_hi 2) "{{hi (\w+)}}" H).
Defined.

Lemma variable_directives_call_the_store_witness :
  JSStringFacts.lacks "{" "Say " = true /\
  is_name "a" = true /\
  JSStringFacts.lacks "}" "5" = true /\
  apply get ("Say " +:+ "{{get " +:+ "a" +:+ "}}" +:+ "!") None world_two
  = (let* value := Store.getPersistentVariable "a" in ret [("result", value)]) world_two /\
  apply delete ("Say " +:+ "{{delete " +:+ "a" +:+ "}}" +:+ "!") None world_two
  = (run Store.deletePersistentVariable "a" in ret [("result", "")]) world_two /\
  apply setPersistentVariable ("Say " +:+ "{{set " +:+ "a" +:+ ":" +:+ "5" +:+ "}}" +:+ "!")
        None world_two
  = (run Store.setPersistentVariable "a" "5" in ret [("result", "")]) world_two.
Proof.
  split; [reflexivity|]. split; [reflexivity|]. split; [reflexivity|].
  exact (variable_directives_call_the_store "a" "5" "Say " "!" None world_two
           eq_refl eq_refl eq_refl).
Defined.

Lemma cutoff_keeps_the_first_characters_witness :
  JSString.includes "cutoff " "Say " = false /\
  JSStringFacts.lacks "{" "Hello World" = true /\
  JSStringFacts.lacks "}" "Hello World" = true /\
  apply cutoff ("Say " +:+ "{{cutoff " +:+ decimal 5 +:+ ":" +:+ "Hello World" +:+ "}}" +:+ "!")
        None world_a
  = Returned [("result", JSString.take 5 "Hello World")] world_a /\
  String.length (JSString.take 5 "Hello World") = Nat.min 5 (String.length "Hello World").
Proof.
  split; [reflexivity|]. split; [reflexivity|]. split; [reflexivity|].
  exact (cutoff_keeps_the_first_characters 5 "Hello World" "Say " "!" None world_a
           eq_refl eq_refl eq_refl).
Defined.

Lemma selection_not_empty : "a.PNG,b.txt" <> "".
Proof. discriminate. Qed.

Lemma flow_control_picks_a_branch_witness :
  JSStringFacts.lacks "{" "Say " = true /\
  MatchFacts.all_chars branch_char "YES" = true /\
  MatchFacts.all_chars plain (or_empty (Some "NO: none")) = true /\
  JSObject.get "selectedFiles" [("selectedFiles", "a.PNG,b.txt")] = Some "a.PNG,b.txt" /\
  "a.PNG,b.txt" <> "" /\
  let chosen exts :=
    if some_file_ends_with "a.PNG,b.txt" exts then "YES" else or_empty (Some "NO: none") in
  apply (contentForImages env_plain)
        ("Say " +:+ "{{images:" +:+ "YES" +:+ else_text (Some "NO: none") +:+ "}}" +:+ "!")
        (Some [("selectedFiles", "a.PNG,b.txt")]) world_a
  = Returned [("result", chosen (imageFileExtensions env_plain));
              ("contentForImages", chosen (imageFileExtensions env_plain))] world_a /\
  apply (contentForVideos env_plain)
        ("Say " +:+ "{{videos:" +:+ "YES" +:+ else_text (Some "NO: none") +:+ "}}" +:+ "!")
        (Some [("selectedFiles", "a.PNG,b.txt")]) world_a
  = Returned [("result", chosen (videoFileExtensions env_plain));
              ("contentForVideos", chosen (videoFileExtensions env_plain))] world_a /\
  apply (contentForAudio env_plain)
        ("Say " +:+ "{{audio:" +:+ "YES" +:+ else_text (Some "NO: none") +:+ "}}" +:+ "!")
        (Some [("selectedFiles", "a.PNG,b.txt")]) world_a
  = Returned [("result", chosen (audioFileExtensions env_plain));
              ("contentForAudio", chosen (audioFileExtensions env_plain))] world_a /\
  apply contentForPDFs
        ("Say " +:+ "{{pdf:" +:+ "YES" +:+ else_text (Some "NO: none") +:+ "}}" +:+ "!")
        (Some [("selectedFiles", "a.PNG,b.txt")]) world_a
  = Returned [("result", chosen ["pdf"]); ("image:pdf", chosen ["pdf"])] world_a.
Proof.
  split; [reflexivity|]. split; [reflexivity|]. split; [reflexivity|].
  split; [reflexivity|]. split; [exact selection_not_empty|].
  exact (flow_control_picks_a_branch env_plain "YES" (Some "NO: none") "Say " "!" "a.PNG,b.txt"
           [("selectedFiles", "a.PNG,b.txt")] world_a eq_refl eq_refl eq_refl eq_refl
           selection_not_empty).
Defined.

(** The directive at work: the picture selected picks the first branch
    of the directive for images and the second of the one for videos. *)
Lemma flow_control_at_work :
  apply (contentForImages env_plain) "Say {{images:YES:NO: none}}!"
        (Some [("selectedFiles", "a.PNG,b.txt")]) world_a
  = Returned [("result", "YES"); ("contentForImages", "YES")] world_a /\
  apply (contentForVideos env_plain) "Say {{videos:YES:NO: none}}!"
        (Some [("selectedFiles", "a.PNG,b.txt")]) world_a
  = Returned [("result", "NO: none"); ("contentForVideos", "NO: none")] world_a.
Proof. split; vm_compute; reflexivity. Qed.

Lemma pdf_branches_need_lower_case_witness :
  RegExp.test (regex ("{{(pdf|PDF)" +:+ branches)) "{{PDF:YES:NO}}" = true /\
  JSString.includes "{{pdf:" "{{PDF:YES:NO}}" = false /\
  apply contentForPDFs "{{PDF:YES:NO}}" (Some [("selectedFiles", "a.pdf")]) world_a
  = Returned [("result", ""); ("image:pdf", "")] world_a.
Proof.
  split; [vm_compute; reflexivity|]. split; [reflexivity|].
  exact (pdf_branches_need_lower_case "{{PDF:YES:NO}}" (Some [("selectedFiles", "a.pdf")])
           world_a eq_refl).
Defined.

Lemma cutoff_at_work :
  apply cutoff "Say {{cutoff 5:Hello World}}!" None world_a
  = Returned [("result", "Hello")] world_a.
Proof. vm_compute. reflexivity. Qed.

Lemma loaded_keys_are_those_of_the_files_witness :
  (exists data p, In (Some data) (customPlaceholderFiles env_hi) /\
                  In ("{{hi (\w+)}}", p) data) /\
  RegExp.compile "{{hi (\w+)}}" <> None /\
  "{{hi (\w+)}}" <> "__proto__" /\
  JSObject.has "{{hi (\w+)}}" (loadCustomPlaceholders env_hi) = true.
Proof.
  assert (Hfile : exists data p, In (Some data) (customPlaceholderFiles env_hi) /\
                                 In ("{{hi (\w+)}}", p) data).
  { eexists _, _. split; [left; reflexivity|left; reflexivity]. }
  assert (Hkey : RegExp.compile "{{hi (\w+)}}" <> None) by (vm_compute; discriminate).
  assert (Hname : "{{hi (\w+)}}" <> "__proto__") by discriminate.
  split; [exact Hfile|]. split; [exact Hkey|]. split; [exact Hname|].
  exact (proj1 (loaded_keys_are_those_of_the_files env_hi "{{hi (\w+)}}") Hfile Hkey Hname).
Defined.

Definition command_object : JSObject.t JSValue :=
  [("name", VString "Summary");
   ("tags", VArray [VString "short"; VString "plain"]);
   ("options", VObject [("model", VString "default")])].

Lemma command_object_kept : kept (VObject command_object).
Proof. cbn. repeat split; intuition discriminate. Qed.

Lemma applyToObjectValues_leaves_plain_objects_witness :
  forallb brace_led (placeholders env_hi 2) = true /\
  plain_value (VObject command_object) = true /\
  kept (VObject command_object) /\
  calls_deep (VObject command_object) <= 4 /\
  applyToObjectValuesWithKeys (placeholders env_hi 2) 2 object_prototype 4 command_object
    (keys_of command_object) world_a
  = Returned command_object world_a.
Proof.
  assert (Hdeep : calls_deep (VObject command_object) <= 4) by (cbn; lia).
  split; [exact builtins_brace_led|]. split; [reflexivity|].
  split; [exact command_object_kept|]. split; [exact Hdeep|].
  exact (applyToObjectValues_leaves_plain_objects (placeholders env_hi 2) 2 object_prototype 4
           command_object world_a builtins_brace_led eq_refl command_object_kept Hdeep).
Defined.

Definition command_object_answers : JSObject.t JSValue :=
  [("name", VString "Summary");
   ("prompt", VString "undefined");
   ("toString", VString "function toString() { [native code] }")].

Lemma command_object_asked :
  applyToObjectValuesWithKeys (placeholders env_hi 2) 2 object_prototype 4 command_object
    ["name"; "prompt"; "toString"; "__proto__"] world_a
  = Returned command_object_answers world_a.
Proof. vm_compute. reflexivity. Qed.

Lemma applyToObjectValues_answers_every_key_witness :
  applyToObjectValuesWithKeys (placeholders env_hi 2) 2 object_prototype 4 command_object
    ["name"; "prompt"; "toString"; "__proto__"] world_a
  = Returned command_object_answers world_a /\
  forall k,
    (JSObject.has k command_object_answers = true
     <-> In k ["name"; "prompt"; "toString"; "__proto__"] /\ k <> "__proto__") /\
    (In k ["name"; "prompt"; "toString"; "__proto__"] -> k <> "__proto__" ->
     JSObject.get k command_object = None -> object_prototype k = None ->
     JSObject.get k command_object_answers = Some (VString "undefined")).
Proof.
  split; [exact command_object_asked|].
  exact (applyToObjectValues_answers_every_key (placeholders env_hi 2) 2 object_prototype 4
           command_object command_object_answers ["name"; "prompt"; "toString"; "__proto__"]
           world_a world_a command_object_asked).
Defined.
